(** * CoincFinder: coincidence counting over picosecond time tags

    A shallow embedding of the counting engine of the repository
    ([Coincidences.cpp], [Singles.h], [ReadCSV.cpp], [RollingSingles.cpp],
    the helpers of [CoincPairs.cpp]), the properties its specification
    states about it, and further properties of the code: the ingest loop
    of the readers, the rolling store, and the symmetries of the counters.

    Conventions of the embedding.
    - [long long], [int] and [size_t] values are integers of [Z]; every
      arithmetic operation of the source is followed by the reduction to
      the width of its C++ type ([wrap_ll], [wrap_int], [wrap_size]).
    - [std::vector<T>] and [std::span<const T>] are lists; an index is a
      [nat], read with stdpp's lookup.
    - [std::map<int, T>] is a [gmap Z T].
    - [float] and [double] are IEEE 754 binary32 and binary64 values of the
      standard library's [SpecFloat], rounded to nearest even.
    - A function that can throw returns an [outcome]; a function that
      mutates an argument passed by reference returns its new value.
    - [std::sort] leaves the order of equal elements open: the sort is an
      argument of the model, and the theorems hold for every sort that
      returns a non-decreasing rearrangement of its input. *)

From Stdlib Require Import ZArith Lia Bool SpecFloat.
From stdpp Require Import gmap list sorting strings.

Local Open Scope Z_scope.

(** ** Machine integers *)

(** Two's complement reduction of [z] to a signed integer of [bits] bits. *)
Definition wrap (bits z : Z) : Z :=
  (z + 2 ^ (bits - 1)) mod 2 ^ bits - 2 ^ (bits - 1).

Definition wrap_ll (z : Z) : Z := wrap 64 z.
Definition wrap_int (z : Z) : Z := wrap 32 z.
(** [static_cast<size_t>] and arithmetic on [size_t]. *)
Definition wrap_size (z : Z) : Z := z mod 2 ^ 64.

Definition LLONG_MIN : Z := - 2 ^ 63.
Definition INT_MIN : Z := - 2 ^ 31.

Definition ll_add (a b : Z) : Z := wrap_ll (a + b).
Definition ll_sub (a b : Z) : Z := wrap_ll (a - b).
Definition ll_mul (a b : Z) : Z := wrap_ll (a * b).
Definition ll_neg (a : Z) : Z := wrap_ll (- a).
(** C++ division truncates towards zero. *)
Definition ll_div (a b : Z) : Z := wrap_ll (Z.quot a b).

(** ** Floating point: binary32 and binary64 *)

Definition float32 := spec_float.
Definition float64 := spec_float.

(** [static_cast<float>(z)] for a [long long] [z]. *)
Definition f32_of_ll (z : Z) : float32 := binary_normalize 24 128 z 0 false.
Definition f32_div (x y : float32) : float32 := SFdiv 24 128 x y.
(** [static_cast<double>] of a [float] is exact; of a [long long] it rounds. *)
Definition f64_of_f32 (x : float32) : float64 := x.
Definition f64_of_ll (z : Z) : float64 := binary_normalize 53 1024 z 0 false.
Definition f64_mul (x y : float64) : float64 := SFmul 53 1024 x y.

(** [std::llround]: nearest integer, halfway cases away from zero. *)
Definition llround (x : float64) : Z :=
  match x with
  | S754_finite s m e =>
      let mag :=
        if 0 <=? e then Z.pos m * 2 ^ e
        else (2 * Z.pos m + 2 ^ (- e)) / 2 ^ (- e + 1) in
      if s then - mag else mag
  | _ => 0
  end.

(** ** Outcomes of functions that can throw *)

Inductive outcome (A : Type) : Type :=
| Returned (a : A)
| InvalidArgument (what : string).
Arguments Returned {A} a.
Arguments InvalidArgument {A} what.

Definition threw {A} (o : outcome A) : bool :=
  match o with Returned _ => false | InvalidArgument _ => true end.

(** ** Coincidences.cpp *)

Definition kPicosecondsPerNanosecond : Z := 1000.

Record DelayScanConfig := {
  startPs : Z;
  endPs : Z;
  stepPs : Z;
  steps : Z  (* size_t *)
}.

Definition buildConfig (delayStartPs delayEndPs delayStepPs : Z)
  : outcome DelayScanConfig :=
  if delayStepPs <=? 0 then
    InvalidArgument "delayStep must be positive in ps"
  else if delayEndPs <? delayStartPs then
    Returned {| startPs := delayStartPs; endPs := delayEndPs;
                stepPs := delayStepPs; steps := 0 |}
  else
    Returned {| startPs := delayStartPs; endPs := delayEndPs;
                stepPs := delayStepPs;
                steps := wrap_size
                  (ll_add (ll_div (ll_sub delayEndPs delayStartPs) delayStepPs) 1) |}.

(** *** appendNextFirstEvent

    A span is a pointer and a length.  The pointer is modelled by the
    buffer it points into, so that aliasing is observable; the elements
    seen through the span are those of that buffer after the call. *)

Inductive Storage := NullStorage | CurrentSecond | ScratchBuffer.

Record Span := { span_data : Storage; span_size : nat }.

Definition span_elements (currentSecond scratch : list Z) (s : Span) : list Z :=
  match span_data s with
  | NullStorage => []
  | CurrentSecond => take (span_size s) currentSecond
  | ScratchBuffer => take (span_size s) scratch
  end.

(** Returns the span and the scratch buffer after the call. *)
Definition appendNextFirstEvent (currentSecond nextSecond scratch : list Z)
  : Span * list Z :=
  match nextSecond with
  | [] =>
      match currentSecond with
      | [] => ({| span_data := NullStorage; span_size := 0 |}, [])
      | _ :: _ =>
          ({| span_data := CurrentSecond; span_size := length currentSecond |},
           scratch)
      end
  | front :: _ =>
      let scratch' := currentSecond ++ [front] in
      ({| span_data := ScratchBuffer; span_size := length scratch' |}, scratch')
  end.

(** *** countCoincidencesWithDelay *)

(** The [while (i < size1 && j < size2)] loop; one unit of [fuel] per
    iteration. *)
Fixpoint pairSweep (fuel : nat) (ch1 ch2 : list Z)
    (lowerBound upperBound delayPs : Z) (count : Z) (i j : nat) : Z :=
  match fuel with
  | O => count
  | S fuel' =>
      match ch1 !! i, ch2 !! j with
      | Some a, Some b =>
          let shifted := ll_sub a delayPs in
          let diff := ll_sub shifted b in
          if diff <? lowerBound then
            pairSweep fuel' ch1 ch2 lowerBound upperBound delayPs count (S i) j
          else if diff >? upperBound then
            pairSweep fuel' ch1 ch2 lowerBound upperBound delayPs count i (S j)
          else
            pairSweep fuel' ch1 ch2 lowerBound upperBound delayPs
              (wrap_int (count + 1)) (S i) (S j)
      | _, _ => count
      end
  end.

Definition countCoincidencesWithDelay (ch1 ch2 : list Z)
    (coincWindowPs delayPs : Z) : Z :=
  let lowerBound := ll_neg coincWindowPs in
  let upperBound := coincWindowPs in
  pairSweep (length ch1 + length ch2) ch1 ch2 lowerBound upperBound delayPs 0 0 0.

(** *** countNFoldCoincidences *)

Record Tagged := { timestamp : Z; channelIdx : nat }.

Global Instance Tagged_inhabited : Inhabited Tagged :=
  populate {| timestamp := 0; channelIdx := 0 |}.

(** The two nested loops that fill [merged]. *)
Fixpoint mergeChannels (channels : list (list Z)) (offsetsPs : list Z)
    (idx : nat) : list Tagged :=
  match channels with
  | [] => []
  | ch :: rest =>
      let offset :=
        match offsetsPs with
        | [] => 0
        | _ => offsetsPs !!! idx
        end in
      map (fun ts => {| timestamp := ll_add ts offset; channelIdx := idx |}) ch
        ++ mergeChannels rest offsetsPs (S idx)
  end.

(** [std::sort] with the comparator [a.timestamp < b.timestamp].  The
    call leaves a rearrangement of [merged] in which no element has a
    smaller timestamp than an earlier one; the order of events with equal
    timestamps is not determined by the source.  The sort is therefore an
    argument of the model, and [stdSort] is what the call guarantees of
    it. *)
Definition timestampLe (a b : Tagged) : Prop := timestamp a <= timestamp b.

Definition stdSort (sort : list Tagged -> list Tagged) : Prop :=
  forall l, sort l ≡ₚ l /\ Sorted timestampLe (sort l).

(** One sort that meets [stdSort], on which the model can be run: the
    insertion sort that keeps events with equal timestamps in the order in
    which they were merged. *)
Fixpoint insertTagged (x : Tagged) (l : list Tagged) : list Tagged :=
  match l with
  | [] => [x]
  | y :: l' =>
      if timestamp y <? timestamp x then y :: insertTagged x l'
      else x :: l
  end.

Definition stableSortTagged (l : list Tagged) : list Tagged :=
  foldr insertTagged [] l.

Record SweepState := {
  freq : list Z;      (* std::vector<int> *)
  have : Z;           (* size_t *)
  left : nat;         (* size_t, an index into merged *)
  coincidences : Z    (* int *)
}.

(** [if (--freq[lidx] == 0) --have; ++left;] *)
Definition dropLeft (merged : list Tagged) (st : SweepState) : SweepState :=
  let lidx := channelIdx (merged !!! left st) in
  let f := wrap_int (freq st !!! lidx - 1) in
  {| freq := <[lidx := f]> (freq st);
     have := if f =? 0 then wrap_size (have st - 1) else have st;
     left := S (left st);
     coincidences := coincidences st |}.

(** The inner [while] loop that shrinks the window from the left. *)
Fixpoint shrinkWindow (fuel : nat) (merged : list Tagged)
    (coincWindowPs : Z) (right : nat) (st : SweepState) : SweepState :=
  match fuel with
  | O => st
  | S fuel' =>
      if (ll_sub (timestamp (merged !!! right)) (timestamp (merged !!! left st))
            >? coincWindowPs)
         && (left st <? right)%nat
      then shrinkWindow fuel' merged coincWindowPs right (dropLeft merged st)
      else st
  end.

(** One iteration of the [for (right ...)] loop. *)
Definition sweepStep (nchannels : Z) (merged : list Tagged)
    (coincWindowPs : Z) (st : SweepState) (right : nat) : SweepState :=
  let idx := channelIdx (merged !!! right) in
  let f := wrap_int (freq st !!! idx + 1) in
  let st1 := {| freq := <[idx := f]> (freq st);
                have := if f =? 1 then wrap_size (have st + 1) else have st;
                left := left st;
                coincidences := coincidences st |} in
  let st2 := shrinkWindow (right - left st1) merged coincWindowPs right st1 in
  if have st2 =? nchannels then
    dropLeft merged
      {| freq := freq st2; have := have st2; left := left st2;
         coincidences := wrap_int (coincidences st2 + 1) |}
  else st2.

(** The state after the first [n] iterations of the [for (right ...)]
    loop, and after the whole loop. *)
Definition sweepAfter (nchannels : nat) (merged : list Tagged)
    (coincWindowPs : Z) (n : nat) : SweepState :=
  foldl (sweepStep (Z.of_nat nchannels) merged coincWindowPs)
    {| freq := replicate nchannels 0; have := 0; left := 0%nat;
       coincidences := 0 |}
    (seq 0 n).

Definition nfoldSweep (nchannels : nat) (merged : list Tagged)
    (coincWindowPs : Z) : SweepState :=
  sweepAfter nchannels merged coincWindowPs (length merged).

Definition totalEvents (channels : list (list Z)) : Z :=
  foldl (fun acc span => wrap_size (acc + Z.of_nat (length span))) 0 channels.

(** An absent [offsetsPs] argument is the empty span; [sort] is the call
    of [std::sort]. *)
Definition countNFoldCoincidences (sort : list Tagged -> list Tagged)
    (channels : list (list Z)) (coincWindowPs : Z) (offsetsPs : list Z)
  : outcome Z :=
  if (length channels <? 2)%nat then
    InvalidArgument "At least two channels required for coincidences"
  else if negb (bool_decide (offsetsPs = []))
          && negb (length offsetsPs =? length channels)%nat then
    InvalidArgument "offsets size must match channels size"
  else
    match channels, offsetsPs with
    | [c0; c1], [] =>
        Returned (countCoincidencesWithDelay c0 c1 coincWindowPs 0)
    | _, _ =>
        if totalEvents channels =? 0 then Returned 0
        else
          let merged := sort (mergeChannels channels offsetsPs 0) in
          Returned
            (coincidences (nfoldSweep (length channels) merged coincWindowPs))
    end.

(** *** computeCoincidencesForRange *)

Definition CoincidencePoint : Type := float32 * Z.
Definition ScanResult : Type := list CoincidencePoint.

(** [static_cast<float>(delayPs) / kPicosecondsPerNanosecond]: the divisor
    is converted to [float] and the division is a [float] division. *)
Definition delayNs (delayPs : Z) : float32 :=
  f32_div (f32_of_ll delayPs) (f32_of_ll kPicosecondsPerNanosecond).

(** [config.startPs + static_cast<long long>(idx) * config.stepPs] *)
Definition gridDelayPs (config : DelayScanConfig) (idx : nat) : Z :=
  ll_add (startPs config) (ll_mul (wrap_ll (Z.of_nat idx)) (stepPs config)).

(** [while (j < ch.size() && p(ch[j])) ++j;] *)
Fixpoint advanceWhile (p : Z -> bool) (ch : list Z) (fuel : nat) (j : nat)
  : nat :=
  match fuel with
  | O => j
  | S fuel' =>
      match ch !! j with
      | Some b => if p b then advanceWhile p ch fuel' (S j) else j
      | None => j
      end
  end.

(** The body of the [for (size_t j = jLo; j < jHi; ++j)] loop. *)
Definition addPair (config : DelayScanConfig) (coincWindowPs t1 : Z)
    (diff : list Z) (b : Z) : list Z :=
  let diffCenter := ll_sub t1 b in
  let intervalStart := ll_sub diffCenter coincWindowPs in
  let intervalEnd := ll_add diffCenter coincWindowPs in
  if (intervalEnd <? startPs config) || (intervalStart >? endPs config) then diff
  else
    let intervalStart := Z.max intervalStart (startPs config) in
    let intervalEnd := Z.min intervalEnd (endPs config) in
    let offsetStart := ll_sub intervalStart (startPs config) in
    let offsetEnd := ll_sub intervalEnd (startPs config) in
    let idxStart :=
      wrap_size (ll_div (ll_sub (ll_add offsetStart (stepPs config)) 1)
                        (stepPs config)) in
    let idxEnd := wrap_size (ll_div offsetEnd (stepPs config)) in
    if (idxStart >? idxEnd) || (idxEnd >=? steps config) then diff
    else
      let diff1 := alter (fun x => ll_add x 1) (Z.to_nat idxStart) diff in
      alter (fun x => ll_sub x 1) (Z.to_nat (wrap_size (idxEnd + 1))) diff1.

Record ScanState := { jLo : nat; jHi : nat; diffArray : list Z }.

(** One iteration of the [for (const long long t1 : channel1)] loop. *)
Definition scanStep (config : DelayScanConfig) (coincWindowPs : Z)
    (channel2 : list Z) (minNeeded maxNeeded : Z)
    (st : ScanState) (t1 : Z) : ScanState :=
  let lowCut := ll_sub t1 maxNeeded in
  let jLo' :=
    advanceWhile (fun b => b <? lowCut) channel2
      (length channel2 - jLo st) (jLo st) in
  let highCut := ll_sub t1 minNeeded in
  let jHi0 := if (jHi st <? jLo')%nat then jLo' else jHi st in
  let jHi' :=
    advanceWhile (fun b => b <=? highCut) channel2
      (length channel2 - jHi0) jHi0 in
  {| jLo := jLo'; jHi := jHi';
     diffArray :=
       foldl (addPair config coincWindowPs t1) (diffArray st)
         (take (jHi' - jLo') (drop jLo' channel2)) |}.

(** The prefix-sum loop that fills [results]. *)
Fixpoint prefixSums (config : DelayScanConfig) (diff : list Z)
    (running : Z) (idx : nat) (n : nat) : ScanResult :=
  match n with
  | O => []
  | S n' =>
      let running' := ll_add running (diff !!! idx) in
      (delayNs (gridDelayPs config idx), wrap_int running')
        :: prefixSums config diff running' (S idx) n'
  end.

(** The result is the content of [results] after the call, together with
    whether the call returned or threw. *)
Definition computeCoincidencesForRange (channel1 channel2 : list Z)
    (coincWindowPs delayStartPs delayEndPs delayStepPs : Z)
    (results : ScanResult) : ScanResult * outcome unit :=
  let results := @nil CoincidencePoint in
  match buildConfig delayStartPs delayEndPs delayStepPs with
  | InvalidArgument what => (results, InvalidArgument what)
  | Returned config =>
      if steps config =? 0 then (results, Returned tt)
      else
        let n := Z.to_nat (steps config) in
        if bool_decide (channel1 = []) || bool_decide (channel2 = []) then
          (map (fun idx => (delayNs (gridDelayPs config idx), 0)) (seq 0 n),
           Returned tt)
        else
          let diff := replicate (Z.to_nat (wrap_size (steps config + 1))) 0 in
          let minNeeded := ll_sub (startPs config) coincWindowPs in
          let maxNeeded := ll_add (endPs config) coincWindowPs in
          let st :=
            foldl (scanStep config coincWindowPs channel2 minNeeded maxNeeded)
              {| jLo := 0; jHi := 0; diffArray := diff |} channel1 in
          (prefixSums config (diffArray st) 0 0 n, Returned tt)
  end.

(** *** findBestDelayPicoseconds *)

(** The [for (const auto &entry : results)] loop; the state is
    [(bestDelayPs, bestCount)]. *)
Definition bestStep (best : Z * Z) (entry : CoincidencePoint) : Z * Z :=
  let delayPs :=
    llround (f64_mul (f64_of_f32 (fst entry))
                     (f64_of_ll kPicosecondsPerNanosecond)) in
  if snd entry >? snd best then (delayPs, snd entry) else best.

(** [scratchResults] is [None] for a null pointer.  Returns the scratch
    vector after the call and the returned delay. *)
Definition findBestDelayPicoseconds (reference target : list Z)
    (coincWindowPs delayStartPs delayEndPs delayStepPs : Z)
    (scratchResults : option ScanResult) : option ScanResult * outcome Z :=
  let results0 := default [] scratchResults in
  let '(results, o) :=
    computeCoincidencesForRange reference target coincWindowPs
      delayStartPs delayEndPs delayStepPs results0 in
  let scratch' := match scratchResults with Some _ => Some results | None => None end in
  match o with
  | InvalidArgument what => (scratch', InvalidArgument what)
  | Returned _ =>
      (scratch', Returned (fst (foldl bestStep (delayStartPs, INT_MIN) results)))
  end.

(** ** Singles.h *)

Record Singles := {
  channel : Z;                          (* int *)
  baseSecond : Z;                       (* long long *)
  eventsPerSecond : list (list Z)
}.

(** A default-constructed [Singles]. *)
Definition emptySingles : Singles :=
  {| channel := 0; baseSecond := 0; eventsPerSecond := [] |}.

(** [ensureSecond] returns a reference to a bucket of the (possibly grown)
    structure: here the structure after the call and the index of that
    bucket in it. *)
Definition ensureSecond (singles : Singles) (second : Z) : Singles * nat :=
  match eventsPerSecond singles with
  | [] =>
      ({| channel := channel singles; baseSecond := second;
          eventsPerSecond := [[]] |}, 0%nat)
  | _ :: _ =>
      if second <? baseSecond singles then
        let prepend := wrap_size (ll_sub (baseSecond singles) second) in
        ({| channel := channel singles; baseSecond := second;
            eventsPerSecond :=
              replicate (Z.to_nat prepend) [] ++ eventsPerSecond singles |},
         0%nat)
      else
        let maxSecond :=
          ll_sub (ll_add (baseSecond singles)
                         (wrap_ll (Z.of_nat (length (eventsPerSecond singles)))))
                 1 in
        let events :=
          if second >? maxSecond then
            let newSize :=
              wrap_size (ll_add (ll_sub second (baseSecond singles)) 1) in
            resize (Z.to_nat newSize) [] (eventsPerSecond singles)
          else eventsPerSecond singles in
        let idx := wrap_size (ll_sub second (baseSecond singles)) in
        ({| channel := channel singles; baseSecond := baseSecond singles;
            eventsPerSecond := events |}, Z.to_nat idx)
  end.

Definition eventsForSecond (singles : Singles) (second : Z) : list Z :=
  match eventsPerSecond singles with
  | [] => []
  | _ :: _ =>
      if second <? baseSecond singles then []
      else
        let idx := wrap_size (ll_sub second (baseSecond singles)) in
        if idx <? Z.of_nat (length (eventsPerSecond singles)) then
          eventsPerSecond singles !!! Z.to_nat idx
        else []
  end.

(** ** ReadCSV.cpp *)

(** [std::upper_bound(bucket.begin(), bucket.end(), ts)] on a sorted
    bucket: the position of the first element greater than [ts]. *)
Fixpoint upper_bound (ts : Z) (bucket : list Z) : nat :=
  match bucket with
  | [] => 0%nat
  | x :: bucket' => if ts <? x then 0%nat else S (upper_bound ts bucket')
  end.

(** The mutation [appendTimestamp] applies to the bucket it obtained. *)
Definition insertTimestamp (ts : Z) (bucket : list Z) : list Z :=
  match last bucket with
  | Some back =>
      if ts <? back then
        let pos := upper_bound ts bucket in
        take pos bucket ++ ts :: drop pos bucket
      else bucket ++ [ts]
  | None => bucket ++ [ts]
  end.

Definition appendTimestamp (singles : Singles) (second ts : Z) : Singles :=
  let '(singles', idx) := ensureSecond singles second in
  {| channel := channel singles'; baseSecond := baseSecond singles';
     eventsPerSecond := alter (insertTimestamp ts) idx (eventsPerSecond singles') |}.

(** *** The ingest loop of [readCSVtoSingles] and [readBINtoSingles]

    Both readers run the same loop body on each event they decode; the
    locals of the loop are gathered in a record. *)

Definition kPicosecondsPerSecond : Z := 1000000000000.
Definition kMaxChannels : Z := 8.
Definition LLONG_MAX : Z := 2 ^ 63 - 1.

Definition bucketIndex (ts firstTimestamp bucketWidthPs : Z) : Z :=
  let bucketWidthPs :=
    if bucketWidthPs <=? 0 then kPicosecondsPerSecond else bucketWidthPs in
  ll_div (ll_sub ts firstTimestamp) bucketWidthPs.

Record IngestState := {
  channels : list Singles;     (* std::array<Singles, kMaxChannels + 1> *)
  firstTimestamp : Z;
  first : bool;
  minTime : Z;
  maxTime : Z
}.

(** The array after [channels[ch].channel = ch] for [ch] in 1..8; entry 0
    stays default-constructed. *)
Definition initialChannels : list Singles :=
  emptySingles
  :: ((fun ch => {| channel := ch; baseSecond := 0; eventsPerSecond := [] |})
        <$> seqZ 1 kMaxChannels).

Definition ingestStart : IngestState :=
  {| channels := initialChannels; firstTimestamp := 0; first := true;
     minTime := LLONG_MAX; maxTime := 0 |}.

(** The loop body, from the validity test on. *)
Definition ingestEvent (bucketWidthPs : Z) (st : IngestState) (ts ch : Z)
  : IngestState :=
  if (ch <? 1) || (ch >? kMaxChannels) || (ts =? 0) then st
  else
    let firstTimestamp' := if first st then ts else firstTimestamp st in
    let sec := bucketIndex ts firstTimestamp' bucketWidthPs in
    {| channels :=
         alter (fun s => appendTimestamp s sec (ll_sub ts firstTimestamp'))
               (Z.to_nat ch) (channels st);
       firstTimestamp := firstTimestamp';
       first := false;
       minTime := if ts <? minTime st then ts else minTime st;
       maxTime := if ts >? maxTime st then ts else maxTime st |}.

Definition ingest (bucketWidthPs : Z) (events : list (Z * Z)) : IngestState :=
  foldl (fun st e => ingestEvent bucketWidthPs st e.1 e.2) ingestStart events.

Definition finalizeSingles (channels : list Singles) : gmap Z Singles :=
  foldl (fun result ch =>
           match channels !! Z.to_nat ch with
           | Some s =>
               match eventsPerSecond s with
               | [] => result
               | _ :: _ =>
                   match result !! ch with
                   | Some _ => result            (* emplace keeps an entry *)
                   | None => <[ch := s]> result
                   end
               end
           | None => result
           end)
        ∅ (seqZ 1 kMaxChannels).

(** [1e-12] and [0.0] as binary64 values. *)
Definition f64_1e_12 : float64 :=
  SFdiv 53 1024 (f64_of_ll 1) (f64_of_ll kPicosecondsPerSecond).
Definition f64_zero : float64 := S754_zero false.

Definition durationSeconds (st : IngestState) : float64 :=
  if maxTime st >? minTime st
  then f64_mul (f64_of_ll (ll_sub (maxTime st) (minTime st))) f64_1e_12
  else f64_zero.

(** A record of a BIN file: the 64-bit unsigned time tag and the 16-bit
    unsigned zero-based channel, as the loop reads them. *)
Definition binEvent (record : Z * Z) : Z * Z :=
  (wrap_ll record.1, wrap_int (record.2 + 1)).

(** [readBINtoSingles] on a file that could be opened, given by the
    complete records that follow its 40-byte header, with the bucket width
    in force. *)
Definition readBINtoSingles (bucketWidthPs : Z) (records : list (Z * Z))
  : gmap Z Singles * float64 :=
  let st := ingest bucketWidthPs (binEvent <$> records) in
  (finalizeSingles (channels st), durationSeconds st).

(** [hasEnding], on strings as lists of characters. *)
Definition hasEnding (str ending : list Ascii.ascii) : bool :=
  (length ending <=? length str)%nat
  && bool_decide (take (length ending)
                       (drop (length str - length ending) str) = ending).

(** *** The fields of a CSV line

    [std::string::find] for a character from a position, [substr], and the
    part of the loop of [readCSVtoSingles] that cuts the timestamp token
    and the channel token out of a line; [None] when the line is
    skipped. *)
Definition comma : Ascii.ascii := Ascii.ascii_of_nat 44.

Fixpoint find_char (c : Ascii.ascii) (line : list Ascii.ascii) : option nat :=
  match line with
  | [] => None
  | x :: rest => if Ascii.eqb x c then Some 0%nat else S <$> find_char c rest
  end.

Definition string_find (c : Ascii.ascii) (pos : nat) (line : list Ascii.ascii)
  : option nat :=
  (fun i => (pos + i)%nat) <$> find_char c (drop pos line).

Definition substr (pos n : nat) (line : list Ascii.ascii) : list Ascii.ascii :=
  take n (drop pos line).

Definition csvTokens (line : list Ascii.ascii)
  : option (list Ascii.ascii * list Ascii.ascii) :=
  match line with
  | [] => None
  | _ :: _ =>
      match string_find comma 0 line with
      | None => None
      | Some firstComma =>
          let secondComma :=
            default (length line) (string_find comma (firstComma + 1) line) in
          Some (substr 0 firstComma line,
                substr (firstComma + 1) (secondComma - firstComma - 1) line)
      end
  end.

(** ** RollingSingles.cpp *)

Record RollingSingles := {
  channels_ : gmap Z Singles;
  latestChunks_ : gmap Z (list (list Z));
  windowSeconds_ : Z;
  latestSecond_ : Z
}.

Definition newRollingSingles (windowSeconds : Z) : RollingSingles :=
  {| channels_ := ∅; latestChunks_ := ∅;
     windowSeconds_ := windowSeconds; latestSecond_ := LLONG_MIN |}.

(** What [prune] does to one stored channel. *)
Definition pruneSingles (minSecond : Z) (s : Singles) : Singles :=
  match eventsPerSecond s with
  | [] => s
  | _ :: _ =>
      let maxSecond :=
        ll_sub (ll_add (baseSecond s)
                       (wrap_ll (Z.of_nat (length (eventsPerSecond s))))) 1 in
      if maxSecond <? minSecond then s
      else if baseSecond s >=? minSecond then s
      else
        let dropCount := ll_sub minSecond (baseSecond s) in
        if dropCount <=? 0 then s
        else if wrap_size dropCount >=? Z.of_nat (length (eventsPerSecond s)) then
          {| channel := channel s; baseSecond := baseSecond s;
             eventsPerSecond := [] |}
        else
          {| channel := channel s; baseSecond := minSecond;
             eventsPerSecond := drop (Z.to_nat dropCount) (eventsPerSecond s) |}
  end.

Definition prune (r : RollingSingles) : RollingSingles :=
  if latestSecond_ r =? LLONG_MIN then r
  else
    let minSecond :=
      ll_add (ll_sub (latestSecond_ r) (windowSeconds_ r)) 1 in
    {| channels_ := pruneSingles minSecond <$> channels_ r;
       latestChunks_ := latestChunks_ r;
       windowSeconds_ := windowSeconds_ r;
       latestSecond_ := latestSecond_ r |}.

(** The loop over the buckets of one incoming channel; the state is the
    stored channel and [latestSecond_]. *)
Fixpoint appendBuckets (incomingBase : Z) (buckets : list (list Z))
    (idx : nat) (target : Singles) (latest : Z) : Singles * Z :=
  match buckets with
  | [] => (target, latest)
  | src :: rest =>
      let second := ll_add incomingBase (wrap_ll (Z.of_nat idx)) in
      let latest' := Z.max latest second in
      let '(target', i) := ensureSecond target second in
      let target'' :=
        {| channel := channel target'; baseSecond := baseSecond target';
           eventsPerSecond := alter (fun bucket => bucket ++ src) i
                                    (eventsPerSecond target') |} in
      appendBuckets incomingBase rest (S idx) target'' latest'
  end.

(** The body of the loop over the entries of the chunk. *)
Definition appendEntry (ch : Z) (incoming : Singles)
    (r : RollingSingles) : RollingSingles :=
  match eventsPerSecond incoming with
  | [] => r
  | _ :: _ =>
      let target0 := default emptySingles (channels_ r !! ch) in
      let target1 :=
        match eventsPerSecond target0 with
        | [] => {| channel := channel incoming;
                   baseSecond := baseSecond target0;
                   eventsPerSecond := eventsPerSecond target0 |}
        | _ :: _ => target0
        end in
      let '(target, latest) :=
        appendBuckets (baseSecond incoming) (eventsPerSecond incoming) 0
          target1 (latestSecond_ r) in
      {| channels_ := <[ch := target]> (channels_ r);
         latestChunks_ := <[ch := eventsPerSecond incoming]> (latestChunks_ r);
         windowSeconds_ := windowSeconds_ r;
         latestSecond_ := latest |}
  end.

(** The entries of a [std::map], in the order its iterator visits them:
    by increasing key. *)
Definition keyLe {V : Type} (a b : Z * V) : Prop := a.1 <= b.1.

Global Instance keyLe_dec {V : Type} (a b : Z * V) : Decision (keyLe a b) :=
  Z_le_dec a.1 b.1.

Definition entriesInKeyOrder {V : Type} (m : gmap Z V) : list (Z * V) :=
  merge_sort keyLe (map_to_list m).

Definition appendChunk (chunk : gmap Z Singles) (r : RollingSingles)
  : RollingSingles :=
  prune (foldl (fun r entry => appendEntry entry.1 entry.2 r) r
               (entriesInKeyOrder chunk)).

Definition setWindow (seconds : Z) (r : RollingSingles) : RollingSingles :=
  prune {| channels_ := channels_ r; latestChunks_ := latestChunks_ r;
           windowSeconds_ := Z.max 1 seconds;
           latestSecond_ := latestSecond_ r |}.

Definition channelSingles (r : RollingSingles) (ch : Z) : Singles :=
  default emptySingles (channels_ r !! ch).

Definition latestChunk (r : RollingSingles) (ch : Z) : list (list Z) :=
  default [] (latestChunks_ r !! ch).

(** ** CoincPairs.cpp *)

(** [spanWithNext]: the span over the bucket of [second] bridged with the
    first event of the next bucket, and the scratch buffer after the
    call.  [second] is an [int]. *)
Definition spanWithNext (s : Singles) (second : Z) (scratch : list Z)
  : Span * list Z :=
  let current := eventsForSecond s second in
  let next := eventsForSecond s (wrap_int (second + 1)) in
  appendNextFirstEvent current next scratch.

(** The elements seen through the span that [spanWithNext] returned. *)
Definition spanView (s : Singles) (second : Z) (view : Span * list Z) : list Z :=
  span_elements (eventsForSecond s second) view.2 view.1.

(** [countAtDelay]: the count and the two scratch buffers after the call. *)
Definition countAtDelay (s1 s2 : Singles) (second : Z)
    (coincWindowPs delayPs : Z) (scratch1 scratch2 : list Z)
  : Z * (list Z * list Z) :=
  let span1 := spanWithNext s1 second scratch1 in
  let span2 := spanWithNext s2 second scratch2 in
  if (span_size span1.1 =? 0)%nat || (span_size span2.1 =? 0)%nat
  then (0, (span1.2, span2.2))
  else (countCoincidencesWithDelay (spanView s1 second span1)
          (spanView s2 second span2) coincWindowPs delayPs,
        (span1.2, span2.2)).

(** ** Vocabulary of the specification *)

(** Invariant 1 of the data model: every bucket is non-decreasing. *)
Definition sortedBucket (bucket : list Z) : Prop := Sorted Z.le bucket.

Definition sortedBuckets (s : Singles) : Prop :=
  Forall sortedBucket (eventsPerSecond s).

(** Timestamps, delays and windows for which no [long long] operation of
    the engine overflows: at most 2^61 ps in magnitude (about 26 days). *)
Definition picoseconds (x : Z) : Prop := - 2 ^ 61 <= x <= 2 ^ 61.

(** *** The consuming two-pointer sweep, in the words of the specification

    A configuration is the pair of indices [i], [j] and the list of the
    index pairs matched so far. *)
Record SweepConfig := {
  sweep_i : nat;
  sweep_j : nat;
  sweep_matches : list (nat * nat)
}.

Definition sweep_start : SweepConfig :=
  {| sweep_i := 0; sweep_j := 0; sweep_matches := [] |}.

Inductive sweep_step (A B : list Z) (w d : Z) : SweepConfig -> SweepConfig -> Prop :=
| sweep_advance_i i j ms a b :
    A !! i = Some a -> B !! j = Some b ->
    (a - d) - b < - w ->
    sweep_step A B w d
      {| sweep_i := i; sweep_j := j; sweep_matches := ms |}
      {| sweep_i := S i; sweep_j := j; sweep_matches := ms |}
| sweep_advance_j i j ms a b :
    A !! i = Some a -> B !! j = Some b ->
    (a - d) - b > w ->
    sweep_step A B w d
      {| sweep_i := i; sweep_j := j; sweep_matches := ms |}
      {| sweep_i := i; sweep_j := S j; sweep_matches := ms |}
| sweep_match i j ms a b :
    A !! i = Some a -> B !! j = Some b ->
    - w <= (a - d) - b <= w ->
    sweep_step A B w d
      {| sweep_i := i; sweep_j := j; sweep_matches := ms |}
      {| sweep_i := S i; sweep_j := S j; sweep_matches := ms ++ [(i, j)] |}.

(** The sweep stops when either view is exhausted. *)
Definition sweep_done (A B : list Z) (c : SweepConfig) : Prop :=
  (length A <= sweep_i c)%nat \/ (length B <= sweep_j c)%nat.

(** Every matched pair lies strictly below the current indices, and no
    index of either view is matched twice. *)
Definition sweep_consumed (c : SweepConfig) : Prop :=
  Forall (fun p => (p.1 < sweep_i c)%nat /\ (p.2 < sweep_j c)%nat)
         (sweep_matches c)
  /\ NoDup (sweep_matches c).*1
  /\ NoDup (sweep_matches c).*2.

(** *** Invariant of the N-fold sweep

    [count_pos f] is the number of channels whose frequency is positive:
    the quantity the source keeps in [have]. *)
Fixpoint count_pos (f : list Z) : Z :=
  match f with
  | [] => 0
  | x :: f' => (if 1 <=? x then 1 else 0) + count_pos f'
  end.

(** Channel [e] contributes no event; [lb] bounds [left] and [ib] bounds
    the number of increments made so far. *)
Definition sweep_inv (K e lb ib : nat) (st : SweepState) : Prop :=
  length (freq st) = K
  /\ (left st <= lb)%nat
  /\ Forall (fun x => - Z.of_nat (left st) <= x <= Z.of_nat ib) (freq st)
  /\ (exists x, freq st !! e = Some x /\ x <= 0)
  /\ have st = count_pos (freq st)
  /\ have st <= Z.of_nat ib
  /\ coincidences st = 0.

(** The events of [merged] carry valid channel indices, none of them [e]. *)
Definition tagged_ok (K e : nat) (t : Tagged) : Prop :=
  (channelIdx t < K)%nat /\ channelIdx t <> e.

(** *** The brute-force cross-product count

    [in_window w d a b] is the test [|a - d - b| <= w]; [crossCount]
    counts, by a double loop over both views, every index pair that
    passes it. *)
Definition sumZ {X : Type} (f : X -> Z) (l : list X) : Z :=
  foldr (fun x acc => f x + acc) 0 l.

Definition in_window (w d a b : Z) : bool := Z.abs (a - d - b) <=? w.

Definition hit (w d a b : Z) : Z := if in_window w d a b then 1 else 0.

Definition crossCount (A B : list Z) (w d : Z) : Z :=
  sumZ (fun a => sumZ (fun b => hit w d a b) B) A.

(** The sum of the first [m] cells of the difference array. *)
Fixpoint psum (diff : list Z) (m : nat) {struct m} : Z :=
  match m, diff with
  | S m', x :: diff' => x + psum diff' m'
  | _, _ => 0
  end.

(** Equality of [long long] values up to wrap-around. *)
Definition eqm64 (x y : Z) : Prop := x mod 2 ^ 64 = y mod 2 ^ 64.

(** The delay grid of the specification: its number of points, its
    [k]-th delay, and the configuration [buildConfig] computes for it. *)
Definition gridPoints (start_ps end_ps step_ps : Z) : Z :=
  (end_ps - start_ps) / step_ps + 1.

Definition gridDelay (start_ps step_ps : Z) (k : nat) : Z :=
  start_ps + Z.of_nat k * step_ps.

Definition gridConfig (start_ps end_ps step_ps : Z) : DelayScanConfig :=
  {| startPs := start_ps; endPs := end_ps; stepPs := step_ps;
     steps := gridPoints start_ps end_ps step_ps |}.

(** The picosecond delay [findBestDelayPicoseconds] recomputes from a
    nanosecond x-coordinate: [llround(double(x) * 1000.0)]. *)
Definition roundTripPs (x : float32) : Z :=
  llround (f64_mul (f64_of_f32 x) (f64_of_ll kPicosecondsPerNanosecond)).

(** *** Shifting every timestamp of the merged stream *)
Definition shiftTagged (c : Z) (t : Tagged) : Tagged :=
  {| timestamp := timestamp t + c; channelIdx := channelIdx t |}.

(** *** Seconds and buckets

    Second indices for which no operation of [Singles.h] overflows, and
    the bucket a structure stores for an absolute second, if it spans it. *)
Definition secondOK (t : Z) : Prop := - 2 ^ 61 <= t <= 2 ^ 61.

Definition secondsOK (s : Singles) : Prop :=
  - 2 ^ 61 <= baseSecond s
  /\ baseSecond s + Z.of_nat (length (eventsPerSecond s)) - 1 <= 2 ^ 61.

Definition bucketAt (s : Singles) (t : Z) : option (list Z) :=
  if t <? baseSecond s then None
  else eventsPerSecond s !! Z.to_nat (t - baseSecond s).

(** *** What the readers are expected to store

    An event is a pair of a timestamp and a one-based channel.  The valid
    events are those with a channel in 1..8 and a non-zero timestamp; the
    origin is the timestamp of the first valid event; the bucket of
    channel [ch] and slice [t] is expected to hold the offsets from the
    origin of the valid events of [ch] whose offset, divided by the bucket
    width, gives [t]. *)
Definition timestampOK (x : Z) : Prop := - 2 ^ 60 <= x <= 2 ^ 60.

Definition validEvent (e : Z * Z) : bool :=
  (1 <=? e.2) && (e.2 <=? 8) && negb (e.1 =? 0).

Definition timeOrigin (events : list (Z * Z)) : Z :=
  match List.filter validEvent events with
  | e :: _ => e.1
  | [] => 0
  end.

Definition bucketWidth (bucketWidthPs : Z) : Z :=
  if bucketWidthPs <=? 0 then 1000000000000 else bucketWidthPs.

Definition channelOffsets (events : list (Z * Z)) (ch : Z) : list Z :=
  List.map (fun e => e.1 - timeOrigin events)
    (List.filter (fun e => validEvent e && (e.2 =? ch)) events).

Definition expectedBucket (bucketWidthPs : Z) (events : list (Z * Z))
    (ch t : Z) : list Z :=
  List.filter (fun x => Z.quot x (bucketWidth bucketWidthPs) =? t)
    (channelOffsets events ch).

(** The invariant of the ingest loop after the events [l]. *)
Definition ingestInv (bucketWidthPs : Z) (l : list (Z * Z))
    (st : IngestState) : Prop :=
  first st = (match List.filter validEvent l with [] => true | _ => false end)
  /\ (first st = false -> firstTimestamp st = timeOrigin l)
  /\ forall ch, 1 <= ch <= 8 ->
       exists s,
         channels st !! Z.to_nat ch = Some s
         /\ channel s = ch
         /\ secondsOK s
         /\ sortedBuckets s
         /\ (eventsPerSecond s = [] <-> channelOffsets l ch = [])
         /\ forall t, default [] (bucketAt s t)
                      ≡ₚ expectedBucket bucketWidthPs l ch t.

(** * Properties *)

(** ** Machine integers in range *)

Lemma wrap_ll_small z : - 2 ^ 63 <= z < 2 ^ 63 -> wrap_ll z = z.
Proof.
  intros Hz. unfold wrap_ll, wrap.
  change (64 - 1) with 63.
  rewrite Z.mod_small; [lia|].
  change (2 ^ 64) with (2 * 2 ^ 63). lia.
Qed.

Lemma wrap_int_small z : - 2 ^ 31 <= z < 2 ^ 31 -> wrap_int z = z.
Proof.
  intros Hz. unfold wrap_int, wrap.
  change (32 - 1) with 31.
  rewrite Z.mod_small; [lia|].
  change (2 ^ 32) with (2 * 2 ^ 31). lia.
Qed.

Lemma wrap_size_small z : 0 <= z < 2 ^ 64 -> wrap_size z = z.
Proof. intros Hz. unfold wrap_size. apply Z.mod_small. lia. Qed.

(** Rewrites every in-range [long long] operation of the goal to the exact
    one. *)
Ltac unwrap_ll :=
  unfold ll_add, ll_sub, ll_neg;
  repeat match goal with
         | |- context [wrap_ll ?z] =>
             rewrite (wrap_ll_small z) by (unfold picoseconds in *; lia)
         end;
  try reflexivity.

(** *** Arithmetic modulo 2^64 *)

Lemma wrap_ll_rep z : exists q, wrap_ll z = z + q * 2 ^ 64.
Proof.
  unfold wrap_ll, wrap. change (64 - 1) with 63.
  exists (- ((z + 2 ^ 63) / 2 ^ 64)).
  pose proof (Z_div_mod_eq_full (z + 2 ^ 63) (2 ^ 64)). lia.
Qed.

Lemma eqm64_intro x y q : x = y + q * 2 ^ 64 -> eqm64 x y.
Proof. intros ->. unfold eqm64. apply Z.mod_add. lia. Qed.

Lemma eqm64_refl x : eqm64 x x.
Proof. reflexivity. Qed.

Lemma eqm64_trans x y z : eqm64 x y -> eqm64 y z -> eqm64 x z.
Proof. unfold eqm64. congruence. Qed.

Lemma eqm64_add x x' y y' : eqm64 x x' -> eqm64 y y' -> eqm64 (x + y) (x' + y').
Proof.
  unfold eqm64. intros Hx Hy.
  rewrite (Z.add_mod x y), (Z.add_mod x' y') by lia.
  rewrite Hx, Hy. reflexivity.
Qed.

Lemma wrap_ll_eqm z : eqm64 (wrap_ll z) z.
Proof.
  unfold eqm64, wrap_ll, wrap. change (64 - 1) with 63.
  rewrite Zminus_mod_idemp_l.
  replace (z + 2 ^ 63 - 2 ^ 63) with z by lia. reflexivity.
Qed.

Lemma wrap_int_eqm x y : eqm64 x y -> wrap_int x = wrap_int y.
Proof.
  unfold eqm64, wrap_int, wrap. intros H. change (32 - 1) with 31.
  f_equal.
  assert (Hd : forall z, (z + 2 ^ 31) mod 2 ^ 32
                         = ((z mod 2 ^ 64) + 2 ^ 31) mod 2 ^ 32).
  { intros z.
    rewrite (Z.add_mod z), (Z.add_mod (z mod 2 ^ 64)) by lia.
    f_equal. f_equal. symmetry.
    apply Z.mod_mod_divide. exists (2 ^ 32). reflexivity. }
  rewrite (Hd x), (Hd y), H. reflexivity.
Qed.

(** *** Floor and ceiling of a quotient *)

Lemma floor_div_ge x s k : 0 < s -> (k <= x / s <-> k * s <= x).
Proof.
  intros Hs. split; intros H.
  - pose proof (Z.mul_div_le x s Hs). nia.
  - apply Z.div_le_lower_bound; lia.
Qed.

Lemma ceil_div_le x s k : 0 < s -> ((x + s - 1) / s <= k <-> x <= k * s).
Proof.
  intros Hs. split; intros H.
  - pose proof (Z.mul_succ_div_gt (x + s - 1) s Hs). nia.
  - assert ((x + s - 1) / s < k + 1); [|lia].
    apply Z.div_lt_upper_bound; lia.
Qed.

(** ** The bucket edge bridge *)

(** C6.  With an empty next bucket the returned span aliases the current
    bucket (its data pointer is the bucket's own storage, its length the
    bucket's length) and the scratch buffer is not written; it is the empty
    span when both buckets are empty.  Otherwise the span points into the
    scratch buffer, which holds the current bucket followed by exactly one
    element, the first timestamp of the next bucket. *)
Theorem appendNextFirstEvent_view (currentSecond nextSecond scratch : list Z) :
  let '(view, scratch') :=
    appendNextFirstEvent currentSecond nextSecond scratch in
  match nextSecond with
  | [] =>
      span_elements currentSecond scratch' view = currentSecond
      /\ match currentSecond with
         | [] => span_size view = 0%nat
         | _ :: _ =>
             span_data view = CurrentSecond
             /\ span_size view = length currentSecond
             /\ scratch' = scratch
         end
  | front :: _ =>
      span_data view = ScratchBuffer
      /\ scratch' = currentSecond ++ [front]
      /\ span_size view = S (length currentSecond)
      /\ span_elements currentSecond scratch' view = currentSecond ++ [front]
  end.
Proof.
  unfold appendNextFirstEvent, span_elements.
  destruct nextSecond as [|front rest]; destruct currentSecond as [|x cur];
    simpl.
  - split; reflexivity.
  - rewrite take_ge by lia. repeat split; reflexivity.
  - repeat split; reflexivity.
  - rewrite length_app, Nat.add_1_r. simpl.
    rewrite take_ge by (rewrite length_app; simpl; lia).
    repeat split; reflexivity.
Qed.

(** ** The fixed-delay sweep *)

Section PairSweep.
Variables (A B : list Z) (w d : Z).
Hypothesis A_range : Forall picoseconds A.
Hypothesis B_range : Forall picoseconds B.
Hypothesis d_range : picoseconds d.
Hypothesis w_range : 0 < w < 2 ^ 63.

Lemma pair_diff_exact i j a b :
  A !! i = Some a -> B !! j = Some b ->
  ll_sub (ll_sub a d) b = a - d - b.
Proof.
  intros Ha Hb.
  apply (Forall_lookup_1 _ _ _ _ A_range) in Ha.
  apply (Forall_lookup_1 _ _ _ _ B_range) in Hb.
  unfold picoseconds in *. unfold ll_sub.
  rewrite (wrap_ll_small (a - d)) by lia.
  apply wrap_ll_small. lia.
Qed.

Lemma lower_bound_exact : ll_neg w = - w.
Proof. unfold ll_neg. apply wrap_ll_small. lia. Qed.

(** The loop of the source, started in any configuration whose match
    count it carries, ends in a final configuration of the sweep. *)
Lemma pairSweep_runs fuel : forall i j ms,
  (length A - i + (length B - j) <= fuel)%nat ->
  (length ms <= Nat.min i j)%nat ->
  Z.of_nat (Nat.min (length A) (length B)) < 2 ^ 31 ->
  exists c,
    rtc (sweep_step A B w d)
      {| sweep_i := i; sweep_j := j; sweep_matches := ms |} c
    /\ sweep_done A B c
    /\ pairSweep fuel A B (- w) w d (Z.of_nat (length ms)) i j
       = Z.of_nat (length (sweep_matches c)).
Proof.
  induction fuel as [|fuel IH]; intros i j ms Hfuel Hms Hsize.
  - exists {| sweep_i := i; sweep_j := j; sweep_matches := ms |}.
    split; [apply rtc_refl|]. split; [left; simpl; lia | reflexivity].
  - simpl.
    destruct (A !! i) as [a|] eqn:Ha; cycle 1.
    { exists {| sweep_i := i; sweep_j := j; sweep_matches := ms |}.
      split; [apply rtc_refl|]. split; [|reflexivity].
      left. simpl. apply lookup_ge_None. exact Ha. }
    destruct (B !! j) as [b|] eqn:Hb; cycle 1.
    { exists {| sweep_i := i; sweep_j := j; sweep_matches := ms |}.
      split; [apply rtc_refl|]. split; [|reflexivity].
      right. simpl. apply lookup_ge_None. exact Hb. }
    pose proof (lookup_lt_Some _ _ _ Ha) as Hi.
    pose proof (lookup_lt_Some _ _ _ Hb) as Hj.
    rewrite (pair_diff_exact i j a b Ha Hb).
    destruct (Z.ltb_spec (a - d - b) (- w)) as [Hlo|Hlo].
    { destruct (IH (S i) j ms) as (c & Hrun & Hdone & Heq); [lia|lia|lia|].
      exists c. split; [|split; assumption].
      eapply rtc_l; [|exact Hrun].
      eapply sweep_advance_i; eassumption. }
    destruct (Z.gtb_spec (a - d - b) w) as [Hhi|Hhi].
    { destruct (IH i (S j) ms) as (c & Hrun & Hdone & Heq); [lia|lia|lia|].
      exists c. split; [|split; assumption].
      eapply rtc_l; [|exact Hrun].
      eapply sweep_advance_j; eassumption || lia. }
    destruct (IH (S i) (S j) (ms ++ [(i, j)])) as (c & Hrun & Hdone & Heq);
      [lia | rewrite length_app; simpl; lia | lia |].
    exists c. split; [|split; [assumption|]].
    + eapply rtc_l; [|exact Hrun].
      eapply sweep_match; eassumption || lia.
    + rewrite wrap_int_small by lia.
      rewrite <- Heq. f_equal. rewrite length_app. simpl. lia.
Qed.

(** The sweep is deterministic, so its final configuration is unique. *)
Lemma sweep_step_deterministic c c1 c2 :
  sweep_step A B w d c c1 -> sweep_step A B w d c c2 -> c1 = c2.
Proof.
  intros H1 H2.
  inversion H1; subst; inversion H2; subst;
    repeat match goal with
           | Ha : ?l !! ?k = Some ?x, Hb : ?l !! ?k = Some ?y |- _ =>
               assert (x = y) by congruence; subst y; clear Hb
           end;
    first [reflexivity | lia].
Qed.

Lemma sweep_done_stuck c c' :
  sweep_done A B c -> sweep_step A B w d c c' -> False.
Proof.
  intros [Hd|Hd] Hstep; inversion Hstep; subst; simpl in Hd;
    match goal with
    | Ha : A !! _ = Some _, Hb : B !! _ = Some _ |- _ =>
        apply lookup_lt_Some in Ha; apply lookup_lt_Some in Hb; lia
    end.
Qed.

Lemma sweep_final_unique c c1 c2 :
  rtc (sweep_step A B w d) c c1 -> sweep_done A B c1 ->
  rtc (sweep_step A B w d) c c2 -> sweep_done A B c2 ->
  c1 = c2.
Proof.
  intros H1. revert c2.
  induction H1 as [c|c cm c1 Hstep Hrun IH]; intros c2 Hd1 H2 Hd2.
  - inversion H2 as [|? cm' ? Hstep' Hrun']; subst; [reflexivity|].
    exfalso. exact (sweep_done_stuck _ _ Hd1 Hstep').
  - inversion H2 as [|? cm' ? Hstep' Hrun']; subst.
    + exfalso. exact (sweep_done_stuck _ _ Hd2 Hstep).
    + assert (cm = cm') by (eapply sweep_step_deterministic; eassumption).
      subst cm'. apply IH; assumption.
Qed.

Lemma sweep_step_consumed c c' :
  sweep_step A B w d c c' -> sweep_consumed c -> sweep_consumed c'.
Proof.
  intros Hstep (Hlt & Hn1 & Hn2).
  inversion Hstep; subst; unfold sweep_consumed in *; simpl in *.
  - split; [|split; assumption].
    eapply Forall_impl; [exact Hlt|]. simpl. intros p [? ?]. lia.
  - split; [|split; assumption].
    eapply Forall_impl; [exact Hlt|]. simpl. intros p [? ?]. lia.
  - split; [|split].
    + apply Forall_app. split.
      * eapply Forall_impl; [exact Hlt|]. simpl. intros p [? ?]. lia.
      * apply Forall_singleton. simpl. lia.
    + rewrite fmap_app. simpl. apply NoDup_app. split; [assumption|].
      split; [|apply NoDup_singleton].
      intros x Hx Hx'. apply list_elem_of_singleton in Hx'. subst x.
      apply list_elem_of_fmap in Hx as (p & Hp & Hin).
      rewrite Forall_forall in Hlt. apply Hlt in Hin. lia.
    + rewrite fmap_app. simpl. apply NoDup_app. split; [assumption|].
      split; [|apply NoDup_singleton].
      intros x Hx Hx'. apply list_elem_of_singleton in Hx'. subst x.
      apply list_elem_of_fmap in Hx as (p & Hp & Hin).
      rewrite Forall_forall in Hlt. apply Hlt in Hin. lia.
Qed.

Lemma sweep_run_consumed c c' :
  rtc (sweep_step A B w d) c c' -> sweep_consumed c -> sweep_consumed c'.
Proof.
  induction 1 as [|c cm c' Hstep _ IH]; [tauto|].
  intros Hc. apply IH. eapply sweep_step_consumed; eassumption.
Qed.
End PairSweep.

(** C5.  [countCoincidencesWithDelay] returns the number of matches of the
    consuming two-pointer sweep of the specification: the sweep started at
    [i = j = 0] reaches a final configuration, that configuration is the
    only one it can reach, and the returned count is the number of its
    matches.  No index of either view occurs in two matches, and the count
    is 0 when a view is empty.  The picosecond values are taken in the
    range where [long long] arithmetic is exact, and the shorter view has
    fewer than 2^31 events so that the [int] counter is exact. *)
Theorem countCoincidencesWithDelay_consuming_sweep (A B : list Z) (w d : Z) :
  Forall picoseconds A -> Forall picoseconds B -> picoseconds d ->
  0 < w < 2 ^ 63 ->
  Z.of_nat (Nat.min (length A) (length B)) < 2 ^ 31 ->
  (exists c,
      rtc (sweep_step A B w d) sweep_start c
      /\ sweep_done A B c
      /\ (forall c', rtc (sweep_step A B w d) sweep_start c' ->
                     sweep_done A B c' -> c' = c)
      /\ countCoincidencesWithDelay A B w d
         = Z.of_nat (length (sweep_matches c))
      /\ NoDup (sweep_matches c).*1
      /\ NoDup (sweep_matches c).*2)
  /\ (A = [] \/ B = [] -> countCoincidencesWithDelay A B w d = 0).
Proof.
  intros HA HB Hd Hw Hsize. split.
  - destruct (pairSweep_runs A B w d HA HB Hd (length A + length B)
                0%nat 0%nat []) as (c & Hrun & Hdone & Heq);
      [lia | simpl; lia | exact Hsize |].
    exists c. split; [exact Hrun|]. split; [exact Hdone|].
    split; [|split].
    + intros c' Hrun' Hdone'.
      eapply sweep_final_unique; try eassumption.
    + unfold countCoincidencesWithDelay.
      rewrite (lower_bound_exact w Hw). exact Heq.
    + assert (Hc : sweep_consumed c).
      { eapply sweep_run_consumed; try eassumption.
        unfold sweep_consumed, sweep_start. simpl.
        split; [constructor|]. split; constructor. }
      destruct Hc as (_ & Hn1 & Hn2). split; assumption.
  - intros [->| ->]; unfold countCoincidencesWithDelay.
    + destruct (length [] + length B)%nat; reflexivity.
    + destruct (length A + length [])%nat; [reflexivity|].
      simpl. destruct (A !! 0%nat); reflexivity.
Qed.

Lemma countCoincidencesWithDelay_consuming_sweep_witness :
  (exists c,
      rtc (sweep_step [0; 1000; 2000] [50; 1050; 5000] 100 0) sweep_start c
      /\ sweep_done [0; 1000; 2000] [50; 1050; 5000] c
      /\ (forall c',
            rtc (sweep_step [0; 1000; 2000] [50; 1050; 5000] 100 0)
                sweep_start c' ->
            sweep_done [0; 1000; 2000] [50; 1050; 5000] c' -> c' = c)
      /\ countCoincidencesWithDelay [0; 1000; 2000] [50; 1050; 5000] 100 0
         = Z.of_nat (length (sweep_matches c))
      /\ NoDup (sweep_matches c).*1
      /\ NoDup (sweep_matches c).*2)
  /\ ([0; 1000; 2000] = [] \/ [50; 1050; 5000] = [] ->
      countCoincidencesWithDelay [0; 1000; 2000] [50; 1050; 5000] 100 0 = 0).
Proof.
  apply countCoincidencesWithDelay_consuming_sweep;
    first [ unfold picoseconds; lia
          | repeat constructor; unfold picoseconds; lia
          | simpl; lia ].
Defined.

(** ** The sort of the merged stream *)

Lemma insertTagged_Permutation (x : Tagged) (l : list Tagged) :
  insertTagged x l ≡ₚ x :: l.
Proof.
  induction l as [|y l IH]; [reflexivity|]. cbn [insertTagged].
  destruct (timestamp y <? timestamp x); [|reflexivity].
  rewrite IH. apply Permutation_swap.
Qed.

Lemma stableSortTagged_Permutation (l : list Tagged) : stableSortTagged l ≡ₚ l.
Proof.
  unfold stableSortTagged. induction l as [|x l IH]; [reflexivity|].
  cbn [foldr]. rewrite insertTagged_Permutation, IH. reflexivity.
Qed.

Lemma timestampLe_trans (a b c : Tagged) :
  timestampLe a b -> timestampLe b c -> timestampLe a c.
Proof. unfold timestampLe. lia. Qed.

Lemma insertTagged_StronglySorted (x : Tagged) (l : list Tagged) :
  StronglySorted timestampLe l -> StronglySorted timestampLe (insertTagged x l).
Proof.
  induction 1 as [|y l Hl IH Hy]; cbn [insertTagged].
  - repeat constructor.
  - destruct (Z.ltb_spec (timestamp y) (timestamp x)) as [Hlt|Hge].
    + constructor; [exact IH|].
      rewrite insertTagged_Permutation. constructor; [|exact Hy].
      unfold timestampLe. lia.
    + constructor; [constructor; assumption|].
      constructor; [exact Hge|].
      eapply Forall_impl; [exact Hy|]. intros z Hz.
      unfold timestampLe in *. lia.
Qed.

(** The insertion sort meets the contract of [std::sort]. *)
Lemma stableSortTagged_stdSort : stdSort stableSortTagged.
Proof.
  intros l. split; [apply stableSortTagged_Permutation|].
  apply StronglySorted_Sorted. unfold stableSortTagged.
  induction l as [|x l IH]; [constructor|].
  cbn [foldr]. apply insertTagged_StronglySorted. exact IH.
Qed.

Lemma timestamp_inj (l : list Tagged) (x y : Tagged) :
  NoDup (timestamp <$> l) -> x ∈ l -> y ∈ l ->
  timestamp x = timestamp y -> x = y.
Proof.
  induction l as [|z l IH]; intros Hnd Hx Hy Heq; [inversion Hx|].
  rewrite fmap_cons in Hnd. apply NoDup_cons in Hnd as [Hz Hnd].
  apply elem_of_cons in Hx as [->|Hx]; apply elem_of_cons in Hy as [->|Hy].
  - reflexivity.
  - exfalso. apply Hz. rewrite Heq. apply list_elem_of_fmap. eauto.
  - exfalso. apply Hz. rewrite <- Heq. apply list_elem_of_fmap. eauto.
  - apply IH; assumption.
Qed.

(** When no two events have the same timestamp the sorted order is
    unique, so every sort that meets the contract returns it. *)
Lemma sorted_Permutation_unique (l1 : list Tagged) :
  forall l2,
  l1 ≡ₚ l2 -> NoDup (timestamp <$> l1) ->
  StronglySorted timestampLe l1 -> StronglySorted timestampLe l2 ->
  l1 = l2.
Proof.
  induction l1 as [|x l1 IH]; intros l2 Hperm Hnd Hs1 Hs2.
  - apply Permutation_nil_l in Hperm. congruence.
  - destruct l2 as [|y l2]; [apply Permutation_nil_r in Hperm; discriminate|].
    apply StronglySorted_inv in Hs1 as [Hs1 Hx].
    apply StronglySorted_inv in Hs2 as [Hs2 Hy].
    rewrite Forall_forall in Hx, Hy.
    assert (Hyin : y ∈ x :: l1) by (rewrite Hperm; left).
    assert (Hxin : x ∈ y :: l2) by (rewrite <- Hperm; left).
    assert (Hxy : timestamp x <= timestamp y).
    { apply elem_of_cons in Hyin as [->|Hyin]; [lia|]. apply (Hx y Hyin). }
    assert (Hyx : timestamp y <= timestamp x).
    { apply elem_of_cons in Hxin as [->|Hxin]; [lia|]. apply (Hy x Hxin). }
    assert (x = y).
    { apply (timestamp_inj (x :: l1)); [exact Hnd|left|exact Hyin|lia]. }
    subst y. f_equal. apply IH; [|  |exact Hs1|exact Hs2].
    + eapply Permutation_cons_inv. exact Hperm.
    + rewrite fmap_cons in Hnd. apply NoDup_cons in Hnd as [_ Hnd]. exact Hnd.
Qed.

Lemma stdSort_unique (sort : list Tagged -> list Tagged) (l : list Tagged) :
  stdSort sort -> NoDup (timestamp <$> l) -> sort l = stableSortTagged l.
Proof.
  intros Hsort Hnd.
  destruct (Hsort l) as [Hp Hs].
  destruct (stableSortTagged_stdSort l) as [Hp' Hs'].
  apply sorted_Permutation_unique.
  - rewrite Hp, Hp'. reflexivity.
  - rewrite Hp. exact Hnd.
  - apply Sorted_StronglySorted; [|exact Hs].
    intros a b c. apply timestampLe_trans.
  - apply Sorted_StronglySorted; [|exact Hs'].
    intros a b c. apply timestampLe_trans.
Qed.

(** ** N-fold counting with two channels *)

(** What holds of C2: with two channels and no offsets argument,
    [countNFoldCoincidences] is [countCoincidencesWithDelay] at delay 0,
    whatever the sort. *)
Lemma countNFold_two_channels_no_offsets
    (sort : list Tagged -> list Tagged) (c1 c2 : list Z) (w : Z) :
  countNFoldCoincidences sort [c1; c2] w []
  = Returned (countCoincidencesWithDelay c1 c2 w 0).
Proof. reflexivity. Qed.

(** C2.  With the offsets given explicitly as two zeros the two-channel
    call is not the pair counter: the shortcut is guarded by
    [offsetsPs.empty()], so the general sweep runs, and it lets the event
    at 5 ps of the second channel pair with both events of the first one.
    The three timestamps differ, so the result is the same for every sort
    that meets the contract of [std::sort]: the call returns 2 where the
    pair counter, and the same call without offsets, return 1. *)
Theorem countNFold_zero_offsets_differs (sort : list Tagged -> list Tagged) :
  stdSort sort ->
  countNFoldCoincidences sort [[0; 10]; [5]] 10 [0; 0] = Returned 2
  /\ countCoincidencesWithDelay [0; 10] [5] 10 0 = 1
  /\ countNFoldCoincidences sort [[0; 10]; [5]] 10 [] = Returned 1.
Proof.
  intros Hsort. split; [|split; vm_compute; reflexivity].
  unfold countNFoldCoincidences.
  cbn [length Nat.ltb Nat.leb negb andb Nat.eqb].
  rewrite bool_decide_false by discriminate. cbn [negb andb].
  change (totalEvents [[0; 10]; [5]] =? 0) with false. cbv iota.
  rewrite (stdSort_unique sort _ Hsort).
  - vm_compute. reflexivity.
  - cbn [mergeChannels map app fmap list_fmap timestamp].
    repeat (apply NoDup_cons; split;
            [rewrite ?elem_of_cons, elem_of_nil; unfold ll_add; vm_compute;
             intuition discriminate|]).
    apply NoDup_nil_2.
Qed.

Lemma countNFold_zero_offsets_differs_witness :
  countNFoldCoincidences stableSortTagged [[0; 10]; [5]] 10 [0; 0] = Returned 2
  /\ countCoincidencesWithDelay [0; 10] [5] 10 0 = 1
  /\ countNFoldCoincidences stableSortTagged [[0; 10]; [5]] 10 [] = Returned 1.
Proof.
  apply (countNFold_zero_offsets_differs stableSortTagged).
  exact stableSortTagged_stdSort.
Defined.

(** ** The general N-fold sweep with an empty channel *)

Lemma count_pos_nonneg f : 0 <= count_pos f.
Proof. induction f as [|x f IH]; simpl; [lia|]. destruct (1 <=? x); lia. Qed.

Lemma count_pos_replicate n : count_pos (replicate n 0) = 0.
Proof. induction n as [|n IH]; simpl; [reflexivity|exact IH]. Qed.

Lemma count_pos_insert f : forall i x v,
  f !! i = Some x ->
  count_pos (<[i:=v]> f)
  = count_pos f - (if 1 <=? x then 1 else 0) + (if 1 <=? v then 1 else 0).
Proof.
  induction f as [|y f IH]; intros [|i] x v Hx; simpl in *; try discriminate.
  - injection Hx as ->. lia.
  - rewrite (IH i x v Hx). lia.
Qed.

Lemma count_pos_missing f : forall e x,
  f !! e = Some x -> x <= 0 -> count_pos f < Z.of_nat (length f).
Proof.
  induction f as [|y f IH]; intros [|e] x Hx Hle; simpl in *; try discriminate.
  - injection Hx as ->.
    destruct (Z.leb_spec 1 x); [lia|].
    assert (count_pos f <= Z.of_nat (length f)); [|lia].
    clear. induction f as [|z f IH]; simpl; [lia|]. destruct (1 <=? z); lia.
  - specialize (IH e x Hx Hle). destruct (1 <=? y); lia.
Qed.

(** The fuel given to the inner loop suffices: the state it returns
    falsifies the guard of the [while]. *)
Lemma shrinkWindow_exits merged w right fuel : forall st,
  (right - left st <= fuel)%nat ->
  (ll_sub (timestamp (merged !!! right))
          (timestamp (merged !!! left (shrinkWindow fuel merged w right st)))
     >? w)
  && (left (shrinkWindow fuel merged w right st) <? right)%nat = false.
Proof.
  induction fuel as [|fuel IH]; intros st Hfuel; simpl.
  - destruct (Nat.ltb_spec (left st) right); [lia|]. apply andb_false_r.
  - destruct ((_ >? w) && (left st <? right)%nat) eqn:Hguard.
    + apply IH. simpl. lia.
    + exact Hguard.
Qed.

Section NFoldSweep.
Variables (K e : nat) (merged : list Tagged) (w : Z).
Hypothesis merged_ok : Forall (tagged_ok K e) merged.
Hypothesis merged_small : Z.of_nat (length merged) < 2 ^ 31.

Lemma merged_lookup i :
  (i < length merged)%nat ->
  (channelIdx (merged !!! i) < K)%nat /\ channelIdx (merged !!! i) <> e.
Proof.
  intros Hi. destruct (lookup_lt_is_Some_2 merged i Hi) as [t Ht].
  rewrite (list_lookup_total_correct _ _ _ Ht).
  exact (Forall_lookup_1 _ _ _ _ merged_ok Ht).
Qed.

Lemma dropLeft_inv lb ib st :
  (S lb <= length merged)%nat -> (ib <= length merged)%nat ->
  (left st < lb)%nat ->
  sweep_inv K e lb ib st -> sweep_inv K e lb ib (dropLeft merged st).
Proof.
  intros Hlb Hib Hleft (Hlen & _ & Hrange & (xe & Hxe & Hxe0) & Hhave & Hle & Hco).
  destruct (merged_lookup (left st)) as [HlK Hle']; [lia|].
  set (lidx := channelIdx (merged !!! left st)) in *.
  destruct (lookup_lt_is_Some_2 (freq st) lidx) as [x Hx]; [lia|].
  pose proof (Forall_lookup_1 _ _ _ _ Hrange Hx) as Hxr. simpl in Hxr.
  unfold dropLeft. fold lidx.
  rewrite (list_lookup_total_correct _ _ _ Hx).
  rewrite (wrap_int_small (x - 1)) by lia.
  unfold sweep_inv. simpl.
  pose proof (count_pos_insert (freq st) lidx x (x - 1) Hx) as Hcp.
  pose proof (count_pos_nonneg (<[lidx:=x - 1]> (freq st))) as Hnn.
  split; [rewrite length_insert; exact Hlen|].
  split; [lia|].
  split.
  { apply Forall_insert; [|lia].
    eapply Forall_impl; [exact Hrange|]. simpl. intros; lia. }
  split.
  { exists xe. split; [|exact Hxe0].
    rewrite list_lookup_insert_ne by auto. exact Hxe. }
  destruct (Z.eqb_spec (x - 1) 0) as [Hz|Hz].
  - destruct (Z.leb_spec 1 x); [|lia].
    destruct (Z.leb_spec 1 (x - 1)); [lia|].
    rewrite wrap_size_small by lia. repeat split; lia.
  - destruct (Z.leb_spec 1 x); destruct (Z.leb_spec 1 (x - 1));
      repeat split; lia.
Qed.

Lemma shrinkWindow_inv right ib fuel : forall st,
  (S right <= length merged)%nat -> (ib <= length merged)%nat ->
  sweep_inv K e right ib st ->
  sweep_inv K e right ib (shrinkWindow fuel merged w right st).
Proof.
  induction fuel as [|fuel IH]; intros st Hr Hib Hinv; simpl; [exact Hinv|].
  destruct (_ >? w); simpl; [|exact Hinv].
  destruct (Nat.ltb_spec (left st) right) as [Hlt|Hge]; [|exact Hinv].
  apply IH; [assumption..|].
  apply dropLeft_inv; assumption.
Qed.

Lemma sweepStep_inv right st :
  (right < length merged)%nat ->
  sweep_inv K e right right st ->
  sweep_inv K e (S right) (S right)
    (sweepStep (Z.of_nat K) merged w st right).
Proof.
  intros Hr (Hlen & Hleft & Hrange & (xe & Hxe & Hxe0) & Hhave & Hle & Hco).
  destruct (merged_lookup right Hr) as [HiK Hie].
  unfold sweepStep.
  set (idx := channelIdx (merged !!! right)) in *.
  destruct (lookup_lt_is_Some_2 (freq st) idx) as [x Hx]; [lia|].
  pose proof (Forall_lookup_1 _ _ _ _ Hrange Hx) as Hxr. simpl in Hxr.
  rewrite (list_lookup_total_correct _ _ _ Hx).
  rewrite (wrap_int_small (x + 1)) by lia.
  match goal with
  | |- context [shrinkWindow ?f merged w right ?s] =>
      assert (Hinv1 : sweep_inv K e right (S right) s);
      [|pose proof (shrinkWindow_inv right (S right) f s
                      ltac:(lia) ltac:(lia) Hinv1) as Hinv2;
        set (st2 := shrinkWindow f merged w right s) in *]
  end.
  { unfold sweep_inv. simpl.
    pose proof (count_pos_insert (freq st) idx x (x + 1) Hx) as Hcp.
    pose proof (count_pos_nonneg (freq st)) as Hnn.
    split; [rewrite length_insert; exact Hlen|].
    split; [exact Hleft|].
    split.
    { apply Forall_insert; [|lia].
      eapply Forall_impl; [exact Hrange|]. simpl. intros; lia. }
    split.
    { exists xe. split; [|exact Hxe0].
      rewrite list_lookup_insert_ne by auto. exact Hxe. }
    destruct (Z.eqb_spec (x + 1) 1) as [Hz|Hz].
    - destruct (Z.leb_spec 1 x); [lia|].
      destruct (Z.leb_spec 1 (x + 1)); [|lia].
      rewrite wrap_size_small by lia. repeat split; lia.
    - destruct (Z.leb_spec 1 x); destruct (Z.leb_spec 1 (x + 1));
        repeat split; lia. }
  destruct Hinv2 as (Hlen2 & Hleft2 & Hrange2 & (xe2 & Hxe2 & Hxe20) & Hhave2 & Hle2 & Hco2).
  pose proof (count_pos_missing _ _ _ Hxe2 Hxe20) as Hmiss.
  destruct (Z.eqb_spec (have st2) (Z.of_nat K)) as [Heq|Hne]; [lia|].
  unfold sweep_inv.
  split; [exact Hlen2|]. split; [lia|].
  split; [exact Hrange2|]. split; [eauto|].
  repeat split; assumption.
Qed.

Lemma sweep_loop_inv len : forall start st,
  (start + len <= length merged)%nat ->
  sweep_inv K e start start st ->
  sweep_inv K e (start + len) (start + len)
    (foldl (sweepStep (Z.of_nat K) merged w) st (seq start len)).
Proof.
  induction len as [|len IH]; intros start st Hlen Hinv; simpl.
  - rewrite Nat.add_0_r. exact Hinv.
  - replace (start + S len)%nat with (S start + len)%nat by lia.
    apply IH; [lia|]. apply sweepStep_inv; [lia|exact Hinv].
Qed.

(** After any number of iterations the counter of distinct channels is
    below the number of channels, and no coincidence has been recorded. *)
Lemma sweepAfter_have_below n :
  (e < K)%nat -> (n <= length merged)%nat ->
  have (sweepAfter K merged w n) < Z.of_nat K
  /\ coincidences (sweepAfter K merged w n) = 0.
Proof.
  intros HeK Hn. unfold sweepAfter.
  pose proof (sweep_loop_inv n 0
    {| freq := replicate K 0; have := 0; left := 0%nat; coincidences := 0 |})
    as H.
  destruct H as (Hlen & _ & _ & (x & Hx & Hx0) & Hhave & _ & Hco); [lia| |].
  - unfold sweep_inv. simpl.
    split; [apply length_replicate|]. split; [lia|].
    split; [apply Forall_replicate; lia|].
    split; [exists 0; split; [apply lookup_replicate_2; exact HeK|lia]|].
    rewrite count_pos_replicate. repeat split; lia.
  - split; [|exact Hco].
    pose proof (count_pos_missing _ _ _ Hx Hx0). lia.
Qed.
End NFoldSweep.

(** What the sweep needs of the sort: the events and their number. *)
Lemma stdSort_Forall (sort : list Tagged -> list Tagged) (P : Tagged -> Prop) l :
  stdSort sort -> Forall P l -> Forall P (sort l).
Proof. intros Hsort Hl. rewrite (proj1 (Hsort l)). exact Hl. Qed.

Lemma length_stdSort (sort : list Tagged -> list Tagged) l :
  stdSort sort -> length (sort l) = length l.
Proof. intros Hsort. apply Permutation_length, (proj1 (Hsort l)). Qed.

Lemma length_mergeChannels channels offsetsPs : forall idx,
  length (mergeChannels channels offsetsPs idx) = length (concat channels).
Proof.
  induction channels as [|ch rest IH]; intros idx; simpl; [reflexivity|].
  rewrite !length_app, length_map, IH. reflexivity.
Qed.

Lemma mergeChannels_ok channels offsetsPs : forall idx e,
  channels !! e = Some [] ->
  Forall (tagged_ok (idx + length channels) (idx + e))
         (mergeChannels channels offsetsPs idx).
Proof.
  induction channels as [|ch rest IH]; intros idx e He; simpl;
    [constructor|].
  apply Forall_app. split.
  - destruct e as [|e]; simpl in He.
    + injection He as ->. constructor.
    + apply Forall_forall. intros t Ht.
      apply list_elem_of_fmap in Ht as (ts & -> & _).
      unfold tagged_ok. simpl. lia.
  - destruct e as [|e]; simpl in He.
    + injection He as ->.
      clear IH. revert idx.
      assert (Hgen : forall base idx, (base < idx)%nat ->
        Forall (tagged_ok (idx + length rest) base)
               (mergeChannels rest offsetsPs idx)).
      { induction rest as [|c rest IH]; intros base idx Hlt; simpl;
          [constructor|].
        apply Forall_app. split.
        - apply Forall_forall. intros t Ht.
          apply list_elem_of_fmap in Ht as (ts & -> & _).
          unfold tagged_ok. simpl. lia.
        - replace (idx + S (length rest))%nat
            with (S idx + length rest)%nat by lia.
          apply IH. lia. }
      intros idx.
      replace (idx + S (length rest))%nat
        with (S idx + length rest)%nat by lia.
      rewrite Nat.add_0_r. apply Hgen. lia.
    + replace (idx + S (length rest))%nat
        with (S idx + length rest)%nat by lia.
      replace (idx + S e)%nat with (S idx + e)%nat by lia.
      apply IH. exact He.
Qed.

(** C10.  On the general path (three or more channels, or two channels
    with offsets supplied) a call that does not throw returns 0 whenever
    some channel view is empty: after every iteration of the sweep the
    counter of distinct channels present is below the number of channels.
    This holds for every sort that meets the contract of [std::sort], in
    whatever order it leaves events with equal timestamps.  The events
    number fewer than 2^31, so that the [int] frequencies are exact. *)
Theorem countNFold_empty_channel
    (sort : list Tagged -> list Tagged)
    (channels : list (list Z)) (w : Z) (offsetsPs : list Z) (e : nat) :
  stdSort sort ->
  (3 <= length channels)%nat \/ offsetsPs <> [] ->
  (2 <= length channels)%nat ->
  offsetsPs = [] \/ length offsetsPs = length channels ->
  channels !! e = Some [] ->
  Z.of_nat (length (concat channels)) < 2 ^ 31 ->
  countNFoldCoincidences sort channels w offsetsPs = Returned 0
  /\ forall n, (n <= length (concat channels))%nat ->
       have (sweepAfter (length channels)
               (sort (mergeChannels channels offsetsPs 0)) w n)
       < Z.of_nat (length channels).
Proof.
  intros Hsort Hgeneral Hlen Hoffs He Hsmall.
  assert (Hsweep : forall n, (n <= length (concat channels))%nat ->
    have (sweepAfter (length channels)
            (sort (mergeChannels channels offsetsPs 0)) w n)
    < Z.of_nat (length channels)
    /\ coincidences (sweepAfter (length channels)
         (sort (mergeChannels channels offsetsPs 0)) w n) = 0).
  { intros n Hn. apply (sweepAfter_have_below (length channels) e).
    - apply (stdSort_Forall sort _ _ Hsort).
      exact (mergeChannels_ok channels offsetsPs 0 e He).
    - rewrite (length_stdSort sort _ Hsort), length_mergeChannels.
      exact Hsmall.
    - apply lookup_lt_Some in He. exact He.
    - rewrite (length_stdSort sort _ Hsort), length_mergeChannels. exact Hn. }
  split; [|intros n Hn; apply (Hsweep n Hn)].
  assert (Hzero : coincidences (nfoldSweep (length channels)
            (sort (mergeChannels channels offsetsPs 0)) w) = 0).
  { unfold nfoldSweep. apply Hsweep.
    rewrite (length_stdSort sort _ Hsort), length_mergeChannels. lia. }
  unfold countNFoldCoincidences.
  destruct (Nat.ltb_spec (length channels) 2) as [|_]; [lia|].
  assert (Hguard : negb (bool_decide (offsetsPs = []))
                   && negb (length offsetsPs =? length channels)%nat = false).
  { destruct Hoffs as [->|Heq].
    - reflexivity.
    - rewrite (proj2 (Nat.eqb_eq _ _) Heq). apply andb_false_r. }
  rewrite Hguard.
  destruct channels as [|c0 [|c1 [|c2 rest]]]; simpl in Hlen; try lia.
  - destruct offsetsPs as [|o offs].
    + destruct Hgeneral as [H|H]; [simpl in H; lia|congruence].
    + destruct (totalEvents _ =? 0); [reflexivity|].
      rewrite Hzero. reflexivity.
  - destruct (totalEvents _ =? 0); [reflexivity|].
    rewrite Hzero. reflexivity.
Qed.

Lemma countNFold_empty_channel_witness :
  countNFoldCoincidences stableSortTagged [[0; 10000]; []; [35; 10035]] 100 []
  = Returned 0
  /\ forall n, (n <= length (concat [[0; 10000]; []; [35; 10035]]%Z))%nat ->
       have (sweepAfter (length [[0; 10000]; []; [35; 10035]])
               (stableSortTagged
                  (mergeChannels [[0; 10000]; []; [35; 10035]] [] 0)) 100 n)
       < Z.of_nat (length [[0; 10000]; []; [35; 10035]]).
Proof.
  apply (countNFold_empty_channel stableSortTagged
           [[0; 10000]; []; [35; 10035]] 100 [] 1).
  - exact stableSortTagged_stdSort.
  - left. simpl. lia.
  - simpl. lia.
  - left. reflexivity.
  - reflexivity.
  - simpl. lia.
Defined.

(** ** Error handling of the delay scan and of the N-fold counter *)

Lemma buildConfig_throws delayStartPs delayEndPs delayStepPs :
  threw (buildConfig delayStartPs delayEndPs delayStepPs) = true
  <-> delayStepPs <= 0.
Proof.
  unfold buildConfig.
  destruct (Z.leb_spec delayStepPs 0) as [H|H]; simpl.
  - tauto.
  - destruct (delayEndPs <? delayStartPs); simpl; split; intros; [discriminate|lia|discriminate|lia].
Qed.

Lemma computeCoincidencesForRange_outcome ch1 ch2 w s e st results :
  threw (snd (computeCoincidencesForRange ch1 ch2 w s e st results))
  = threw (buildConfig s e st).
Proof.
  unfold computeCoincidencesForRange.
  destruct (buildConfig s e st) as [config|what]; simpl; [|reflexivity].
  destruct (steps config =? 0); [reflexivity|].
  destruct (bool_decide (ch1 = []) || bool_decide (ch2 = [])); reflexivity.
Qed.

(** C7.  The delay scan throws [std::invalid_argument] exactly when the
    step is not positive; with a positive step and [end < start] it
    returns an empty result without error; [countNFoldCoincidences]
    throws exactly when fewer than two channels are given or a non-empty
    offsets list has a length other than the number of channels, whatever
    the sort does. *)
Theorem invalid_input_exactly
    (ch1 ch2 : list Z) (w delayStartPs delayEndPs delayStepPs : Z)
    (results : ScanResult) (sort : list Tagged -> list Tagged)
    (channels : list (list Z)) (offsetsPs : list Z) :
  (threw (snd (computeCoincidencesForRange ch1 ch2 w
                 delayStartPs delayEndPs delayStepPs results)) = true
   <-> delayStepPs <= 0)
  /\ (0 < delayStepPs -> delayEndPs < delayStartPs ->
      computeCoincidencesForRange ch1 ch2 w
        delayStartPs delayEndPs delayStepPs results = ([], Returned tt))
  /\ (threw (countNFoldCoincidences sort channels w offsetsPs) = true
      <-> (length channels < 2)%nat
          \/ (offsetsPs <> [] /\ length offsetsPs <> length channels)).
Proof.
  split; [|split].
  - rewrite computeCoincidencesForRange_outcome. apply buildConfig_throws.
  - intros Hstep Hend. unfold computeCoincidencesForRange, buildConfig.
    destruct (Z.leb_spec delayStepPs 0); [lia|].
    destruct (Z.ltb_spec delayEndPs delayStartPs); [|lia].
    reflexivity.
  - unfold countNFoldCoincidences.
    destruct (Nat.ltb_spec (length channels) 2) as [Hlen|Hlen]; simpl.
    { split; [intros _; left; exact Hlen | reflexivity]. }
    destruct (decide (offsetsPs = [])) as [Hoff|Hoff].
    + rewrite bool_decide_true by exact Hoff. simpl. subst offsetsPs.
      split.
      * destruct channels as [|c0 [|c1 [|c2 rest]]]; simpl;
          try discriminate;
          destruct (totalEvents _ =? 0); discriminate.
      * intros [H|[H _]]; [lia|congruence].
    + rewrite bool_decide_false by exact Hoff. simpl.
      destruct (Nat.eqb_spec (length offsetsPs) (length channels)) as [Heq|Hne];
        simpl.
      * split.
        -- destruct channels as [|c0 [|c1 [|c2 rest]]], offsetsPs as [|o offs];
             simpl; try discriminate; try congruence;
             destruct (totalEvents _ =? 0); discriminate.
        -- intros [H|[_ H]]; [lia|congruence].
      * split; [intros _; right; split; assumption | reflexivity].
Qed.

Lemma invalid_input_exactly_witness :
  computeCoincidencesForRange [0] [50] 100 200 (-200) 50
    [(S754_zero false, 7)] = ([], Returned tt).
Proof.
  apply (proj1 (proj2 (invalid_input_exactly [0] [50] 100 200 (-200) 50
                         [(S754_zero false, 7)] stableSortTagged [] [])));
    lia.
Defined.

(** C9.  When the step is rejected, the caller's results vector has already
    been cleared: the call throws and leaves the vector empty, whatever it
    held before. *)
Theorem results_cleared_before_throw
    (ch1 ch2 : list Z) (w delayStartPs delayEndPs delayStepPs : Z)
    (results : ScanResult) :
  delayStepPs <= 0 ->
  computeCoincidencesForRange ch1 ch2 w delayStartPs delayEndPs delayStepPs
    results
  = ([], InvalidArgument "delayStep must be positive in ps").
Proof.
  intros Hstep. unfold computeCoincidencesForRange, buildConfig.
  destruct (Z.leb_spec delayStepPs 0); [reflexivity|lia].
Qed.

Lemma results_cleared_before_throw_witness :
  computeCoincidencesForRange [0; 1000] [50] 100 (-200) 200 0
    [(S754_zero false, 3); (S754_zero false, 4)]
  = ([], InvalidArgument "delayStep must be positive in ps").
Proof. apply results_cleared_before_throw. lia. Defined.

(** ** The delay histogram *)

(** *** Sums *)

Lemma sumZ_app {X} (f : X -> Z) l1 l2 :
  sumZ f (l1 ++ l2) = sumZ f l1 + sumZ f l2.
Proof. induction l1 as [|x l1 IH]; simpl; [reflexivity|]. rewrite IH. lia. Qed.

Lemma sumZ_zero {X} (f : X -> Z) l :
  Forall (fun x => f x = 0) l -> sumZ f l = 0.
Proof. induction 1 as [|x l Hx _ IH]; simpl; [reflexivity|]. lia. Qed.

Lemma sumZ_bounds {X} (f : X -> Z) l :
  (forall x, 0 <= f x <= 1) -> 0 <= sumZ f l <= Z.of_nat (length l).
Proof.
  intros Hf. induction l as [|x l IH]; simpl; [lia|].
  specialize (Hf x). lia.
Qed.

Lemma crossCount_bounds A B w d :
  0 <= crossCount A B w d <= Z.of_nat (length A) * Z.of_nat (length B).
Proof.
  unfold crossCount. induction A as [|a A IH]; simpl; [lia|].
  pose proof (sumZ_bounds (fun b => hit w d a b) B) as Hrow.
  assert (forall x, 0 <= hit w d a x <= 1) as Hh.
  { intros x. unfold hit. destruct (in_window w d a x); lia. }
  specialize (Hrow Hh). nia.
Qed.


Lemma crossCount_nil_r A w d : crossCount A [] w d = 0.
Proof. unfold crossCount. induction A as [|a A IH]; simpl; [reflexivity|exact IH]. Qed.

(** *** Prefix sums of the difference array *)

Lemma psum_replicate n m : psum (replicate n 0) m = 0.
Proof.
  revert m. induction n as [|n IH]; intros [|m]; simpl; try reflexivity.
  apply IH.
Qed.

Lemma psum_S diff : forall m x,
  diff !! m = Some x -> psum diff (S m) = psum diff m + x.
Proof.
  induction diff as [|y diff IH]; intros [|m] x Hx; simpl in *;
    try discriminate.
  - injection Hx as ->. destruct diff; simpl; lia.
  - rewrite (IH m x Hx). lia.
Qed.

Lemma psum_alter (f : Z -> Z) diff : forall a m x,
  diff !! a = Some x ->
  psum (alter f a diff) m
  = psum diff m + (if (a <? m)%nat then f x - x else 0).
Proof.
  induction diff as [|y diff IH]; intros [|a] [|m] x Hx; simpl in *;
    try discriminate; try lia.
  - injection Hx as ->. lia.
  - change (list_alter f a diff) with (alter f a diff).
    rewrite (IH a m x Hx).
    destruct (Nat.ltb_spec a m), (Nat.ltb_spec (S a) (S m)); lia.
Qed.

(** *** The two while loops over [channel2] *)

Lemma advanceWhile_spec (p : Z -> bool) ch fuel : forall j,
  (length ch - j <= fuel)%nat -> (j <= length ch)%nat ->
  (j <= advanceWhile p ch fuel j <= length ch)%nat
  /\ Forall (fun b => p b = true)
            (take (advanceWhile p ch fuel j - j) (drop j ch))
  /\ (forall b, ch !! advanceWhile p ch fuel j = Some b -> p b = false).
Proof.
  induction fuel as [|fuel IH]; intros j Hfuel Hj; simpl.
  - split; [lia|]. split.
    + rewrite Nat.sub_diag. constructor.
    + intros b Hb. apply lookup_lt_Some in Hb. lia.
  - destruct (ch !! j) as [b|] eqn:Hjb.
    + destruct (p b) eqn:Hp.
      * pose proof (lookup_lt_Some _ _ _ Hjb) as Hlt.
        destruct (IH (S j)) as (Hr & Hall & Hstop); [lia|lia|].
        split; [lia|]. split; [|exact Hstop].
        rewrite (drop_S _ _ _ Hjb).
        replace (advanceWhile p ch fuel (S j) - j)%nat
          with (S (advanceWhile p ch fuel (S j) - S j))%nat by lia.
        simpl. constructor; assumption.
      * split; [lia|]. split.
        -- rewrite Nat.sub_diag. constructor.
        -- intros b' Hb'. congruence.
    + split; [lia|]. split.
      * rewrite Nat.sub_diag. constructor.
      * intros b' Hb'. congruence.
Qed.

Lemma sorted_drop_ge l :
  StronglySorted Z.le l ->
  forall i x, l !! i = Some x -> Forall (fun y => x <= y) (drop i l).
Proof.
  induction 1 as [|a l Hl IH Ha]; intros [|i] x Hx; simpl in *;
    try discriminate.
  - injection Hx as ->. constructor; [lia|exact Ha].
  - apply IH. exact Hx.
Qed.

Section Histogram.
Variables (w start_ps end_ps step_ps : Z).
Hypothesis w_range : 0 < w <= 2 ^ 61.
Hypothesis start_range : picoseconds start_ps.
Hypothesis end_range : picoseconds end_ps.
Hypothesis step_range : 0 < step_ps <= 2 ^ 61.
Hypothesis grid_nonempty : start_ps <= end_ps.

Local Abbreviation N := (gridPoints start_ps end_ps step_ps).
Local Abbreviation config := (gridConfig start_ps end_ps step_ps).

Lemma gridPoints_range : 1 <= N <= 2 ^ 62 + 1.
Proof.
  unfold gridPoints, picoseconds in *.
  assert (0 <= (end_ps - start_ps) / step_ps) by (apply Z.div_pos; lia).
  assert ((end_ps - start_ps) / step_ps <= end_ps - start_ps).
  { apply Z.div_le_upper_bound; [lia|nia]. }
  lia.
Qed.

Lemma buildConfig_grid :
  buildConfig start_ps end_ps step_ps = Returned config.
Proof.
  pose proof gridPoints_range as HN.
  unfold buildConfig, gridConfig.
  destruct (Z.leb_spec step_ps 0); [lia|].
  destruct (Z.ltb_spec end_ps start_ps); [lia|].
  do 2 f_equal. unfold gridPoints in *. unfold ll_add, ll_div, ll_sub.
  rewrite (wrap_ll_small (end_ps - start_ps))
    by (unfold picoseconds in *; lia).
  rewrite Z.quot_div_nonneg by lia.
  rewrite (wrap_ll_small ((end_ps - start_ps) / step_ps)) by lia.
  rewrite (wrap_ll_small ((end_ps - start_ps) / step_ps + 1)) by lia.
  apply wrap_size_small. lia.
Qed.

(** A point of the grid lies between the start and the end. *)
Lemma gridDelay_range k :
  Z.of_nat k < N ->
  start_ps <= gridDelay start_ps step_ps k <= end_ps.
Proof.
  intros Hk. unfold gridDelay, gridPoints in *.
  assert (Z.of_nat k <= (end_ps - start_ps) / step_ps) as Hle by lia.
  apply floor_div_ge in Hle; [|lia]. nia.
Qed.

Lemma gridDelayPs_exact k :
  Z.of_nat k < N ->
  gridDelayPs config k = gridDelay start_ps step_ps k.
Proof.
  intros Hk. pose proof (gridDelay_range k Hk) as Hr.
  pose proof gridPoints_range as HN.
  unfold gridDelayPs, gridDelay in *. simpl.
  unfold ll_add, ll_mul.
  rewrite (wrap_ll_small (Z.of_nat k)) by lia.
  assert (0 <= Z.of_nat k * step_ps) by nia.
  rewrite (wrap_ll_small (Z.of_nat k * step_ps))
    by (unfold picoseconds in *; lia).
  apply wrap_ll_small. unfold picoseconds in *. lia.
Qed.

(** [addPair] in exact arithmetic. *)
Lemma addPair_exact t1 b diff :
  picoseconds t1 -> picoseconds b ->
  addPair config w t1 diff b =
    let c := t1 - b in
    if (c + w <? start_ps) || (c - w >? end_ps) then diff
    else
      let a := (Z.max (c - w) start_ps - start_ps + step_ps - 1) / step_ps in
      let z := (Z.min (c + w) end_ps - start_ps) / step_ps in
      if (a >? z) || (z >=? N) then diff
      else
        alter (fun x => ll_sub x 1) (Z.to_nat (z + 1))
          (alter (fun x => ll_add x 1) (Z.to_nat a) diff).
Proof.
  intros Ht Hb. unfold addPair, gridConfig.
  cbn [startPs endPs stepPs steps]. cbv zeta.
  assert (E1 : ll_sub t1 b = t1 - b) by unwrap_ll.
  rewrite !E1.
  assert (E2 : ll_sub (t1 - b) w = t1 - b - w) by unwrap_ll.
  assert (E3 : ll_add (t1 - b) w = t1 - b + w) by unwrap_ll.
  rewrite !E2, !E3.
  destruct ((t1 - b + w <? start_ps) || (t1 - b - w >? end_ps)) eqn:Hskip;
    [reflexivity|].
  apply orb_false_iff in Hskip as [Hs1 Hs2].
  apply Z.ltb_ge in Hs1. rewrite Z.gtb_ltb in Hs2. apply Z.ltb_ge in Hs2.
  set (lo := Z.max (t1 - b - w) start_ps).
  set (hi := Z.min (t1 - b + w) end_ps).
  assert (start_ps <= lo <= end_ps) by (unfold lo; lia).
  assert (start_ps <= hi <= end_ps) by (unfold hi; lia).
  assert (E4 : ll_sub lo start_ps = lo - start_ps) by unwrap_ll.
  assert (E5 : ll_sub hi start_ps = hi - start_ps) by unwrap_ll.
  rewrite !E4, !E5.
  set (a := (lo - start_ps + step_ps - 1) / step_ps).
  set (z := (hi - start_ps) / step_ps).
  assert (0 <= a <= lo - start_ps + step_ps - 1) as Ha.
  { split; [apply Z.div_pos; lia|].
    apply Z.div_le_upper_bound; [lia|nia]. }
  assert (0 <= z <= hi - start_ps) as Hz.
  { split; [apply Z.div_pos; lia|].
    apply Z.div_le_upper_bound; [lia|nia]. }
  assert (E6 : ll_div (ll_sub (ll_add (lo - start_ps) step_ps) 1) step_ps = a).
  { unfold ll_div, ll_sub, ll_add.
    rewrite (wrap_ll_small (lo - start_ps + step_ps))
      by (unfold picoseconds in *; lia).
    rewrite (wrap_ll_small (lo - start_ps + step_ps - 1))
      by (unfold picoseconds in *; lia).
    rewrite Z.quot_div_nonneg by lia.
    apply wrap_ll_small. unfold picoseconds in *. fold a. lia. }
  assert (E7 : ll_div (hi - start_ps) step_ps = z).
  { unfold ll_div. rewrite Z.quot_div_nonneg by lia.
    apply wrap_ll_small. unfold picoseconds in *. fold z. lia. }
  rewrite !E6, !E7.
  rewrite !(wrap_size_small a) by (unfold picoseconds in *; lia).
  rewrite !(wrap_size_small z) by (unfold picoseconds in *; lia).
  destruct ((a >? z) || (z >=? N)); [reflexivity|].
  rewrite (wrap_size_small (z + 1)) by (unfold picoseconds in *; lia).
  reflexivity.
Qed.

Lemma addPair_length t1 b diff :
  length (addPair config w t1 diff b) = length diff.
Proof.
  unfold addPair.
  destruct (_ || _); [reflexivity|].
  destruct (_ || _); [reflexivity|].
  rewrite !length_alter. reflexivity.
Qed.

(** A pair is in the window at a grid point exactly when the point lies
    within [w] of the pair's centre [t1 - b]. *)
Lemma hit_grid t1 b k :
  hit w (gridDelay start_ps step_ps k) t1 b
  = if (t1 - b - w <=? gridDelay start_ps step_ps k)
       && (gridDelay start_ps step_ps k <=? t1 - b + w)
    then 1 else 0.
Proof.
  unfold hit, in_window.
  destruct (Z.leb_spec (Z.abs (t1 - gridDelay start_ps step_ps k - b)) w),
    (Z.leb_spec (t1 - b - w) (gridDelay start_ps step_ps k)),
    (Z.leb_spec (gridDelay start_ps step_ps k) (t1 - b + w));
    simpl; lia.
Qed.

(** The effect of one pair on the prefix sums: the count of every grid
    point in the window of the pair grows by one. *)
Lemma addPair_psum t1 b diff k :
  picoseconds t1 -> picoseconds b ->
  Z.of_nat (length diff) = N + 1 ->
  Z.of_nat k < N ->
  eqm64 (psum (addPair config w t1 diff b) (S k))
        (psum diff (S k) + hit w (gridDelay start_ps step_ps k) t1 b).
Proof.
  intros Ht Hb Hlen Hk.
  pose proof (gridDelay_range k Hk) as Hg.
  rewrite addPair_exact by assumption. rewrite hit_grid. cbv zeta.
  set (g := gridDelay start_ps step_ps k) in *.
  destruct ((t1 - b + w <? start_ps) || (t1 - b - w >? end_ps)) eqn:Hskip.
  { apply orb_true_iff in Hskip as [Hs|Hs].
    - apply Z.ltb_lt in Hs.
      destruct (Z.leb_spec g (t1 - b + w)); [lia|].
      rewrite andb_false_r, Z.add_0_r. apply eqm64_refl.
    - rewrite Z.gtb_ltb in Hs. apply Z.ltb_lt in Hs.
      destruct (Z.leb_spec (t1 - b - w) g); [lia|].
      rewrite Z.add_0_r. apply eqm64_refl. }
  apply orb_false_iff in Hskip as [Hs1 Hs2].
  apply Z.ltb_ge in Hs1. rewrite Z.gtb_ltb in Hs2. apply Z.ltb_ge in Hs2.
  set (lo := Z.max (t1 - b - w) start_ps).
  set (hi := Z.min (t1 - b + w) end_ps).
  set (a := (lo - start_ps + step_ps - 1) / step_ps).
  set (z := (hi - start_ps) / step_ps).
  assert (Ha : a <= Z.of_nat k <-> t1 - b - w <= g).
  { unfold a. rewrite ceil_div_le by lia. unfold g, gridDelay, lo in *. lia. }
  assert (Hz : Z.of_nat k <= z <-> g <= t1 - b + w).
  { unfold z. rewrite floor_div_ge by lia. unfold g, gridDelay, hi in *. lia. }
  assert (0 <= a) as Ha0.
  { unfold a. apply Z.div_pos; unfold lo; lia. }
  assert (0 <= z) as Hz0.
  { unfold z. apply Z.div_pos; unfold hi; lia. }
  destruct ((a >? z) || (z >=? N)) eqn:Hidx.
  { apply orb_true_iff in Hidx as [Hi|Hi].
    - rewrite Z.gtb_ltb in Hi. apply Z.ltb_lt in Hi.
      destruct (Z.leb_spec (t1 - b - w) g), (Z.leb_spec g (t1 - b + w));
        simpl; try (rewrite Z.add_0_r; apply eqm64_refl).
      lia.
    - rewrite Z.geb_leb in Hi. apply Z.leb_le in Hi.
      assert (z <= (end_ps - start_ps) / step_ps); [|unfold gridPoints in *; lia].
      unfold z. apply Z.div_le_mono; unfold hi; lia. }
  apply orb_false_iff in Hidx as [Hi1 Hi2].
  rewrite Z.gtb_ltb in Hi1. apply Z.ltb_ge in Hi1.
  rewrite Z.geb_leb in Hi2. apply Z.leb_gt in Hi2.
  destruct (lookup_lt_is_Some_2 diff (Z.to_nat a)) as [x Hx]; [lia|].
  destruct (lookup_lt_is_Some_2
              (alter (fun x => ll_add x 1) (Z.to_nat a) diff)
              (Z.to_nat (z + 1))) as [y Hy];
    [rewrite length_alter; lia|].
  rewrite (psum_alter _ _ _ _ _ Hy), (psum_alter _ _ _ _ _ Hx).
  destruct (wrap_ll_rep (x + 1)) as [q1 Hq1].
  destruct (wrap_ll_rep (y - 1)) as [q2 Hq2].
  unfold ll_add, ll_sub. rewrite Hq1, Hq2.
  destruct (Nat.ltb_spec (Z.to_nat a) (S k)),
    (Nat.ltb_spec (Z.to_nat (z + 1)) (S k)),
    (Z.leb_spec (t1 - b - w) g), (Z.leb_spec g (t1 - b + w));
    cbn [andb]; try lia;
    first [ apply (eqm64_intro _ _ 0); lia
          | apply (eqm64_intro _ _ q1); lia
          | apply (eqm64_intro _ _ (q1 + q2)); lia ].
Qed.

(** The inner loop over a window of [channel2]. *)
Lemma addPairs_psum t1 bs : forall diff k,
  picoseconds t1 -> Forall picoseconds bs ->
  Z.of_nat (length diff) = N + 1 ->
  Z.of_nat k < N ->
  eqm64 (psum (foldl (addPair config w t1) diff bs) (S k))
        (psum diff (S k)
         + sumZ (hit w (gridDelay start_ps step_ps k) t1) bs).
Proof.
  induction bs as [|b bs IH]; intros diff k Ht Hbs Hlen Hk; simpl.
  - rewrite Z.add_0_r. apply eqm64_refl.
  - apply Forall_cons in Hbs as [Hb Hbs].
    eapply eqm64_trans.
    + apply IH; [assumption..| |assumption].
      rewrite addPair_length. exact Hlen.
    + rewrite Z.add_assoc. apply eqm64_add; [|apply eqm64_refl].
      apply addPair_psum; assumption.
Qed.

Lemma addPairs_length t1 bs : forall diff,
  length (foldl (addPair config w t1) diff bs) = length diff.
Proof.
  induction bs as [|b bs IH]; intros diff; simpl; [reflexivity|].
  rewrite IH. apply addPair_length.
Qed.

(** Events of [channel2] outside the window of [t1] are in the window of
    no grid point. *)
Lemma hit_below t1 b k :
  Z.of_nat k < N -> b < t1 - (end_ps + w) ->
  hit w (gridDelay start_ps step_ps k) t1 b = 0.
Proof.
  intros Hk Hb. pose proof (gridDelay_range k Hk) as Hg.
  rewrite hit_grid.
  destruct (Z.leb_spec (t1 - b - w) (gridDelay start_ps step_ps k));
    [lia|reflexivity].
Qed.

Lemma hit_above t1 b k :
  Z.of_nat k < N -> t1 - (start_ps - w) < b ->
  hit w (gridDelay start_ps step_ps k) t1 b = 0.
Proof.
  intros Hk Hb. pose proof (gridDelay_range k Hk) as Hg.
  rewrite hit_grid.
  destruct (Z.leb_spec (gridDelay start_ps step_ps k) (t1 - b + w));
    [lia|]. rewrite andb_false_r. reflexivity.
Qed.

Variable B : list Z.
Hypothesis B_sorted : StronglySorted Z.le B.
Hypothesis B_range : Forall picoseconds B.

(** One iteration of the outer loop adds, at every grid point, the
    number of events of [channel2] that pair with [t1] there. *)
Lemma scanStep_psum st t1 k :
  picoseconds t1 ->
  (jLo st <= length B)%nat -> (jHi st <= length B)%nat ->
  Forall (fun b => b < t1 - (end_ps + w)) (take (jLo st) B) ->
  Z.of_nat (length (diffArray st)) = N + 1 ->
  Z.of_nat k < N ->
  let st' := scanStep config w B (ll_sub start_ps w) (ll_add end_ps w) st t1 in
  eqm64 (psum (diffArray st') (S k))
        (psum (diffArray st) (S k)
         + sumZ (hit w (gridDelay start_ps step_ps k) t1) B)
  /\ length (diffArray st') = length (diffArray st)
  /\ (jLo st' <= length B)%nat /\ (jHi st' <= length B)%nat
  /\ Forall (fun b => b < t1 - (end_ps + w)) (take (jLo st') B).
Proof.
  intros Ht HjLo HjHi Hbelow Hlen Hk. unfold scanStep. cbv zeta.
  assert (Emin : ll_sub start_ps w = start_ps - w) by unwrap_ll.
  assert (Emax : ll_add end_ps w = end_ps + w) by unwrap_ll.
  rewrite Emin, Emax.
  assert (Elo : ll_sub t1 (end_ps + w) = t1 - (end_ps + w)) by unwrap_ll.
  assert (Ehi : ll_sub t1 (start_ps - w) = t1 - (start_ps - w)) by unwrap_ll.
  rewrite Elo, Ehi.
  set (lowCut := t1 - (end_ps + w)) in *.
  set (highCut := t1 - (start_ps - w)).
  destruct (advanceWhile_spec (fun b => b <? lowCut) B
              (length B - jLo st) (jLo st)) as (HrLo & HallLo & _);
    [lia|lia|].
  set (lo' := advanceWhile (fun b => b <? lowCut) B
                (length B - jLo st) (jLo st)) in *.
  set (hi0 := if (jHi st <? lo')%nat then lo' else jHi st).
  assert (Hhi0 : (lo' <= hi0 <= length B)%nat).
  { unfold hi0. destruct (Nat.ltb_spec (jHi st) lo'); lia. }
  destruct (advanceWhile_spec (fun b => b <=? highCut) B
              (length B - hi0) hi0) as (HrHi & _ & HstopHi);
    [lia|lia|].
  set (hi' := advanceWhile (fun b => b <=? highCut) B
                (length B - hi0) hi0) in *.
  cbn [jLo jHi diffArray].
  (* events before the window *)
  assert (Hbefore : Forall (fun b => b < lowCut) (take lo' B)).
  { replace lo' with (jLo st + (lo' - jLo st))%nat at 1 by lia.
    rewrite <- take_take_drop.
    apply Forall_app. split; [exact Hbelow|].
    eapply Forall_impl; [exact HallLo|].
    intros b Hb. simpl in Hb. apply Z.ltb_lt in Hb. exact Hb. }
  (* events after the window *)
  assert (Hafter : Forall (fun b => highCut < b) (drop hi' B)).
  { destruct (B !! hi') as [b|] eqn:Hb.
    - pose proof (HstopHi b eq_refl) as Hp. simpl in Hp.
      apply Z.leb_gt in Hp.
      eapply Forall_impl; [exact (sorted_drop_ge B B_sorted hi' b Hb)|].
      intros y Hy. simpl in Hy. lia.
    - apply lookup_ge_None in Hb. rewrite drop_ge by lia. constructor. }
  set (window := take (hi' - lo') (drop lo' B)).
  assert (Hsplit : B = take lo' B ++ window ++ drop hi' B).
  { unfold window.
    rewrite <- (take_drop lo' B) at 1. f_equal.
    rewrite <- (take_drop (hi' - lo') (drop lo' B)) at 1. f_equal.
    rewrite drop_drop. f_equal. lia. }
  assert (Hwin : Forall picoseconds window).
  { unfold window. apply Forall_take, Forall_drop. exact B_range. }
  split; [|split; [apply addPairs_length|]].
  - eapply eqm64_trans; [apply addPairs_psum; assumption|].
    assert (Hsum : sumZ (hit w (gridDelay start_ps step_ps k) t1) B
                   = sumZ (hit w (gridDelay start_ps step_ps k) t1) window).
    { transitivity (sumZ (hit w (gridDelay start_ps step_ps k) t1)
                         (take lo' B ++ window ++ drop hi' B));
        [f_equal; exact Hsplit|].
      rewrite !sumZ_app.
      rewrite (sumZ_zero _ (take lo' B)), (sumZ_zero _ (drop hi' B)).
      + lia.
      + eapply Forall_impl; [exact Hafter|].
        intros b Hb. apply hit_above; assumption.
      + eapply Forall_impl; [exact Hbefore|].
        intros b Hb. apply hit_below; assumption. }
    rewrite Hsum. apply eqm64_refl.
  - split; [lia|]. split; [lia|]. exact Hbefore.
Qed.

(** The outer loop over a sorted [channel1]. *)
Lemma scanLoop_psum A : forall st k,
  StronglySorted Z.le A -> Forall picoseconds A ->
  (jLo st <= length B)%nat -> (jHi st <= length B)%nat ->
  Forall (fun a => Forall (fun b => b < a - (end_ps + w))
                          (take (jLo st) B)) A ->
  Z.of_nat (length (diffArray st)) = N + 1 ->
  Z.of_nat k < N ->
  let st' :=
    foldl (scanStep config w B (ll_sub start_ps w) (ll_add end_ps w)) st A in
  eqm64 (psum (diffArray st') (S k))
        (psum (diffArray st) (S k)
         + crossCount A B w (gridDelay start_ps step_ps k))
  /\ length (diffArray st') = length (diffArray st).
Proof.
  induction A as [|a A IH]; intros st k Hsorted Hrange HjLo HjHi Hbelow Hlen Hk.
  - simpl. split; [|reflexivity].
    unfold crossCount. simpl. rewrite Z.add_0_r. apply eqm64_refl.
  - apply StronglySorted_inv in Hsorted as [Hsorted Hle].
    apply Forall_cons in Hrange as [Ha Hrange].
    apply Forall_cons in Hbelow as [Hbelow_a _].
    destruct (scanStep_psum st a k Ha HjLo HjHi Hbelow_a Hlen Hk)
      as (Hstep & Hlen1 & HjLo1 & HjHi1 & Hbelow1).
    set (st1 := scanStep config w B (ll_sub start_ps w) (ll_add end_ps w) st a)
      in *.
    destruct (IH st1 k Hsorted Hrange HjLo1 HjHi1) as [Hrest Hlen2].
    + rewrite Forall_forall in Hle. apply Forall_forall. intros a' Ha'.
      eapply Forall_impl; [exact Hbelow1|].
      intros b Hb. simpl in Hb.
      assert (a <= a') by (apply Hle; exact Ha').
      lia.
    + rewrite Hlen1. exact Hlen.
    + exact Hk.
    + cbn [foldl]. fold st1. split; [|rewrite Hlen2; exact Hlen1].
      eapply eqm64_trans; [exact Hrest|].
      unfold crossCount. cbn [sumZ foldr].
      rewrite Z.add_assoc. apply eqm64_add; [|apply eqm64_refl].
      exact Hstep.
Qed.
End Histogram.

(** *** The prefix-sum loop *)

Lemma lookup_map_seq {X} (f : nat -> X) n : forall start k,
  (k < n)%nat -> map f (seq start n) !! k = Some (f (start + k)%nat).
Proof.
  induction n as [|n IH]; intros start [|k] Hk; simpl; try lia.
  - rewrite Nat.add_0_r. reflexivity.
  - replace (start + S k)%nat with (S start + k)%nat by lia.
    apply IH. lia.
Qed.

Lemma prefixSums_length config diff : forall n running idx,
  length (prefixSums config diff running idx n) = n.
Proof.
  induction n as [|n IH]; intros running idx; simpl; [reflexivity|].
  rewrite IH. reflexivity.
Qed.

Lemma prefixSums_lookup config diff : forall n running idx k,
  eqm64 running (psum diff idx) ->
  (idx + n <= length diff)%nat ->
  (k < n)%nat ->
  prefixSums config diff running idx n !! k
  = Some (delayNs (gridDelayPs config (idx + k)),
          wrap_int (psum diff (S (idx + k)))).
Proof.
  induction n as [|n IH]; intros running idx k Hrun Hlen Hk; [lia|].
  destruct (lookup_lt_is_Some_2 diff idx) as [x Hx]; [lia|].
  assert (Hnext : eqm64 (ll_add running (diff !!! idx)) (psum diff (S idx))).
  { rewrite (list_lookup_total_correct _ _ _ Hx), (psum_S _ _ _ Hx).
    unfold ll_add. eapply eqm64_trans; [apply wrap_ll_eqm|].
    apply eqm64_add; [exact Hrun|apply eqm64_refl]. }
  destruct k as [|k]; cbn [prefixSums lookup list_lookup].
  - rewrite Nat.add_0_r. do 2 f_equal. apply wrap_int_eqm. exact Hnext.
  - replace (idx + S k)%nat with (S idx + k)%nat by lia.
    exact (IH _ (S idx) k Hnext ltac:(lia) ltac:(lia)).
Qed.

(** The scan in the range where [long long] arithmetic is exact: the
    result has one entry per grid point, and the count of entry [k] is the
    cross-product count at the [k]-th delay, reduced to an [int]. *)
Lemma computeCoincidencesForRange_entries
    (A B : list Z) (w start_ps end_ps step_ps : Z) (results : ScanResult) :
  Sorted Z.le A -> Sorted Z.le B ->
  0 < w -> 0 < step_ps -> start_ps <= end_ps ->
  Forall picoseconds A -> Forall picoseconds B ->
  picoseconds w -> picoseconds start_ps -> picoseconds end_ps ->
  picoseconds step_ps ->
  exists res,
    computeCoincidencesForRange A B w start_ps end_ps step_ps results
    = (res, Returned tt)
    /\ Z.of_nat (length res) = gridPoints start_ps end_ps step_ps
    /\ (forall k, (k < length res)%nat ->
          res !! k
          = Some (delayNs (gridDelay start_ps step_ps k),
                  wrap_int (crossCount A B w (gridDelay start_ps step_ps k)))).
Proof.
  intros HAs HBs Hw Hstep Hgrid HA HB Hwr Hsr Her Hstr.
  assert (Hw' : 0 < w <= 2 ^ 61) by (unfold picoseconds in *; lia).
  assert (Hst' : 0 < step_ps <= 2 ^ 61) by (unfold picoseconds in *; lia).
  pose proof (gridPoints_range start_ps end_ps step_ps Hsr Her Hst' Hgrid) as HN.
  unfold computeCoincidencesForRange, ScanResult, CoincidencePoint in *.
  rewrite (buildConfig_grid start_ps end_ps step_ps Hsr Her Hst' Hgrid).
  cbn [steps gridConfig startPs endPs stepPs].
  fold (gridConfig start_ps end_ps step_ps).
  set (N := gridPoints start_ps end_ps step_ps) in *.
  destruct (Z.eqb_spec N 0) as [|_]; [lia|].
  assert (Hgridk : forall k, (k < Z.to_nat N)%nat ->
    gridDelayPs (gridConfig start_ps end_ps step_ps) k
    = gridDelay start_ps step_ps k).
  { intros k Hk.
    apply (gridDelayPs_exact w start_ps end_ps step_ps Hw' Hsr Her Hst' Hgrid).
    fold N. lia. }
  destruct (bool_decide (A = []) || bool_decide (B = [])) eqn:Hempty.
  - eexists. split; [reflexivity|].
    split; [rewrite length_map, length_seq; lia|].
    intros k Hk. rewrite length_map, length_seq in Hk.
    rewrite lookup_map_seq by exact Hk. rewrite Nat.add_0_l.
    rewrite (Hgridk k Hk). do 2 f_equal.
    apply orb_true_iff in Hempty as [He|He];
      apply bool_decide_eq_true in He; subst.
    + reflexivity.
    + rewrite crossCount_nil_r. reflexivity.
  - rewrite (wrap_size_small (N + 1)) by lia.
    set (diff0 := replicate (Z.to_nat (N + 1)) 0).
    set (st0 := {| jLo := 0; jHi := 0; diffArray := diff0 |}).
    set (stF := foldl _ st0 A).
    assert (Hloop : forall k, (k < Z.to_nat N)%nat ->
      eqm64 (psum (diffArray stF) (S k))
            (crossCount A B w (gridDelay start_ps step_ps k))
      /\ length (diffArray stF) = Z.to_nat (N + 1)).
    { intros k Hk.
      assert (HAss : StronglySorted Z.le A).
      { apply Sorted_StronglySorted; [|exact HAs].
        intros x y z. apply Z.le_trans. }
      assert (HBss : StronglySorted Z.le B).
      { apply Sorted_StronglySorted; [|exact HBs].
        intros x y z. apply Z.le_trans. }
      destruct (scanLoop_psum w start_ps end_ps step_ps Hw' Hsr Her Hst' Hgrid
                  B HBss HB A st0 k HAss HA) as [Hsum Hlen].
      - simpl. lia.
      - simpl. lia.
      - simpl. apply Forall_forall. intros; constructor.
      - simpl. unfold diff0. rewrite length_replicate. fold N. lia.
      - fold N. lia.
      - fold stF in Hsum, Hlen. split.
        + change (diffArray st0) with (replicate (Z.to_nat (N + 1)) 0) in Hsum.
          rewrite psum_replicate, Z.add_0_l in Hsum. exact Hsum.
        + rewrite Hlen.
          change (diffArray st0) with (replicate (Z.to_nat (N + 1)) 0).
          apply length_replicate. }
    eexists. split; [reflexivity|].
    split; [rewrite prefixSums_length; lia|].
    intros k Hk. rewrite prefixSums_length in Hk.
    destruct (Hloop k Hk) as [Hsum Hlen].
    rewrite prefixSums_lookup; [|apply eqm64_refl|rewrite Hlen; lia|exact Hk].
    rewrite Nat.add_0_l, (Hgridk k Hk). do 2 f_equal.
    apply wrap_int_eqm. exact Hsum.
Qed.



(** ** The best delay and the float x-coordinate *)

(** With an empty grid the start of the grid is returned. *)
Lemma findBestDelay_empty_grid (reference target : list Z)
    (w delayStartPs delayEndPs delayStepPs : Z) :
  0 < delayStepPs -> delayEndPs < delayStartPs ->
  snd (findBestDelayPicoseconds reference target w
         delayStartPs delayEndPs delayStepPs None)
  = Returned delayStartPs.
Proof.
  intros Hstep Hend. unfold findBestDelayPicoseconds.
  unfold computeCoincidencesForRange, buildConfig.
  destruct (Z.leb_spec delayStepPs 0); [lia|].
  destruct (Z.ltb_spec delayEndPs delayStartPs); [|lia].
  reflexivity.
Qed.

(** The linear scan keeps the first entry with the greatest count and
    returns the delay recomputed from its x-coordinate. *)
Lemma foldl_bestStep_le results : forall best,
  Forall (fun e => e.2 <= best.2) results ->
  foldl bestStep best results = best.
Proof.
  induction results as [|e results IH]; intros best Hle; [reflexivity|].
  apply Forall_cons in Hle as [He Hle]. simpl.
  unfold bestStep at 2. simpl in *.
  destruct (Z.gtb_spec e.2 best.2); [lia|]. apply IH. exact Hle.
Qed.

Lemma foldl_bestStep_first_max results : forall best k e,
  results !! k = Some e ->
  best.2 < e.2 ->
  (forall j e', (j < k)%nat -> results !! j = Some e' -> e'.2 < e.2) ->
  Forall (fun e' => e'.2 <= e.2) results ->
  foldl bestStep best results = (roundTripPs e.1, e.2).
Proof.
  induction results as [|e0 results IH]; intros best k e Hk Hbest Hfirst Hmax;
    [discriminate|].
  apply Forall_cons in Hmax as [_ Hmax].
  destruct k as [|k]; simpl in Hk.
  - injection Hk as ->. simpl.
    unfold bestStep at 2. simpl in *.
    destruct (Z.gtb_spec e.2 best.2); [|lia].
    apply foldl_bestStep_le. exact Hmax.
  - simpl. apply (IH _ k e Hk); [| |exact Hmax].
    + pose proof (Hfirst 0%nat e0 ltac:(lia) eq_refl) as H0.
      unfold bestStep. simpl in *.
      destruct (Z.gtb_spec e0.2 best.2); simpl; lia.
    + intros j e' Hj He'. apply (Hfirst (S j) e'); [lia|exact He'].
Qed.

(** What holds of C4: in the range of C1, when the grid point [k] is the
    first one whose cross-product count is greatest, the returned delay is
    the one recomputed from the x-coordinate of entry [k]. *)
Lemma findBestDelay_first_max
    (A B : list Z) (w start_ps end_ps step_ps : Z) (k : nat) :
  Sorted Z.le A -> Sorted Z.le B ->
  0 < w -> 0 < step_ps -> start_ps <= end_ps ->
  Forall picoseconds A -> Forall picoseconds B ->
  picoseconds w -> picoseconds start_ps -> picoseconds end_ps ->
  picoseconds step_ps ->
  Z.of_nat (length A) * Z.of_nat (length B) < 2 ^ 31 ->
  Z.of_nat k < gridPoints start_ps end_ps step_ps ->
  (forall j, Z.of_nat j < gridPoints start_ps end_ps step_ps ->
     crossCount A B w (gridDelay start_ps step_ps j)
     <= crossCount A B w (gridDelay start_ps step_ps k)) ->
  (forall j, (j < k)%nat ->
     crossCount A B w (gridDelay start_ps step_ps j)
     < crossCount A B w (gridDelay start_ps step_ps k)) ->
  snd (findBestDelayPicoseconds A B w start_ps end_ps step_ps None)
  = Returned (roundTripPs (delayNs (gridDelay start_ps step_ps k))).
Proof.
  intros HAs HBs Hw Hstep Hgrid HA HB Hwr Hsr Her Hstr Hpairs Hk Hmax Hfirst.
  destruct (computeCoincidencesForRange_entries A B w start_ps end_ps
              step_ps [] HAs HBs Hw Hstep Hgrid HA HB Hwr Hsr Her Hstr)
    as (res & Hres & Hlen & Hentry).
  unfold ScanResult, CoincidencePoint in *.
  assert (Hexact : forall j, (j < length res)%nat ->
    res !! j = Some (delayNs (gridDelay start_ps step_ps j),
                     crossCount A B w (gridDelay start_ps step_ps j))).
  { intros j Hj. rewrite (Hentry j Hj). do 2 f_equal.
    pose proof (crossCount_bounds A B w (gridDelay start_ps step_ps j)).
    apply wrap_int_small. lia. }
  unfold findBestDelayPicoseconds.
  change (default [] None) with (@nil (float32 * Z)).
  rewrite Hres. cbn [snd]. f_equal.
  rewrite (foldl_bestStep_first_max res _ k
             (delayNs (gridDelay start_ps step_ps k),
              crossCount A B w (gridDelay start_ps step_ps k))).
  - reflexivity.
  - apply Hexact. lia.
  - simpl. pose proof (crossCount_bounds A B w (gridDelay start_ps step_ps k)).
    unfold INT_MIN. lia.
  - intros j e' Hj He'. rewrite Hexact in He' by lia.
    injection He' as <-. simpl. apply Hfirst. exact Hj.
  - apply Forall_lookup. intros j e' He'.
    pose proof (lookup_lt_Some _ _ _ He') as Hj.
    rewrite Hexact in He' by exact Hj. injection He' as <-. simpl.
    apply Hmax. lia.
Qed.

(** C4.  The grid holds the single delay 50000001 ps, at which the one pair
    of events coincides; the returned delay is 50000000 ps, which is not a
    point of the grid and lies outside [delayStartPs, delayEndPs]: the
    binary32 x-coordinate does not determine the picosecond delay. *)
Theorem findBestDelay_off_grid :
  fst (computeCoincidencesForRange [50000001] [0] 1 50000001 50000001 1 [])
  = [(delayNs 50000001, 1)]
  /\ findBestDelayPicoseconds [50000001] [0] 1 50000001 50000001 1 None
     = (None, Returned 50000000).
Proof. split; vm_compute; reflexivity. Qed.

(** ** Sorted buckets *)

(** *** The ingest path keeps every bucket sorted *)

Lemma sorted_le_last l : forall x y,
  StronglySorted Z.le l -> x ∈ l -> last l = Some y -> x <= y.
Proof.
  induction l as [|a l IH]; intros x y Hs Hx Hy; [inversion Hx|].
  apply StronglySorted_inv in Hs as [Hs Ha].
  destruct l as [|b l].
  - simpl in Hy. injection Hy as <-.
    apply list_elem_of_singleton in Hx. lia.
  - change (last (a :: b :: l)) with (last (b :: l)) in Hy.
    apply elem_of_cons in Hx as [->|Hx].
    + assert (y ∈ b :: l) as Hin.
      { apply list_elem_of_lookup. exists (length l).
        rewrite last_lookup in Hy. exact Hy. }
      rewrite Forall_forall in Ha. apply Ha. exact Hin.
    + apply IH; assumption.
Qed.

Lemma sorted_push_back ts l :
  StronglySorted Z.le l ->
  (forall back, last l = Some back -> back <= ts) ->
  StronglySorted Z.le (l ++ [ts]).
Proof.
  intros Hs Hback. apply StronglySorted_app. split; [|split].
  - intros x1 x2 Hx1 Hx2. apply list_elem_of_singleton in Hx2. subst x2.
    destruct (last l) as [back|] eqn:Hlast.
    + pose proof (sorted_le_last l x1 back Hs Hx1 Hlast).
      specialize (Hback back eq_refl). lia.
    + apply last_None in Hlast. subst l. inversion Hx1.
  - exact Hs.
  - repeat constructor.
Qed.

Lemma sorted_insert_upper_bound ts l :
  StronglySorted Z.le l ->
  StronglySorted Z.le
    (take (upper_bound ts l) l ++ ts :: drop (upper_bound ts l) l).
Proof.
  induction 1 as [|x l Hs IH Hx]; simpl.
  - repeat constructor.
  - destruct (Z.ltb_spec ts x) as [Hlt|Hge]; simpl.
    + constructor; [constructor; assumption|].
      constructor; [lia|]. eapply Forall_impl; [exact Hx|].
      intros y Hy. simpl in Hy. lia.
    + constructor; [exact IH|].
      apply Forall_app. split; [apply Forall_take; exact Hx|].
      constructor; [exact Hge|]. apply Forall_drop. exact Hx.
Qed.

Lemma insertTimestamp_sorted ts bucket :
  sortedBucket bucket -> sortedBucket (insertTimestamp ts bucket).
Proof.
  unfold sortedBucket. intros Hs.
  assert (Hss : StronglySorted Z.le bucket).
  { apply Sorted_StronglySorted; [|exact Hs].
    intros x y z. apply Z.le_trans. }
  apply StronglySorted_Sorted. unfold insertTimestamp.
  destruct (last bucket) as [back|] eqn:Hlast.
  - destruct (Z.ltb_spec ts back) as [Hlt|Hge].
    + apply sorted_insert_upper_bound. exact Hss.
    + apply sorted_push_back; [exact Hss|].
      intros back' Hb. assert (back' = back) by congruence. lia.
  - apply sorted_push_back; [exact Hss|]. intros back' Hb. congruence.
Qed.

Lemma ensureSecond_sorted singles second :
  sortedBuckets singles -> sortedBuckets (ensureSecond singles second).1.
Proof.
  unfold sortedBuckets, ensureSecond. intros Hs.
  destruct (eventsPerSecond singles) as [|b bs] eqn:Hev; simpl.
  - repeat constructor.
  - destruct (second <? baseSecond singles); simpl.
    + apply Forall_app. split; [|exact Hs].
      apply Forall_replicate. constructor.
    + destruct (second >? _); [|exact Hs].
      apply Forall_resize; [constructor|exact Hs].
Qed.

(** Part of C8 that holds: [appendTimestamp] keeps every bucket of the
    channel non-decreasing, whatever the order in which events arrive. *)
Lemma appendTimestamp_sorted singles second ts :
  sortedBuckets singles -> sortedBuckets (appendTimestamp singles second ts).
Proof.
  intros Hs. pose proof (ensureSecond_sorted singles second Hs) as He.
  unfold appendTimestamp. destruct (ensureSecond singles second) as [s' idx].
  unfold sortedBuckets in *. simpl in *.
  apply Forall_alter; [exact He|].
  intros bucket _ Hb. apply insertTimestamp_sorted. exact Hb.
Qed.

(** C8.  Two chunks whose origins differ both stamp slice 0 of channel 1;
    the second [appendChunk] concatenates [7] after [5; 10], and the stored
    bucket is no longer sorted although both incoming buckets were. *)
Theorem appendChunk_breaks_sorted_bucket :
  let first : gmap Z Singles :=
    {[ 1 := {| channel := 1; baseSecond := 0; eventsPerSecond := [[5; 10]] |} ]} in
  let second : gmap Z Singles :=
    {[ 1 := {| channel := 1; baseSecond := 0; eventsPerSecond := [[7]] |} ]} in
  let r := appendChunk second (appendChunk first (newRollingSingles 3)) in
  channels_ r !! 1
  = Some {| channel := 1; baseSecond := 0; eventsPerSecond := [[5; 10; 7]] |}
  /\ ~ sortedBuckets {| channel := 1; baseSecond := 0;
                        eventsPerSecond := [[5; 10; 7]] |}.
Proof.
  split; [vm_compute; reflexivity|].
  unfold sortedBuckets, sortedBucket. simpl. intros H.
  apply Forall_cons in H as [H _].
  apply Sorted_inv in H as [H _].
  apply Sorted_inv in H as [_ H].
  apply HdRel_inv in H. lia.
Qed.

(** ** The rolling window *)

(** A channel whose whole range is older than the window is skipped by the
    first test of [prune], so it is neither trimmed nor cleared. *)
Lemma pruneSingles_stale (minSecond : Z) (s : Singles) :
  ll_sub (ll_add (baseSecond s)
                 (wrap_ll (Z.of_nat (length (eventsPerSecond s))))) 1
  < minSecond ->
  pruneSingles minSecond s = s.
Proof.
  intros Hmax. unfold pruneSingles.
  destruct (eventsPerSecond s); [reflexivity|].
  destruct (Z.ltb_spec (ll_sub (ll_add (baseSecond s)
    (wrap_ll (Z.of_nat (length (l :: l0))))) 1) minSecond); [reflexivity|lia].
Qed.

(** A channel that reaches into the window is trimmed to it: its buckets
    older than [minSecond] are dropped and it then starts at [minSecond]
    or later. *)
Lemma pruneSingles_trims (minSecond : Z) (s : Singles) :
  picoseconds (baseSecond s) -> picoseconds minSecond ->
  Z.of_nat (length (eventsPerSecond s)) <= 2 ^ 61 ->
  eventsPerSecond s <> [] ->
  minSecond <= baseSecond s + Z.of_nat (length (eventsPerSecond s)) - 1 ->
  baseSecond (pruneSingles minSecond s) = Z.max (baseSecond s) minSecond
  /\ eventsPerSecond (pruneSingles minSecond s)
     = drop (Z.to_nat (minSecond - baseSecond s)) (eventsPerSecond s)
  /\ eventsPerSecond (pruneSingles minSecond s) <> [].
Proof.
  intros Hbase Hmin Hlen Hne Hreach. unfold pruneSingles.
  destruct (eventsPerSecond s) as [|b bs] eqn:Hev; [congruence|].
  set (n := Z.of_nat (length (b :: bs))) in *.
  assert (E1 : ll_sub (ll_add (baseSecond s) (wrap_ll n)) 1
               = baseSecond s + n - 1).
  { unfold ll_sub, ll_add. rewrite (wrap_ll_small n) by lia.
    rewrite (wrap_ll_small (baseSecond s + n))
      by (unfold picoseconds in *; lia).
    apply wrap_ll_small. unfold picoseconds in *. lia. }
  rewrite E1.
  destruct (Z.ltb_spec (baseSecond s + n - 1) minSecond); [lia|].
  destruct (Z.geb_spec (baseSecond s) minSecond) as [Hge|Hlt].
  { rewrite Hev. replace (Z.to_nat (minSecond - baseSecond s)) with 0%nat by lia.
    split; [lia|]. split; [reflexivity|discriminate]. }
  assert (E2 : ll_sub minSecond (baseSecond s) = minSecond - baseSecond s)
    by unwrap_ll.
  rewrite E2.
  destruct (Z.leb_spec (minSecond - baseSecond s) 0); [lia|].
  rewrite wrap_size_small by (unfold picoseconds in *; lia).
  destruct (Z.geb_spec (minSecond - baseSecond s) n); [lia|].
  cbn [baseSecond eventsPerSecond].
  split; [lia|]. split; [reflexivity|].
  intros Hnil. apply (f_equal length) in Hnil.
  rewrite length_drop in Hnil. unfold n in *. cbn [length] in *. lia.
Qed.

(** C3.  One chunk brings channel 1 with events in second 0 only and
    channel 2 with events in second 10 only, into a window of 3 seconds.
    After [appendChunk] the latest second is 10, so the bound is 8, yet
    channel 1 still starts at second 0 and still holds its bucket. *)
Theorem appendChunk_keeps_stale_channel :
  let chunk : gmap Z Singles :=
    <[1 := {| channel := 1; baseSecond := 0; eventsPerSecond := [[5; 10]] |}]>
    (<[2 := {| channel := 2; baseSecond := 10; eventsPerSecond := [[7]] |}]> ∅) in
  let r := appendChunk chunk (newRollingSingles 3) in
  latestSecond_ r = 10
  /\ windowSeconds_ r = 3
  /\ channels_ r !! 1
     = Some {| channel := 1; baseSecond := 0; eventsPerSecond := [[5; 10]] |}
  /\ channels_ (prune r) !! 1
     = Some {| channel := 1; baseSecond := 0; eventsPerSecond := [[5; 10]] |}.
Proof. vm_compute. repeat split; reflexivity. Qed.

(** ** Scenarios of the specification, evaluated on the model *)

(** S1 and P3: the histogram over the grid [-200, 200] step 50 and the
    fixed-delay sweep at each grid point. *)
Example scenario_histogram :
  map snd (fst (computeCoincidencesForRange
                  [0; 1000; 2000; 3000; 4000] [50; 1050; 2050; 3050; 4050]
                  100 (-200) 200 50 []))
  = [0; 5; 5; 5; 5; 5; 0; 0; 0]
  /\ map (countCoincidencesWithDelay
            [0; 1000; 2000; 3000; 4000] [50; 1050; 2050; 3050; 4050] 100)
         [-200; -150; -100; -50; 0; 50; 100; 150; 200]
     = [0; 5; 5; 5; 5; 5; 0; 0; 0].
Proof. split; vm_compute; reflexivity. Qed.

(** S3: one event of channel A against the last event of slice 7 of
    channel B, without and with the first event of slice 8 appended. *)
Example scenario_bucket_edge :
  countCoincidencesWithDelay [990000000050] [990000000000] 75 0 = 1
  /\ (let '(view, scratch) :=
        appendNextFirstEvent [990000000000] [990000000100; 990000000200] [] in
      span_elements [990000000000] scratch view
      = [990000000000; 990000000100]
      /\ countCoincidencesWithDelay [990000000050]
           (span_elements [990000000000] scratch view) 75 0 = 1).
Proof. vm_compute. repeat split; reflexivity. Qed.

(** S4 and P6: three channels, then the first two of them.  No two events
    have the same timestamp, so the sort is the insertion sort. *)
Example scenario_nfold :
  let base := map (fun i => Z.of_nat i * 10000) (seq 0 10) in
  countNFoldCoincidences stableSortTagged
    [base; map (Z.add 20) base; map (Z.add 35) base] 100 []
  = Returned 10
  /\ countNFoldCoincidences stableSortTagged [base; map (Z.add 20) base] 100 []
     = Returned 10.
Proof. split; vm_compute; reflexivity. Qed.

(** S5: a window of 3 slices and chunks stamping slices 0-1, 2-3 and 4. *)
Example scenario_rolling_window :
  let chunk base buckets : gmap Z Singles :=
    {[ 1 := {| channel := 1; baseSecond := base; eventsPerSecond := buckets |} ]} in
  let r := appendChunk (chunk 4 [[9]])
             (appendChunk (chunk 2 [[5]; [6]])
                (appendChunk (chunk 0 [[1]; [2]]) (newRollingSingles 3))) in
  channels_ r !! 1
  = Some {| channel := 1; baseSecond := 2;
            eventsPerSecond := [[5]; [6]; [9]] |}.
Proof. vm_compute. reflexivity. Qed.

(** S6: an empty channel gives zero counts and the start of the grid. *)
Example scenario_empty_channel :
  map snd (fst (computeCoincidencesForRange [] [50; 150] 100 (-100) 100 50 []))
  = [0; 0; 0; 0; 0]
  /\ snd (findBestDelayPicoseconds [] [50; 150] 100 (-100) 100 50 None)
     = Returned (-100).
Proof. split; vm_compute; reflexivity. Qed.

(** ** Singles.h: addressing buckets by absolute second *)

Lemma eventsForSecond_bucketAt (s : Singles) (t : Z) :
  secondsOK s -> secondOK t ->
  eventsForSecond s t = default [] (bucketAt s t).
Proof.
  intros [Hb Hl] Ht. unfold eventsForSecond, bucketAt, secondOK in *.
  destruct (eventsPerSecond s) as [|b bs] eqn:Hev.
  - destruct (t <? baseSecond s); [reflexivity|]. rewrite lookup_nil. reflexivity.
  - destruct (Z.ltb_spec t (baseSecond s)) as [Hlt|Hge]; [reflexivity|].
    assert (E : ll_sub t (baseSecond s) = t - baseSecond s)
      by (unfold ll_sub; apply wrap_ll_small; lia).
    rewrite E, wrap_size_small by lia.
    set (l := b :: bs) in *.
    destruct (Z.ltb_spec (t - baseSecond s) (Z.of_nat (length l))) as [Hin|Hout].
    + destruct (lookup_lt_is_Some_2 l (Z.to_nat (t - baseSecond s))) as [x Hx];
        [lia|].
      rewrite (list_lookup_total_correct _ _ _ Hx), Hx. reflexivity.
    + rewrite (proj2 (lookup_ge_None l (Z.to_nat (t - baseSecond s))))
        by lia.
      reflexivity.
Qed.

Lemma bucketAt_alter (f : list Z -> list Z) (s : Singles) (i : nat) (t : Z) :
  bucketAt {| channel := channel s; baseSecond := baseSecond s;
              eventsPerSecond := alter f i (eventsPerSecond s) |} t
  = if bool_decide (t = baseSecond s + Z.of_nat i) then f <$> bucketAt s t
    else bucketAt s t.
Proof.
  unfold bucketAt. cbn [baseSecond eventsPerSecond].
  destruct (Z.ltb_spec t (baseSecond s)) as [Hlt|Hge].
  - destruct (bool_decide _); reflexivity.
  - destruct (decide (t = baseSecond s + Z.of_nat i)) as [->|Hne].
    + rewrite bool_decide_true by reflexivity.
      replace (Z.to_nat (baseSecond s + Z.of_nat i - baseSecond s)) with i by lia.
      apply list_lookup_alter_eq.
    + rewrite bool_decide_false by exact Hne.
      apply list_lookup_alter_ne. lia.
Qed.

Lemma bucketAt_Forall (P : list Z -> Prop) (s : Singles) :
  Forall P (eventsPerSecond s)
  <-> forall t b, bucketAt s t = Some b -> P b.
Proof.
  rewrite Forall_lookup. unfold bucketAt. split.
  - intros H t b. destruct (t <? baseSecond s); [discriminate|]. apply H.
  - intros H i b Hb. apply (H (baseSecond s + Z.of_nat i)).
    destruct (Z.ltb_spec (baseSecond s + Z.of_nat i) (baseSecond s)); [lia|].
    replace (Z.to_nat (baseSecond s + Z.of_nat i - baseSecond s)) with i by lia.
    exact Hb.
Qed.

(** [ensureSecond] in exact arithmetic: the structure it returns spans
    [second], the returned index is the bucket of [second], every bucket
    that existed is kept and every new one is empty. *)
Lemma ensureSecond_spec (s : Singles) (second : Z) :
  secondsOK s -> secondOK second ->
  exists s' i,
    ensureSecond s second = (s', i)
    /\ channel s' = channel s
    /\ secondsOK s'
    /\ baseSecond s' + Z.of_nat i = second
    /\ bucketAt s' second = Some (default [] (bucketAt s second))
    /\ (forall t b, bucketAt s' t = Some b -> bucketAt s t = Some b \/ b = [])
    /\ (forall t b, bucketAt s t = Some b -> bucketAt s' t = Some b)
    /\ concat (eventsPerSecond s') = concat (eventsPerSecond s).
Proof.
  assert (Hrep : forall n, concat (replicate n (@nil Z)) = []).
  { induction n as [|n IH]; [reflexivity|exact IH]. }
  intros [Hb Hl] Ht. unfold ensureSecond, secondsOK, secondOK in *.
  destruct (eventsPerSecond s) as [|b0 bs] eqn:Hev.
  { eexists _, _. split; [reflexivity|]. cbn [channel baseSecond eventsPerSecond].
    split; [reflexivity|]. split; [simpl; lia|]. split; [lia|].
    unfold bucketAt. cbn [baseSecond eventsPerSecond]. rewrite Hev.
    split; [|split; [|split]].
    - rewrite Z.ltb_irrefl, Z.sub_diag. simpl.
      destruct (second <? baseSecond s); reflexivity.
    - intros t b. destruct (t <? second); [discriminate|].
      destruct (Z.to_nat (t - second)) as [|n]; simpl.
      + intros [= <-]. right. reflexivity.
      + rewrite lookup_nil. discriminate.
    - intros t b. destruct (t <? baseSecond s); [discriminate|].
      rewrite lookup_nil. discriminate.
    - reflexivity. }
  set (l := b0 :: bs) in *.
  assert (Hlen : (0 < length l)%nat) by (simpl; lia).
  destruct (Z.ltb_spec second (baseSecond s)) as [Hlt|Hge].
  { assert (E : ll_sub (baseSecond s) second = baseSecond s - second)
      by (unfold ll_sub; apply wrap_ll_small; lia).
    rewrite E, wrap_size_small by lia.
    set (n := Z.to_nat (baseSecond s - second)).
    eexists _, _. split; [reflexivity|]. cbn [channel baseSecond eventsPerSecond].
    split; [reflexivity|].
    split; [rewrite length_app, length_replicate; lia|]. split; [lia|].
    unfold bucketAt. cbn [baseSecond eventsPerSecond]. rewrite Hev. fold l.
    split; [|split; [|split]].
    - rewrite Z.ltb_irrefl, Z.sub_diag.
      rewrite lookup_app_l by (rewrite length_replicate; lia).
      rewrite lookup_replicate_2 by lia.
      destruct (Z.ltb_spec second (baseSecond s)); [reflexivity|lia].
    - intros t b. destruct (Z.ltb_spec t second); [discriminate|].
      destruct (Z.ltb_spec t (baseSecond s)).
      + rewrite lookup_app_l by (rewrite length_replicate; lia).
        intros Hb'. apply lookup_replicate in Hb' as [-> _]. right. reflexivity.
      + rewrite lookup_app_r by (rewrite length_replicate; lia).
        rewrite length_replicate.
        replace (Z.to_nat (t - second) - n)%nat
          with (Z.to_nat (t - baseSecond s)) by lia.
        intros Hb'. left. exact Hb'.
    - intros t b. destruct (Z.ltb_spec t (baseSecond s)); [discriminate|].
      destruct (Z.ltb_spec t second); [lia|].
      rewrite lookup_app_r by (rewrite length_replicate; lia).
      rewrite length_replicate.
      replace (Z.to_nat (t - second) - n)%nat
        with (Z.to_nat (t - baseSecond s)) by lia.
      intros Hb'. exact Hb'.
    - rewrite concat_app, Hrep. reflexivity. }
  assert (E1 : ll_sub (ll_add (baseSecond s) (wrap_ll (Z.of_nat (length l)))) 1
               = baseSecond s + Z.of_nat (length l) - 1).
  { unfold ll_sub, ll_add. rewrite (wrap_ll_small (Z.of_nat (length l))) by lia.
    rewrite (wrap_ll_small (baseSecond s + Z.of_nat (length l))) by lia.
    apply wrap_ll_small. lia. }
  assert (E2 : ll_sub second (baseSecond s) = second - baseSecond s)
    by (unfold ll_sub; apply wrap_ll_small; lia).
  assert (E3 : ll_add (second - baseSecond s) 1 = second - baseSecond s + 1)
    by (unfold ll_add; apply wrap_ll_small; lia).
  rewrite E1, E2, E3, !wrap_size_small by lia.
  destruct (Z.gtb_spec second (baseSecond s + Z.of_nat (length l) - 1))
    as [Hnew|Hold].
  - rewrite resize_ge by lia.
    set (m := (Z.to_nat (second - baseSecond s + 1) - length l)%nat).
    eexists _, _. split; [reflexivity|]. cbn [channel baseSecond eventsPerSecond].
    split; [reflexivity|].
    split; [rewrite length_app, length_replicate; lia|]. split; [lia|].
    unfold bucketAt. cbn [baseSecond eventsPerSecond]. rewrite Hev. fold l.
    destruct (Z.ltb_spec second (baseSecond s)); [lia|].
    split; [|split; [|split]].
    + rewrite lookup_app_r by lia.
      rewrite lookup_replicate_2 by lia.
      rewrite (proj2 (lookup_ge_None l (Z.to_nat (second - baseSecond s))))
        by lia.
      reflexivity.
    + intros t b. destruct (Z.ltb_spec t (baseSecond s)); [discriminate|].
      destruct (decide (Z.to_nat (t - baseSecond s) < length l)%nat).
      * rewrite lookup_app_l by lia. intros Hb'. left. exact Hb'.
      * rewrite lookup_app_r by lia.
        intros Hb'. apply lookup_replicate in Hb' as [-> _]. right. reflexivity.
    + intros t b. destruct (Z.ltb_spec t (baseSecond s)); [discriminate|].
      intros Hb'. pose proof (lookup_lt_Some _ _ _ Hb').
      rewrite lookup_app_l by lia. exact Hb'.
    + rewrite concat_app, Hrep, app_nil_r. reflexivity.
  - eexists _, _. split; [reflexivity|]. cbn [channel baseSecond eventsPerSecond].
    split; [reflexivity|]. split; [lia|]. split; [lia|].
    unfold bucketAt. cbn [baseSecond eventsPerSecond]. rewrite Hev. fold l.
    destruct (Z.ltb_spec second (baseSecond s)); [lia|].
    split; [|split; [|split]].
    + destruct (lookup_lt_is_Some_2 l (Z.to_nat (second - baseSecond s)))
        as [x Hx]; [lia|].
      rewrite Hx. reflexivity.
    + intros t b Hb'. left. exact Hb'.
    + intros t b Hb'. exact Hb'.
    + reflexivity.
Qed.

Lemma ensureSecond_reads (s : Singles) (second : Z) :
  secondsOK s -> secondOK second ->
  forall t, default [] (bucketAt (ensureSecond s second).1 t)
            = default [] (bucketAt s t).
Proof.
  intros Hs Hsec t.
  destruct (ensureSecond_spec s second Hs Hsec)
    as (s' & i & -> & _ & _ & _ & _ & Hnew & Hold & _).
  cbn [fst]. destruct (bucketAt s t) as [b|] eqn:Hb.
  - rewrite (Hold t b Hb). reflexivity.
  - destruct (bucketAt s' t) as [b'|] eqn:Hb'; [|reflexivity].
    destruct (Hnew t b' Hb') as [H| ->]; [congruence|reflexivity].
Qed.

(** [appendTimestamp] at the level of buckets: the bucket of [second]
    receives the timestamp, every other bucket is kept or created empty. *)
Lemma appendTimestamp_spec (s : Singles) (second ts : Z) :
  secondsOK s -> secondOK second ->
  let s' := appendTimestamp s second ts in
  channel s' = channel s
  /\ secondsOK s'
  /\ bucketAt s' second
     = Some (insertTimestamp ts (default [] (bucketAt s second)))
  /\ (forall t b, t <> second -> bucketAt s' t = Some b ->
        bucketAt s t = Some b \/ b = [])
  /\ (forall t b, t <> second -> bucketAt s t = Some b ->
        bucketAt s' t = Some b).
Proof.
  intros Hs Hsec.
  destruct (ensureSecond_spec s second Hs Hsec)
    as (s1 & i & He & Hch & Hok & Hidx & Hat & Hnew & Hold & _).
  unfold appendTimestamp. rewrite He. cbv zeta.
  split; [exact Hch|]. split.
  { destruct Hok as [Hb Hl]. split; cbn [baseSecond eventsPerSecond].
    - exact Hb.
    - rewrite length_alter. exact Hl. }
  assert (Hif : forall t,
    bucketAt {| channel := channel s1; baseSecond := baseSecond s1;
                eventsPerSecond :=
                  alter (insertTimestamp ts) i (eventsPerSecond s1) |} t
    = if bool_decide (t = second) then insertTimestamp ts <$> bucketAt s1 t
      else bucketAt s1 t).
  { intros t. rewrite bucketAt_alter, Hidx. reflexivity. }
  split; [|split].
  - rewrite Hif, bool_decide_true by reflexivity. rewrite Hat. reflexivity.
  - intros t b Hne. rewrite Hif, bool_decide_false by exact Hne. apply Hnew.
  - intros t b Hne. rewrite Hif, bool_decide_false by exact Hne. apply Hold.
Qed.



(** X2.  Round trip of the ingest path: after [appendTimestamp] the bucket
    of [second] reads as the old bucket with the timestamp inserted, and
    every other second reads as before. *)
Theorem appendTimestamp_eventsForSecond (s : Singles) (second ts t : Z) :
  secondsOK s -> secondOK second -> secondOK t ->
  eventsForSecond (appendTimestamp s second ts) t
  = if bool_decide (t = second)
    then insertTimestamp ts (eventsForSecond s second)
    else eventsForSecond s t.
Proof.
  intros Hs Hsec Ht.
  destruct (appendTimestamp_spec s second ts Hs Hsec)
    as (_ & Hok & Hat & Hnew & Hold).
  rewrite (eventsForSecond_bucketAt _ t Hok Ht).
  destruct (decide (t = second)) as [->|Hne].
  - rewrite bool_decide_true by reflexivity.
    rewrite Hat, (eventsForSecond_bucketAt s second Hs Hsec). reflexivity.
  - rewrite bool_decide_false by exact Hne.
    rewrite (eventsForSecond_bucketAt s t Hs Ht).
    destruct (bucketAt s t) as [b|] eqn:Hb.
    + rewrite (Hold t b Hne Hb). reflexivity.
    + destruct (bucketAt (appendTimestamp s second ts) t) as [b'|] eqn:Hb';
        [|reflexivity].
      destruct (Hnew t b' Hne Hb') as [H| ->]; [congruence|reflexivity].
Qed.

Lemma appendTimestamp_eventsForSecond_witness :
  let s := {| channel := 1; baseSecond := 5; eventsPerSecond := [[7]; [8; 10]] |} in
  eventsForSecond (appendTimestamp s 6 9) 6 = [8; 9; 10]
  /\ eventsForSecond (appendTimestamp s 6 9) 5 = [7].
Proof.
  intros s.
  assert (Hs : secondsOK s) by (unfold secondsOK; simpl; lia).
  assert (H5 : secondOK 5) by (unfold secondOK; lia).
  assert (H6 : secondOK 6) by (unfold secondOK; lia).
  split.
  - exact (appendTimestamp_eventsForSecond s 6 9 6 Hs H6 H6).
  - exact (appendTimestamp_eventsForSecond s 6 9 5 Hs H6 H5).
Defined.

Lemma insertTimestamp_Permutation ts bucket :
  insertTimestamp ts bucket ≡ₚ ts :: bucket.
Proof.
  unfold insertTimestamp.
  assert (Hback : bucket ++ [ts] ≡ₚ ts :: bucket).
  { rewrite Permutation_app_comm. reflexivity. }
  destruct (last bucket) as [back|]; [|exact Hback].
  destruct (ts <? back); [|exact Hback].
  rewrite <- Permutation_middle, take_drop. reflexivity.
Qed.

(** X3.  What [appendTimestamp] does to the bucket it obtained is a sorted
    insertion: the bucket gains exactly the new timestamp, nothing is lost
    or duplicated, and a non-decreasing bucket stays non-decreasing. *)
Theorem insertTimestamp_sorted_insertion (ts : Z) (bucket : list Z) :
  sortedBucket bucket ->
  sortedBucket (insertTimestamp ts bucket)
  /\ insertTimestamp ts bucket ≡ₚ ts :: bucket.
Proof.
  intros Hs. split.
  - apply insertTimestamp_sorted. exact Hs.
  - apply insertTimestamp_Permutation.
Qed.

Lemma insertTimestamp_sorted_insertion_witness :
  sortedBucket (insertTimestamp 7 [5; 10])
  /\ insertTimestamp 7 [5; 10] ≡ₚ [7; 5; 10].
Proof.
  apply (insertTimestamp_sorted_insertion 7 [5; 10]).
  unfold sortedBucket. repeat constructor; lia.
Defined.

(** ** ReadCSV.cpp: the ingest loop *)

Lemma quot_width_range x w :
  0 < w -> Z.abs (Z.quot x w) <= Z.abs x.
Proof.
  intros Hw. destruct (Z_le_gt_dec 0 x) as [Hx|Hx].
  - rewrite Z.quot_div_nonneg by lia.
    pose proof (Z.div_pos x w Hx Hw).
    assert (x / w <= x) by (apply Z.div_le_upper_bound; nia).
    lia.
  - replace x with (- (- x)) at 1 by lia.
    rewrite Z.quot_opp_l by lia. rewrite Z.quot_div_nonneg by lia.
    pose proof (Z.div_pos (- x) w ltac:(lia) Hw).
    assert (- x / w <= - x) by (apply Z.div_le_upper_bound; nia).
    lia.
Qed.

Lemma bucketWidth_pos W : 0 < bucketWidth W.
Proof. unfold bucketWidth. destruct (Z.leb_spec W 0); lia. Qed.

Lemma bucketIndex_exact ts f W :
  timestampOK ts -> timestampOK f ->
  ll_sub ts f = ts - f
  /\ bucketIndex ts f W = Z.quot (ts - f) (bucketWidth W)
  /\ secondOK (Z.quot (ts - f) (bucketWidth W)).
Proof.
  unfold timestampOK, secondOK. intros Hts Hf.
  assert (E : ll_sub ts f = ts - f)
    by (unfold ll_sub; apply wrap_ll_small; lia).
  pose proof (quot_width_range (ts - f) (bucketWidth W) (bucketWidth_pos W)).
  split; [exact E|]. split; [|lia].
  unfold bucketIndex. cbv zeta. rewrite E. unfold ll_div.
  change (if W <=? 0 then kPicosecondsPerSecond else W) with (bucketWidth W).
  apply wrap_ll_small. lia.
Qed.

Lemma ingest_test ts ch :
  (ch <? 1) || (ch >? kMaxChannels) || (ts =? 0) = negb (validEvent (ts, ch)).
Proof.
  unfold validEvent, kMaxChannels. cbn [fst snd].
  destruct (Z.ltb_spec ch 1), (Z.gtb_spec ch 8), (Z.eqb_spec ts 0),
    (Z.leb_spec 1 ch), (Z.leb_spec ch 8); simpl; try reflexivity; lia.
Qed.

Lemma ingest_snoc W l e :
  ingest W (l ++ [e]) = ingestEvent W (ingest W l) e.1 e.2.
Proof. unfold ingest. rewrite foldl_app. reflexivity. Qed.

Lemma filter_and_nil {X} (p q : X -> bool) l :
  List.filter p l = [] -> List.filter (fun x => p x && q x) l = [].
Proof.
  induction l as [|x l IH]; [reflexivity|]. simpl.
  destruct (p x); [discriminate|]. simpl. exact IH.
Qed.

Lemma timeOrigin_snoc l e :
  timeOrigin (l ++ [e])
  = match List.filter validEvent l with
    | [] => if validEvent e then e.1 else 0
    | _ :: _ => timeOrigin l
    end.
Proof.
  unfold timeOrigin. rewrite List.filter_app.
  destruct (List.filter validEvent l) as [|e0 l0]; [|reflexivity].
  simpl. destruct (validEvent e); reflexivity.
Qed.

Lemma channelOffsets_snoc l e ch :
  channelOffsets (l ++ [e]) ch
  = channelOffsets l ch
    ++ (if validEvent e && (e.2 =? ch)
        then [e.1 - timeOrigin (l ++ [e])] else []).
Proof.
  unfold channelOffsets. rewrite List.filter_app, List.map_app. f_equal.
  - destruct (List.filter validEvent l) as [|e0 l0] eqn:Hacc.
    + rewrite (filter_and_nil validEvent (fun e => e.2 =? ch) l Hacc).
      reflexivity.
    + rewrite timeOrigin_snoc, Hacc. reflexivity.
  - simpl. destruct (validEvent e && (e.2 =? ch)); reflexivity.
Qed.

Lemma expectedBucket_snoc W l e ch t :
  expectedBucket W (l ++ [e]) ch t
  = expectedBucket W l ch t
    ++ (if validEvent e && (e.2 =? ch)
           && (Z.quot (e.1 - timeOrigin (l ++ [e])) (bucketWidth W) =? t)
        then [e.1 - timeOrigin (l ++ [e])] else []).
Proof.
  unfold expectedBucket. rewrite channelOffsets_snoc, List.filter_app.
  f_equal. destruct (validEvent e && (e.2 =? ch)); [|reflexivity].
  simpl. destruct (_ =? t); reflexivity.
Qed.

Lemma initialChannels_lookup ch :
  1 <= ch <= 8 ->
  initialChannels !! Z.to_nat ch
  = Some {| channel := ch; baseSecond := 0; eventsPerSecond := [] |}.
Proof.
  intros Hch.
  assert (ch = 1 \/ ch = 2 \/ ch = 3 \/ ch = 4 \/ ch = 5 \/ ch = 6
          \/ ch = 7 \/ ch = 8) as Hcases by lia.
  repeat destruct Hcases as [->|Hcases]; try subst ch; reflexivity.
Qed.

Lemma ingestInv_start W : ingestInv W [] ingestStart.
Proof.
  split; [reflexivity|]. split; [discriminate|].
  intros ch Hch. eexists. split; [apply initialChannels_lookup; exact Hch|].
  cbn [channel eventsPerSecond]. split; [reflexivity|].
  split; [unfold secondsOK; simpl; lia|]. split; [constructor|].
  split; [split; reflexivity|].
  intros t. unfold bucketAt. cbn [baseSecond eventsPerSecond].
  destruct (t <? 0); [reflexivity|]. rewrite lookup_nil. reflexivity.
Qed.

Lemma appendTimestamp_reads (s : Singles) (second ts : Z) :
  secondsOK s -> secondOK second ->
  forall t, default [] (bucketAt (appendTimestamp s second ts) t)
            = if bool_decide (t = second)
              then insertTimestamp ts (default [] (bucketAt s second))
              else default [] (bucketAt s t).
Proof.
  intros Hs Hsec t.
  destruct (appendTimestamp_spec s second ts Hs Hsec)
    as (_ & Hok & Hat & Hnew & Hold).
  destruct (decide (t = second)) as [->|Hne].
  - rewrite bool_decide_true by reflexivity. rewrite Hat. reflexivity.
  - rewrite bool_decide_false by exact Hne.
    destruct (bucketAt s t) as [b|] eqn:Hb.
    + rewrite (Hold t b Hne Hb). reflexivity.
    + destruct (bucketAt (appendTimestamp s second ts) t) as [b'|] eqn:Hb';
        [|reflexivity].
      destruct (Hnew t b' Hne Hb') as [H| ->]; [congruence|reflexivity].
Qed.

Lemma timeOrigin_OK l :
  Forall (fun e => timestampOK e.1) l -> timestampOK (timeOrigin l).
Proof.
  intros Hl. unfold timeOrigin.
  destruct (List.filter validEvent l) as [|e0 l0] eqn:Hacc.
  - unfold timestampOK. lia.
  - assert (Hin : In e0 (List.filter validEvent l))
      by (rewrite Hacc; left; reflexivity).
    apply List.filter_In in Hin as [Hin _].
    rewrite Forall_forall in Hl. apply Hl. apply list_elem_of_In. exact Hin.
Qed.

Lemma ingestInv_step W l st e :
  Forall (fun e => timestampOK e.1) (l ++ [e]) ->
  ingestInv W l st ->
  ingestInv W (l ++ [e]) (ingestEvent W st e.1 e.2).
Proof.
  intros Hrange (Hfirst & Horigin & Hchan).
  pose proof (timeOrigin_OK _ Hrange) as HoriginOK.
  apply Forall_app in Hrange as [Hl He].
  apply Forall_cons in He as [He _].
  destruct e as [ts ch0]. cbn [fst snd] in *.
  unfold ingestEvent. rewrite ingest_test.
  destruct (validEvent (ts, ch0)) eqn:Hv; cbn [negb].
  2:{ (* the event is skipped *)
    split; [|split].
    - rewrite List.filter_app. simpl. rewrite Hv, app_nil_r. exact Hfirst.
    - intros Hf. rewrite timeOrigin_snoc.
      destruct (List.filter validEvent l); [congruence|]. apply Horigin, Hf.
    - intros ch Hch. destruct (Hchan ch Hch)
        as (s & Hs & Hc & Hok & Hsorted & Hempty & Hread).
      exists s. split; [exact Hs|]. split; [exact Hc|]. split; [exact Hok|].
      split; [exact Hsorted|].
      rewrite channelOffsets_snoc. cbn [fst snd]. rewrite Hv. cbn [andb].
      rewrite app_nil_r. split; [exact Hempty|].
      intros t. rewrite expectedBucket_snoc. cbn [fst snd].
      rewrite Hv. cbn [andb]. rewrite app_nil_r. apply Hread. }
  (* the event is stored *)
  assert (Hf' : (if first st then ts else firstTimestamp st)
                = timeOrigin (l ++ [(ts, ch0)])).
  { rewrite timeOrigin_snoc. cbn [fst]. rewrite Hv.
    destruct (List.filter validEvent l).
    - rewrite Hfirst. reflexivity.
    - rewrite Hfirst. apply Horigin, Hfirst. }
  rewrite !Hf'. set (f' := timeOrigin (l ++ [(ts, ch0)])) in *.
  destruct (bucketIndex_exact ts f' W He HoriginOK) as (Eoff & Esec & HsecOK).
  rewrite Eoff, Esec.
  set (off := ts - f') in *. set (sec := Z.quot off (bucketWidth W)) in *.
  assert (Hch0 : 1 <= ch0 <= 8).
  { unfold validEvent in Hv. cbn [fst snd] in Hv.
    destruct (Z.leb_spec 1 ch0), (Z.leb_spec ch0 8); try discriminate. lia. }
  split; [|split]; cbn [first firstTimestamp channels].
  - rewrite List.filter_app. simpl. rewrite Hv.
    destruct (List.filter validEvent l); reflexivity.
  - intros _. reflexivity.
  - intros ch Hch. destruct (Hchan ch Hch)
      as (s & Hs & Hc & Hok & Hsorted & Hempty & Hread).
    destruct (decide (ch = ch0)) as [->|Hne].
    + exists (appendTimestamp s sec off).
      destruct (appendTimestamp_spec s sec off Hok HsecOK)
        as (Hc' & Hok' & Hat & _ & _).
      split; [rewrite list_lookup_alter_eq, Hs; reflexivity|].
      split; [rewrite Hc'; exact Hc|]. split; [exact Hok'|].
      split; [apply appendTimestamp_sorted; exact Hsorted|].
      rewrite channelOffsets_snoc. cbn [fst snd].
      rewrite Hv, Z.eqb_refl. cbn [andb]. split.
      * split.
        -- intros Hnil. unfold bucketAt in Hat. rewrite Hnil in Hat.
           destruct (sec <? _); [discriminate|].
           rewrite lookup_nil in Hat. discriminate.
        -- intros Hnil. apply app_eq_nil in Hnil as [_ Hnil]. discriminate.
      * intros t. rewrite (appendTimestamp_reads s sec off Hok HsecOK t).
        rewrite expectedBucket_snoc. cbn [fst snd].
        rewrite Hv, Z.eqb_refl. cbn [andb]. fold f' off sec.
        destruct (decide (t = sec)) as [->|Hnt].
        -- rewrite bool_decide_true by reflexivity. rewrite Z.eqb_refl.
           rewrite insertTimestamp_Permutation, (Hread sec).
           rewrite Permutation_app_comm. reflexivity.
        -- rewrite bool_decide_false by exact Hnt.
           destruct (Z.eqb_spec sec t); [congruence|].
           rewrite app_nil_r. apply Hread.
    + exists s.
      split; [rewrite list_lookup_alter_ne by lia; exact Hs|].
      split; [exact Hc|]. split; [exact Hok|]. split; [exact Hsorted|].
      rewrite channelOffsets_snoc. cbn [fst snd].
      destruct (Z.eqb_spec ch0 ch); [congruence|].
      rewrite andb_false_r, app_nil_r. split; [exact Hempty|].
      intros t. rewrite expectedBucket_snoc. cbn [fst snd].
      destruct (Z.eqb_spec ch0 ch); [congruence|].
      rewrite andb_false_r. cbn [andb]. rewrite app_nil_r. apply Hread.
Qed.

Lemma ingest_invariant W l :
  Forall (fun e => timestampOK e.1) l -> ingestInv W l (ingest W l).
Proof.
  induction l as [|e l IH] using rev_ind; intros Hrange.
  - apply ingestInv_start.
  - rewrite ingest_snoc. apply ingestInv_step; [exact Hrange|].
    apply IH. apply Forall_app in Hrange as [Hl _]. exact Hl.
Qed.

Lemma sortedBuckets_read (s : Singles) (t : Z) :
  sortedBuckets s -> sortedBucket (default [] (bucketAt s t)).
Proof.
  intros Hs. destruct (bucketAt s t) as [b|] eqn:Hb; [|constructor].
  unfold sortedBuckets in Hs. rewrite bucketAt_Forall in Hs.
  exact (Hs t b Hb).
Qed.

(** X4.  What the ingest loop stores, for events in range: for every
    channel 1..8 and every slice, the bucket read back is non-decreasing
    and holds exactly the offsets, from the first valid timestamp, of the
    valid events of that channel whose offset divided by the bucket width
    gives the slice; invalid events leave no trace. *)
Theorem ingest_stores_expected_buckets
    (W : Z) (events : list (Z * Z)) (ch t : Z) :
  Forall (fun e => timestampOK e.1) events ->
  1 <= ch <= 8 -> secondOK t ->
  exists s,
    channels (ingest W events) !! Z.to_nat ch = Some s
    /\ channel s = ch
    /\ sortedBucket (eventsForSecond s t)
    /\ eventsForSecond s t ≡ₚ expectedBucket W events ch t.
Proof.
  intros Hrange Hch Ht.
  destruct (ingest_invariant W events Hrange) as (_ & _ & Hchan).
  destruct (Hchan ch Hch) as (s & Hs & Hc & Hok & Hsorted & _ & Hread).
  exists s. split; [exact Hs|]. split; [exact Hc|].
  rewrite (eventsForSecond_bucketAt s t Hok Ht).
  split; [apply sortedBuckets_read; exact Hsorted|apply Hread].
Qed.

Lemma ingest_stores_expected_buckets_witness :
  exists s,
    channels (ingest 10 [(100, 1); (0, 1); (125, 9); (117, 1); (112, 1); (130, 2)])
      !! Z.to_nat 1 = Some s
    /\ channel s = 1
    /\ sortedBucket (eventsForSecond s 1)
    /\ eventsForSecond s 1
       ≡ₚ expectedBucket 10
            [(100, 1); (0, 1); (125, 9); (117, 1); (112, 1); (130, 2)] 1 1.
Proof.
  apply ingest_stores_expected_buckets.
  - repeat constructor; unfold timestampOK; simpl; lia.
  - lia.
  - unfold secondOK. lia.
Defined.

(** X5.  Where the ingest loop puts an offset: an event at or after the
    first valid one lies in the slice of its bucket,
    [t * width <= x < (t + 1) * width]; an event before it is placed by
    the truncating division, in [(t - 1) * width < x <= t * width], so
    slice 0 then spans two widths. *)
Theorem ingest_slice_bounds (W : Z) (events : list (Z * Z)) (ch t : Z) :
  Forall (fun e => timestampOK e.1) events ->
  1 <= ch <= 8 -> secondOK t ->
  exists s,
    channels (ingest W events) !! Z.to_nat ch = Some s
    /\ Forall (fun x =>
         if 0 <=? x
         then t * bucketWidth W <= x < (t + 1) * bucketWidth W
         else (t - 1) * bucketWidth W < x <= t * bucketWidth W)
       (eventsForSecond s t).
Proof.
  intros Hrange Hch Ht.
  destruct (ingest_invariant W events Hrange) as (_ & _ & Hchan).
  destruct (Hchan ch Hch) as (s & Hs & _ & Hok & _ & _ & Hread).
  exists s. split; [exact Hs|].
  rewrite (eventsForSecond_bucketAt s t Hok Ht).
  rewrite Forall_forall. intros x Hx.
  rewrite (Hread t) in Hx. apply list_elem_of_In in Hx.
  unfold expectedBucket in Hx. apply List.filter_In in Hx as [_ Hq].
  apply Z.eqb_eq in Hq. pose proof (bucketWidth_pos W) as Hw.
  set (w := bucketWidth W) in *.
  destruct (Z.leb_spec 0 x) as [Hx|Hx].
  - rewrite Z.quot_div_nonneg in Hq by lia. subst t.
    pose proof (Z.div_mod x w ltac:(lia)).
    pose proof (Z.mod_pos_bound x w Hw). nia.
  - replace x with (- (- x)) in Hq by lia.
    rewrite Z.quot_opp_l in Hq by lia.
    rewrite Z.quot_div_nonneg in Hq by lia. subst t.
    pose proof (Z.div_mod (- x) w ltac:(lia)).
    pose proof (Z.mod_pos_bound (- x) w Hw). nia.
Qed.

Lemma ingest_slice_bounds_witness :
  exists s,
    channels (ingest 10 [(100, 1); (117, 1); (95, 1); (83, 1)])
      !! Z.to_nat 1 = Some s
    /\ Forall (fun x =>
         if 0 <=? x
         then 0 * bucketWidth 10 <= x < (0 + 1) * bucketWidth 10
         else (0 - 1) * bucketWidth 10 < x <= 0 * bucketWidth 10)
       (eventsForSecond s 0).
Proof.
  apply ingest_slice_bounds.
  - repeat constructor; unfold timestampOK; simpl; lia.
  - lia.
  - unfold secondOK. lia.
Defined.

(** *** finalizeSingles *)

Lemma finalizeSingles_fold (chans : list Singles) (keys : list Z) :
  forall (init : gmap Z Singles) (ch : Z),
  foldl (fun result ch =>
           match chans !! Z.to_nat ch with
           | Some s =>
               match eventsPerSecond s with
               | [] => result
               | _ :: _ =>
                   match result !! ch with
                   | Some _ => result
                   | None => <[ch := s]> result
                   end
               end
           | None => result
           end) init keys !! ch
  = match init !! ch with
    | Some s => Some s
    | None =>
        if bool_decide (ch ∈ keys) then
          match chans !! Z.to_nat ch with
          | Some s => match eventsPerSecond s with [] => None | _ :: _ => Some s end
          | None => None
          end
        else None
    end.
Proof.
  induction keys as [|k keys IH]; intros init ch.
  - simpl. destruct (init !! ch); reflexivity.
  - cbn [foldl]. rewrite IH. clear IH.
    destruct (decide (ch = k)) as [->|Hne].
    + rewrite (bool_decide_true (k ∈ k :: keys)) by (left).
      destruct (chans !! Z.to_nat k) as [s|] eqn:Hs.
      * destruct (eventsPerSecond s) as [|b bs] eqn:Hev.
        -- destruct (init !! k); [reflexivity|].
           destruct (bool_decide (k ∈ keys)); reflexivity.
        -- destruct (init !! k) as [s0|] eqn:Hinit.
           ++ rewrite Hinit. reflexivity.
           ++ rewrite lookup_insert_eq. reflexivity.
      * destruct (init !! k); [reflexivity|].
        destruct (bool_decide (k ∈ keys)); reflexivity.
    + assert (Hsame : forall m : gmap Z Singles,
                m !! ch = init !! ch ->
                match m !! ch with
                | Some s => Some s
                | None =>
                    if bool_decide (ch ∈ keys) then
                      match chans !! Z.to_nat ch with
                      | Some s =>
                          match eventsPerSecond s with
                          | [] => None | _ :: _ => Some s end
                      | None => None
                      end
                    else None
                end
                = match init !! ch with
                  | Some s => Some s
                  | None =>
                      if bool_decide (ch ∈ k :: keys) then
                        match chans !! Z.to_nat ch with
                        | Some s =>
                            match eventsPerSecond s with
                            | [] => None | _ :: _ => Some s end
                        | None => None
                        end
                      else None
                  end).
      { intros m ->. destruct (init !! ch); [reflexivity|].
        destruct (decide (ch ∈ keys)) as [Hin|Hnin].
        - rewrite !bool_decide_true; [reflexivity|right; exact Hin|exact Hin].
        - rewrite !bool_decide_false; [reflexivity| |exact Hnin].
          intros Hin. apply elem_of_cons in Hin as [?|?]; congruence. }
      apply Hsame.
      destruct (chans !! Z.to_nat k) as [s|]; [|reflexivity].
      destruct (eventsPerSecond s); [reflexivity|].
      destruct (init !! k); [reflexivity|].
      apply lookup_insert_ne. congruence.
Qed.

Lemma finalizeSingles_lookup (chans : list Singles) (ch : Z) :
  finalizeSingles chans !! ch
  = if bool_decide (1 <= ch <= 8) then
      match chans !! Z.to_nat ch with
      | Some s => match eventsPerSecond s with [] => None | _ :: _ => Some s end
      | None => None
      end
    else None.
Proof.
  unfold finalizeSingles. rewrite finalizeSingles_fold, lookup_empty.
  destruct (decide (1 <= ch <= 8)) as [Hin|Hout].
  - rewrite !bool_decide_true; [reflexivity|exact Hin|].
    apply elem_of_seqZ. unfold kMaxChannels. lia.
  - rewrite !bool_decide_false; [reflexivity|exact Hout|].
    rewrite elem_of_seqZ. unfold kMaxChannels. lia.
Qed.

Lemma channelOffsets_nonempty (l : list (Z * Z)) (ch : Z) :
  channelOffsets l ch <> []
  <-> exists e, e ∈ l /\ validEvent e = true /\ e.2 = ch.
Proof.
  unfold channelOffsets. split.
  - intros Hne.
    destruct (List.filter (fun e => validEvent e && (e.2 =? ch)) l)
      as [|e l0] eqn:Hf; [contradiction Hne; reflexivity|].
    assert (Hin : In e (List.filter (fun e => validEvent e && (e.2 =? ch)) l))
      by (rewrite Hf; left; reflexivity).
    apply List.filter_In in Hin as [Hin Hp].
    apply andb_true_iff in Hp as [Hv Hc]. apply Z.eqb_eq in Hc.
    exists e. split; [apply list_elem_of_In; exact Hin|]. split; assumption.
  - intros (e & Hin & Hv & Hc) Hnil.
    assert (Hf : In e (List.filter (fun e => validEvent e && (e.2 =? ch)) l)).
    { apply List.filter_In. split; [apply list_elem_of_In; exact Hin|].
      rewrite Hv. apply Z.eqb_eq in Hc. rewrite Hc. reflexivity. }
    destruct (List.filter (fun e => validEvent e && (e.2 =? ch)) l);
      [exact Hf|discriminate].
Qed.

Lemma binEvent_exact (r : Z * Z) :
  0 <= r.1 <= 2 ^ 60 -> 0 <= r.2 < 2 ^ 16 ->
  binEvent r = (r.1, r.2 + 1).
Proof.
  intros H1 H2. unfold binEvent.
  rewrite wrap_ll_small by lia. rewrite wrap_int_small by lia. reflexivity.
Qed.

(** X6.  The map returned by [readBINtoSingles], for time tags in range:
    channel [ch] is a key exactly when some record has the zero-based
    channel [ch - 1 <= 7] and a non-zero time tag; the value stored under
    [ch] carries that channel number, has at least one bucket, and each of
    its slices reads as the sorted offsets expected for it. *)
Theorem readBINtoSingles_channels (W : Z) (records : list (Z * Z)) (ch : Z) :
  Forall (fun r => 0 <= r.1 <= 2 ^ 60 /\ 0 <= r.2 < 2 ^ 16) records ->
  (is_Some ((readBINtoSingles W records).1 !! ch)
   <-> exists r, r ∈ records /\ r.1 <> 0 /\ r.2 + 1 = ch /\ ch <= 8)
  /\ forall s, (readBINtoSingles W records).1 !! ch = Some s ->
       channel s = ch
       /\ eventsPerSecond s <> []
       /\ forall t, secondOK t ->
            sortedBucket (eventsForSecond s t)
            /\ eventsForSecond s t
               ≡ₚ expectedBucket W (binEvent <$> records) ch t.
Proof.
  intros Hraw.
  assert (Hrange : Forall (fun e => timestampOK e.1) (binEvent <$> records)).
  { apply Forall_fmap. eapply Forall_impl; [exact Hraw|].
    intros r [H1 H2]. unfold compose. rewrite (binEvent_exact r H1 H2).
    unfold timestampOK. simpl. lia. }
  destruct (ingest_invariant W _ Hrange) as (_ & _ & Hchan).
  unfold readBINtoSingles. cbn [fst]. rewrite finalizeSingles_lookup.
  destruct (decide (1 <= ch <= 8)) as [Hch|Hch].
  - rewrite bool_decide_true by exact Hch.
    destruct (Hchan ch Hch) as (s & Hs & Hc & Hok & Hsorted & Hempty & Hread).
    rewrite Hs. split.
    + transitivity (channelOffsets (binEvent <$> records) ch <> []).
      * rewrite <- Hempty. destruct (eventsPerSecond s).
        -- split; [intros [? ?]; discriminate|intros H; contradiction H; reflexivity].
        -- split; [discriminate|eauto].
      * rewrite channelOffsets_nonempty. split.
        -- intros (e & Hin & Hv & He).
           apply list_elem_of_fmap in Hin as (r & -> & Hin).
           rewrite Forall_forall in Hraw. destruct (Hraw r Hin) as [H1 H2].
           rewrite (binEvent_exact r H1 H2) in Hv, He.
           unfold validEvent in Hv. cbn [fst snd] in *.
           exists r. split; [exact Hin|].
           destruct (Z.eqb_spec (r.1) 0); [rewrite andb_false_r in Hv; discriminate|].
           repeat split; [assumption|assumption|lia].
        -- intros (r & Hin & Hnz & Hc' & _).
           rewrite Forall_forall in Hraw. destruct (Hraw r Hin) as [H1 H2].
           exists (binEvent r). split; [apply list_elem_of_fmap; eauto|].
           rewrite (binEvent_exact r H1 H2). unfold validEvent. cbn [fst snd].
           split; [|exact Hc'].
           destruct (Z.leb_spec 1 (r.2 + 1)); [|lia].
           destruct (Z.leb_spec (r.2 + 1) 8); [|lia].
           destruct (Z.eqb_spec (r.1) 0); [contradiction|reflexivity].
    + intros s0 Hs0. destruct (eventsPerSecond s) eqn:Hev; [discriminate|].
      injection Hs0 as <-. split; [exact Hc|]. split; [rewrite Hev; discriminate|].
      intros t Ht. rewrite (eventsForSecond_bucketAt s t Hok Ht).
      split; [apply sortedBuckets_read; exact Hsorted|apply Hread].
  - rewrite bool_decide_false by exact Hch. split.
    + split; [intros [? ?]; discriminate|].
      intros (r & Hin & _ & Hc' & Hle).
      rewrite Forall_forall in Hraw. destruct (Hraw r Hin) as [_ H2]. lia.
    + intros s0 Hs0. discriminate.
Qed.

Lemma readBINtoSingles_channels_witness :
  (is_Some ((readBINtoSingles 10 [(100, 0); (0, 0); (117, 8); (112, 0); (130, 1)]).1
              !! 2)
   <-> exists r, r ∈ [(100, 0); (0, 0); (117, 8); (112, 0); (130, 1)]
                 /\ r.1 <> 0 /\ r.2 + 1 = 2 /\ 2 <= 8)
  /\ forall s,
       (readBINtoSingles 10 [(100, 0); (0, 0); (117, 8); (112, 0); (130, 1)]).1
         !! 2 = Some s ->
       channel s = 2
       /\ eventsPerSecond s <> []
       /\ forall t, secondOK t ->
            sortedBucket (eventsForSecond s t)
            /\ eventsForSecond s t
               ≡ₚ expectedBucket 10
                    (binEvent <$> [(100, 0); (0, 0); (117, 8); (112, 0); (130, 1)])
                    2 t.
Proof.
  apply readBINtoSingles_channels.
  repeat constructor; simpl; lia.
Defined.

(** *** The measurement duration *)

Lemma ingest_time_span W l :
  Forall (fun e => validEvent e = true -> 0 < e.1 < 2 ^ 63) l ->
  let ts := List.map fst (List.filter validEvent l) in
  match ts with
  | [] => minTime (ingest W l) = LLONG_MAX /\ maxTime (ingest W l) = 0
  | _ :: _ =>
      minTime (ingest W l) ∈ ts /\ maxTime (ingest W l) ∈ ts
      /\ Forall (fun x => minTime (ingest W l) <= x <= maxTime (ingest W l)) ts
  end.
Proof.
  induction l as [|e l IH] using rev_ind; intros Hpos; [split; reflexivity|].
  apply Forall_app in Hpos as [Hl He]. apply Forall_cons in He as [He _].
  specialize (IH Hl). cbv zeta in *.
  rewrite ingest_snoc, List.filter_app, List.map_app.
  destruct e as [ts0 ch0]. cbn [fst snd] in *.
  unfold ingestEvent. rewrite ingest_test. simpl List.filter.
  destruct (validEvent (ts0, ch0)) eqn:Hv; cbn [negb].
  { specialize (He eq_refl). cbn [minTime maxTime].
    set (st := ingest W l) in *.
    destruct (List.map fst (List.filter validEvent l)) as [|x0 xs] eqn:Hts.
    - destruct IH as [Hmin Hmax]. rewrite Hmin, Hmax. unfold LLONG_MAX.
      simpl. destruct (Z.gtb_spec ts0 0); [|lia].
      assert (Hm : (if ts0 <? 2 ^ 63 - 1 then ts0 else 2 ^ 63 - 1) = ts0)
        by (destruct (Z.ltb_spec ts0 (2 ^ 63 - 1)); lia).
      rewrite Hm. split; [left|]. split; [left|].
      constructor; [lia|constructor].
    - destruct IH as (Hmin & Hmax & Hall).
      change ((x0 :: xs) ++ List.map fst [(ts0, ch0)])
        with ((x0 :: xs) ++ [ts0]).
      destruct ((x0 :: xs) ++ [ts0]) as [|y0 ys] eqn:Hnew;
        [destruct xs; discriminate|].
      rewrite <- Hnew. clear Hnew.
      assert (Hlo : minTime st <= maxTime st).
      { apply Forall_cons in Hall as [? _]. lia. }
      split; [|split].
      + destruct (Z.ltb_spec ts0 (minTime st)).
        * apply elem_of_app. right. left.
        * apply elem_of_app. left. exact Hmin.
      + destruct (Z.gtb_spec ts0 (maxTime st)).
        * apply elem_of_app. right. left.
        * apply elem_of_app. left. exact Hmax.
      + apply Forall_app. split.
        * eapply Forall_impl; [exact Hall|]. intros x Hx. simpl in Hx.
          destruct (Z.ltb_spec ts0 (minTime st)),
            (Z.gtb_spec ts0 (maxTime st)); lia.
        * constructor; [|constructor].
          destruct (Z.ltb_spec ts0 (minTime st)),
            (Z.gtb_spec ts0 (maxTime st)); lia. }
  simpl. rewrite app_nil_r. exact IH.
Qed.

(** X7.  The duration a reader reports, for positive timestamps: 0.0 when
    no event is valid; otherwise the binary64 product of the span between
    the smallest and the largest valid timestamp with 1e-12, and 0.0 when
    the two coincide.  Invalid events do not count. *)
Theorem ingest_duration (W : Z) (events : list (Z * Z)) :
  Forall (fun e => validEvent e = true -> 0 < e.1 < 2 ^ 63) events ->
  let ts := List.map fst (List.filter validEvent events) in
  match ts with
  | [] => durationSeconds (ingest W events) = f64_zero
  | _ :: _ =>
      exists lo hi,
        lo ∈ ts /\ hi ∈ ts /\ Forall (fun x => lo <= x <= hi) ts
        /\ durationSeconds (ingest W events)
           = if hi >? lo then f64_mul (f64_of_ll (hi - lo)) f64_1e_12
             else f64_zero
  end.
Proof.
  intros Hpos. pose proof (ingest_time_span W events Hpos) as Hspan.
  cbv zeta in *. unfold durationSeconds.
  destruct (List.map fst (List.filter validEvent events)) as [|x0 xs] eqn:Hts.
  - destruct Hspan as [-> ->]. reflexivity.
  - destruct Hspan as (Hmin & Hmax & Hall).
    exists (minTime (ingest W events)), (maxTime (ingest W events)).
    split; [exact Hmin|]. split; [exact Hmax|]. split; [exact Hall|].
    assert (Hvalid : Forall (fun x => 0 < x < 2 ^ 63) (x0 :: xs)).
    { rewrite <- Hts. apply Forall_forall. intros x Hx.
      apply list_elem_of_In, List.in_map_iff in Hx as (e & <- & He).
      apply List.filter_In in He as [He Hv].
      rewrite Forall_forall in Hpos. apply Hpos; [|exact Hv].
      apply list_elem_of_In. exact He. }
    rewrite Forall_forall in Hvalid.
    pose proof (Hvalid _ Hmin). pose proof (Hvalid _ Hmax).
    destruct (_ >? _); [|reflexivity].
    unfold ll_sub. rewrite wrap_ll_small by lia. reflexivity.
Qed.

Lemma ingest_duration_witness :
  exists lo hi,
    lo ∈ [100; 117; 112] /\ hi ∈ [100; 117; 112]
    /\ Forall (fun x => lo <= x <= hi) [100; 117; 112]
    /\ durationSeconds (ingest 10 [(100, 1); (0, 1); (117, 1); (112, 9); (112, 2)])
       = if hi >? lo then f64_mul (f64_of_ll (hi - lo)) f64_1e_12
         else f64_zero.
Proof.
  apply (ingest_duration 10 [(100, 1); (0, 1); (117, 1); (112, 9); (112, 2)]).
  repeat constructor; simpl; intros; try discriminate; lia.
Defined.

(** ** ReadCSV.cpp: hasEnding *)

(** X8.  [hasEnding] holds exactly when [ending] is a suffix of [str]; in
    particular it is false, and reads nothing out of bounds, when [ending]
    is the longer of the two. *)
Theorem hasEnding_suffix (str ending : list Ascii.ascii) :
  hasEnding str ending = true <-> ending `suffix_of` str.
Proof.
  unfold hasEnding. rewrite andb_true_iff, Nat.leb_le, bool_decide_eq_true.
  split.
  - intros [Hlen Heq]. exists (take (length str - length ending) str).
    rewrite <- Heq at 2.
    rewrite (take_ge (drop (length str - length ending) str))
      by (rewrite length_drop; lia).
    rewrite take_drop. reflexivity.
  - intros [k ->]. rewrite length_app. split; [lia|].
    replace (length k + length ending - length ending)%nat
      with (length k) by lia.
    rewrite drop_app_length. apply take_ge. lia.
Qed.

(** ** RollingSingles.cpp: pruning *)

Lemma pruneSingles_idem (m : Z) (s : Singles) :
  pruneSingles m (pruneSingles m s) = pruneSingles m s.
Proof.
  unfold pruneSingles at 2 3.
  destruct (eventsPerSecond s) as [|b bs] eqn:Hev.
  { unfold pruneSingles. rewrite Hev. reflexivity. }
  destruct (_ <? m) eqn:Hstale.
  { unfold pruneSingles. rewrite Hev, Hstale. reflexivity. }
  destruct (baseSecond s >=? m) eqn:Hbase.
  { unfold pruneSingles. rewrite Hev, Hstale, Hbase. reflexivity. }
  destruct (ll_sub m (baseSecond s) <=? 0) eqn:Hdrop.
  { unfold pruneSingles. rewrite Hev, Hstale, Hbase, Hdrop. reflexivity. }
  destruct (_ >=? Z.of_nat (length (b :: bs))) eqn:Hall.
  { reflexivity. }
  unfold pruneSingles. cbn [baseSecond eventsPerSecond channel].
  destruct (drop _ (b :: bs)) as [|b' bs']; [reflexivity|].
  destruct (ll_sub (ll_add m _) 1 <? m); [reflexivity|].
  destruct (Z.geb_spec m m); [reflexivity|lia].
Qed.

Lemma prune_prune (r : RollingSingles) : prune (prune r) = prune r.
Proof.
  unfold prune at 2. destruct (latestSecond_ r =? LLONG_MIN) eqn:Hmin.
  { unfold prune. rewrite Hmin. reflexivity. }
  unfold prune. cbn [latestSecond_ windowSeconds_ channels_ latestChunks_].
  rewrite Hmin. f_equal.
  rewrite <- map_fmap_compose. apply map_fmap_ext.
  intros ch s _. apply pruneSingles_idem.
Qed.

(** X9.  [prune] is idempotent: pruning a pruned store changes nothing,
    whatever the store holds. *)
Theorem prune_idempotent (r : RollingSingles) : prune (prune r) = prune r.
Proof. exact (prune_prune r). Qed.

(** [pruneSingles] in exact arithmetic: a channel is trimmed when it starts
    before [m] and reaches [m]; otherwise it is returned as it is. *)
Lemma pruneSingles_exact (m : Z) (s : Singles) :
  secondsOK s -> - 2 ^ 62 - 1 <= m <= 2 ^ 62 + 1 ->
  pruneSingles m s
  = if (baseSecond s <? m)
       && (m <=? baseSecond s + Z.of_nat (length (eventsPerSecond s)) - 1)
    then {| channel := channel s; baseSecond := m;
            eventsPerSecond :=
              drop (Z.to_nat (m - baseSecond s)) (eventsPerSecond s) |}
    else s.
Proof.
  intros [Hb Hl] Hm. unfold pruneSingles.
  destruct (eventsPerSecond s) as [|b bs] eqn:Hev.
  { cbn [length]. replace (baseSecond s + Z.of_nat 0 - 1) with (baseSecond s - 1) by lia.
    destruct (Z.ltb_spec (baseSecond s) m), (Z.leb_spec m (baseSecond s - 1));
      try reflexivity; lia. }
  set (n := Z.of_nat (length (b :: bs))) in *.
  assert (Hn : 0 < n) by (unfold n; cbn [length]; lia).
  assert (E1 : ll_sub (ll_add (baseSecond s) (wrap_ll n)) 1
               = baseSecond s + n - 1).
  { unfold ll_sub, ll_add. rewrite (wrap_ll_small n) by lia.
    rewrite (wrap_ll_small (baseSecond s + n)) by lia.
    apply wrap_ll_small. lia. }
  rewrite E1.
  destruct (Z.ltb_spec (baseSecond s + n - 1) m) as [Hstale|Hreach].
  { destruct (Z.leb_spec m (baseSecond s + n - 1)); [lia|].
    rewrite andb_false_r. reflexivity. }
  destruct (Z.geb_spec (baseSecond s) m) as [Hge|Hlt].
  { destruct (Z.ltb_spec (baseSecond s) m); [lia|]. reflexivity. }
  destruct (Z.ltb_spec (baseSecond s) m); [|lia].
  destruct (Z.leb_spec m (baseSecond s + n - 1)); [|lia]. cbn [andb].
  assert (E2 : ll_sub m (baseSecond s) = m - baseSecond s)
    by (unfold ll_sub; apply wrap_ll_small; lia).
  rewrite E2.
  destruct (Z.leb_spec (m - baseSecond s) 0); [lia|].
  rewrite wrap_size_small by lia.
  destruct (Z.geb_spec (m - baseSecond s) n); [lia|].
  reflexivity.
Qed.

Lemma pruneSingles_OK (m : Z) (s : Singles) :
  secondsOK s -> - 2 ^ 62 - 1 <= m <= 2 ^ 62 + 1 ->
  secondsOK (pruneSingles m s)
  /\ channel (pruneSingles m s) = channel s
  /\ (eventsPerSecond s <> [] -> eventsPerSecond (pruneSingles m s) <> []).
Proof.
  intros Hs Hm. rewrite (pruneSingles_exact m s Hs Hm).
  destruct Hs as [Hb Hl].
  destruct (Z.ltb_spec (baseSecond s) m) as [Hlt|Hge]; cbn [andb].
  2:{ split; [split; assumption|]. split; [reflexivity|]. intros H; exact H. }
  destruct (Z.leb_spec m (baseSecond s + Z.of_nat (length (eventsPerSecond s)) - 1))
    as [Hreach|Hstale].
  2:{ split; [split; assumption|]. split; [reflexivity|]. intros H; exact H. }
  cbn [channel baseSecond eventsPerSecond].
  split; [|split; [reflexivity|]].
  - split; cbn [baseSecond eventsPerSecond]; [lia|].
    rewrite length_drop. lia.
  - intros _ Hnil. apply (f_equal length) in Hnil.
    rewrite length_drop in Hnil. cbn [length] in Hnil. lia.
Qed.

Lemma pruneSingles_bucketAt (m : Z) (s : Singles) (t : Z) :
  secondsOK s -> - 2 ^ 62 - 1 <= m <= 2 ^ 62 + 1 ->
  bucketAt (pruneSingles m s) t
  = if (baseSecond s <? m)
       && (m <=? baseSecond s + Z.of_nat (length (eventsPerSecond s)) - 1)
       && (t <? m)
    then None else bucketAt s t.
Proof.
  intros Hs Hm. rewrite (pruneSingles_exact m s Hs Hm).
  destruct (Z.ltb_spec (baseSecond s) m) as [Hlt|Hge]; cbn [andb];
    [|reflexivity].
  destruct (Z.leb_spec m (baseSecond s + Z.of_nat (length (eventsPerSecond s)) - 1))
    as [Hreach|Hstale]; cbn [andb]; [|reflexivity].
  unfold bucketAt. cbn [baseSecond eventsPerSecond].
  destruct (Z.ltb_spec t m) as [Ht|Ht]; [reflexivity|].
  destruct (Z.ltb_spec t (baseSecond s)); [lia|].
  rewrite lookup_drop. f_equal. lia.
Qed.

Lemma prune_eventsForSecond (r : RollingSingles) (ch t : Z) :
  latestSecond_ r <> LLONG_MIN ->
  secondOK (latestSecond_ r) -> picoseconds (windowSeconds_ r) ->
  (forall s, channels_ r !! ch = Some s -> secondsOK s) ->
  secondOK t ->
  let m := latestSecond_ r - windowSeconds_ r + 1 in
  let s := channelSingles r ch in
  eventsForSecond (channelSingles (prune r) ch) t
  = if (baseSecond s <? m)
       && (m <=? baseSecond s + Z.of_nat (length (eventsPerSecond s)) - 1)
       && (t <? m)
    then [] else eventsForSecond s t.
Proof.
  intros Hlatest Hl Hw Hstored Ht m s.
  unfold secondOK, picoseconds in Hl, Hw.
  assert (Em : ll_add (ll_sub (latestSecond_ r) (windowSeconds_ r)) 1 = m).
  { unfold ll_add, ll_sub. rewrite (wrap_ll_small (_ - _)) by lia.
    apply wrap_ll_small. lia. }
  assert (Hm : - 2 ^ 62 - 1 <= m <= 2 ^ 62 + 1) by (unfold m; lia).
  unfold prune. destruct (Z.eqb_spec (latestSecond_ r) LLONG_MIN); [contradiction|].
  rewrite Em. unfold s, channelSingles. cbn [channels_].
  rewrite lookup_fmap.
  destruct (channels_ r !! ch) as [s0|] eqn:Hs0;
    cbn [fmap option_fmap option_map default from_option id].
  - pose proof (Hstored s0 eq_refl) as Hok.
    destruct (pruneSingles_OK m s0 Hok Hm) as (Hok' & _).
    rewrite (eventsForSecond_bucketAt _ t Hok' Ht),
      (eventsForSecond_bucketAt _ t Hok Ht), pruneSingles_bucketAt
      by assumption.
    destruct (_ && _ && _); reflexivity.
  - unfold emptySingles. cbn [baseSecond eventsPerSecond length].
    unfold eventsForSecond. cbn [eventsPerSecond].
    destruct (_ && _ && _); reflexivity.
Qed.

(** X10.  What [prune] hides: with [m = latestSecond_ - windowSeconds_ + 1],
    a channel that starts before [m] and reaches [m] loses exactly the
    slices older than [m]; every slice from [m] on, and every slice of a
    channel that ends before [m], reads as before. *)
Theorem prune_reads (r : RollingSingles) (ch t : Z) :
  latestSecond_ r <> LLONG_MIN ->
  secondOK (latestSecond_ r) -> picoseconds (windowSeconds_ r) ->
  (forall s, channels_ r !! ch = Some s -> secondsOK s) ->
  secondOK t ->
  let m := latestSecond_ r - windowSeconds_ r + 1 in
  let s := channelSingles r ch in
  eventsForSecond (channelSingles (prune r) ch) t
  = if (baseSecond s <? m)
       && (m <=? baseSecond s + Z.of_nat (length (eventsPerSecond s)) - 1)
       && (t <? m)
    then [] else eventsForSecond s t.
Proof. exact (prune_eventsForSecond r ch t). Qed.

Lemma prune_reads_witness :
  let r := {| channels_ :=
                {[ 1 := {| channel := 1; baseSecond := 0;
                           eventsPerSecond := [[1]; [2]; [3]; [4]] |} ]};
              latestChunks_ := ∅; windowSeconds_ := 2; latestSecond_ := 3 |} in
  eventsForSecond (channelSingles (prune r) 1) 1 = []
  /\ eventsForSecond (channelSingles (prune r) 1) 2 = [3].
Proof.
  intros r.
  assert (Hlatest : latestSecond_ r <> LLONG_MIN) by (vm_compute; discriminate).
  assert (Hl : secondOK (latestSecond_ r)) by (unfold secondOK; simpl; lia).
  assert (Hw : picoseconds (windowSeconds_ r)) by (unfold picoseconds; simpl; lia).
  assert (Hstored : forall s, channels_ r !! 1 = Some s -> secondsOK s).
  { intros s Hs. vm_compute in Hs. injection Hs as <-.
    unfold secondsOK. simpl. lia. }
  split.
  - exact (prune_reads r 1 1 Hlatest Hl Hw Hstored ltac:(unfold secondOK; lia)).
  - exact (prune_reads r 1 2 Hlatest Hl Hw Hstored ltac:(unfold secondOK; lia)).
Defined.

(** X11.  [prune] never removes or empties a channel: every stored channel
    is still stored, under the same channel number, and one that had
    buckets keeps at least one; the branch that clears a channel cannot be
    reached. *)
Theorem prune_never_clears (r : RollingSingles) (ch : Z) (s : Singles) :
  secondOK (latestSecond_ r) -> picoseconds (windowSeconds_ r) ->
  secondsOK s ->
  channels_ r !! ch = Some s ->
  exists s',
    channels_ (prune r) !! ch = Some s'
    /\ channel s' = channel s
    /\ secondsOK s'
    /\ (eventsPerSecond s <> [] -> eventsPerSecond s' <> []).
Proof.
  intros Hl Hw Hok Hs. unfold secondOK, picoseconds in Hl, Hw.
  unfold prune. destruct (latestSecond_ r =? LLONG_MIN).
  { exists s. split; [exact Hs|]. split; [reflexivity|].
    split; [exact Hok|]. intros H; exact H. }
  cbn [channels_]. rewrite lookup_fmap, Hs. cbn [fmap option_fmap option_map].
  eexists. split; [reflexivity|].
  assert (Em : ll_add (ll_sub (latestSecond_ r) (windowSeconds_ r)) 1
               = latestSecond_ r - windowSeconds_ r + 1).
  { unfold ll_add, ll_sub. rewrite (wrap_ll_small (_ - _)) by lia.
    apply wrap_ll_small. lia. }
  rewrite Em.
  destruct (pruneSingles_OK (latestSecond_ r - windowSeconds_ r + 1) s Hok
              ltac:(lia)) as (Hok' & Hc & Hne).
  split; [exact Hc|]. split; [exact Hok'|exact Hne].
Qed.

Lemma prune_never_clears_witness :
  let s := {| channel := 1; baseSecond := 0;
              eventsPerSecond := [[1]; [2]; [3]; [4]] |} in
  let r := {| channels_ := {[ 1 := s ]};
              latestChunks_ := ∅; windowSeconds_ := 0; latestSecond_ := 3 |} in
  exists s',
    channels_ (prune r) !! 1 = Some s'
    /\ channel s' = channel s
    /\ secondsOK s'
    /\ (eventsPerSecond s <> [] -> eventsPerSecond s' <> []).
Proof.
  intros s r. apply (prune_never_clears r 1 s).
  - unfold secondOK. simpl. lia.
  - unfold picoseconds. simpl. lia.
  - unfold secondsOK. simpl. lia.
  - reflexivity.
Defined.

(** ** RollingSingles.cpp: merging a chunk *)

Lemma bucketAt_cons (c b : Z) (src : list Z) (rest : list (list Z)) (t : Z) :
  default [] (bucketAt {| channel := c; baseSecond := b;
                          eventsPerSecond := src :: rest |} t)
  = (if bool_decide (t = b) then src else [])
    ++ default [] (bucketAt {| channel := c; baseSecond := b + 1;
                               eventsPerSecond := rest |} t).
Proof.
  unfold bucketAt. cbn [baseSecond eventsPerSecond].
  destruct (decide (t = b)) as [->|Hne].
  - rewrite bool_decide_true by reflexivity.
    rewrite Z.ltb_irrefl, Z.sub_diag.
    destruct (Z.ltb_spec b (b + 1)); [|lia].
    simpl. rewrite app_nil_r. reflexivity.
  - rewrite bool_decide_false by exact Hne.
    destruct (Z.ltb_spec t b), (Z.ltb_spec t (b + 1)); try lia; [reflexivity|].
    replace (Z.to_nat (t - b)) with (S (Z.to_nat (t - (b + 1)))) by lia.
    reflexivity.
Qed.

(** The loop over the incoming buckets: every slice of the target reads
    as before followed by the incoming bucket of that slice. *)
Lemma appendBuckets_spec (base : Z) (buckets : list (list Z)) :
  forall (idx : nat) (target : Singles) (latest : Z),
  secondsOK target ->
  - 2 ^ 61 <= base ->
  base + Z.of_nat idx + Z.of_nat (length buckets) - 1 <= 2 ^ 61 ->
  exists target' latest',
    appendBuckets base buckets idx target latest = (target', latest')
    /\ channel target' = channel target
    /\ secondsOK target'
    /\ (eventsPerSecond target <> [] \/ buckets <> [] ->
        eventsPerSecond target' <> [])
    /\ latest' = match buckets with
                 | [] => latest
                 | _ :: _ =>
                     Z.max latest (base + Z.of_nat idx
                                   + Z.of_nat (length buckets) - 1)
                 end
    /\ forall t,
         default [] (bucketAt target' t)
         = default [] (bucketAt target t)
           ++ default [] (bucketAt {| channel := 0;
                                      baseSecond := base + Z.of_nat idx;
                                      eventsPerSecond := buckets |} t).
Proof.
  induction buckets as [|src rest IH]; intros idx target latest Hok Hbase Hend.
  - exists target, latest. split; [reflexivity|]. split; [reflexivity|].
    split; [exact Hok|]. split; [intros [H|H]; [exact H|congruence]|].
    split; [reflexivity|]. intros t. unfold bucketAt at 3.
    cbn [baseSecond eventsPerSecond].
    destruct (_ <? _); [|rewrite lookup_nil]; rewrite app_nil_r; reflexivity.
  - cbn [length] in Hend. cbn [appendBuckets].
    assert (Esec : ll_add base (wrap_ll (Z.of_nat idx)) = base + Z.of_nat idx).
    { unfold ll_add. rewrite (wrap_ll_small (Z.of_nat idx)) by lia.
      apply wrap_ll_small. lia. }
    rewrite Esec. set (second := base + Z.of_nat idx) in *.
    assert (HsecOK : secondOK second) by (unfold secondOK, second; lia).
    destruct (ensureSecond_spec target second Hok HsecOK)
      as (s1 & i & He & Hch & Hok1 & Hidx & Hat & Hnew & Hold & _).
    rewrite He.
    set (target'' := {| channel := channel s1; baseSecond := baseSecond s1;
                        eventsPerSecond :=
                          alter (fun bucket => bucket ++ src) i
                                (eventsPerSecond s1) |}).
    assert (Hok'' : secondsOK target'').
    { destruct Hok1 as [H1 H2]. split; cbn [baseSecond eventsPerSecond target''];
        [exact H1|]. rewrite length_alter. exact H2. }
    assert (Hread'' : forall t,
      default [] (bucketAt target'' t)
      = default [] (bucketAt target t)
        ++ (if bool_decide (t = second) then src else [])).
    { intros t. unfold target''. rewrite bucketAt_alter, Hidx.
      pose proof (ensureSecond_reads target second Hok HsecOK t) as Hr.
      rewrite He in Hr. cbn [fst] in Hr.
      destruct (decide (t = second)) as [->|Hne].
      - rewrite !bool_decide_true by reflexivity. rewrite Hat.
        cbn [fmap option_fmap option_map default from_option id].
        reflexivity.
      - rewrite !bool_decide_false by exact Hne. rewrite app_nil_r.
        exact Hr. }
    assert (Hne'' : eventsPerSecond target'' <> []).
    { intros Hnil. unfold target'' in Hnil. cbn [eventsPerSecond] in Hnil.
      apply (f_equal length) in Hnil. rewrite length_alter in Hnil.
      unfold bucketAt in Hat. destruct (second <? baseSecond s1); [discriminate|].
      apply lookup_lt_Some in Hat. cbn [length] in Hnil. lia. }
    destruct (IH (S idx) target'' (Z.max latest second) Hok'' Hbase
                ltac:(lia))
      as (target' & latest' & Hrun & Hch' & Hok' & Hne' & Hlatest & Hread).
    exists target', latest'. split; [exact Hrun|].
    split; [rewrite Hch'; exact Hch|]. split; [exact Hok'|].
    split; [intros _; apply Hne'; left; exact Hne''|].
    split.
    + rewrite Hlatest. destruct rest as [|src' rest']; cbn [length]; lia.
    + intros t. rewrite Hread, Hread'', <- app_assoc. f_equal.
      rewrite bucketAt_cons. f_equal.
      replace (base + Z.of_nat (S idx)) with (second + 1)
        by (unfold second; lia).
      reflexivity.
Qed.

Lemma emptySingles_OK : secondsOK emptySingles.
Proof. unfold secondsOK, emptySingles. simpl. lia. Qed.

Lemma bucketAt_empty (s : Singles) (t : Z) :
  eventsPerSecond s = [] -> bucketAt s t = None.
Proof.
  intros Hnil. unfold bucketAt. rewrite Hnil.
  destruct (_ <? _); [reflexivity|apply lookup_nil].
Qed.

(** One entry of the chunk: only its channel changes, and there every
    slice reads as before followed by the incoming bucket of that slice. *)
Lemma appendEntry_spec (ch : Z) (incoming : Singles) (r : RollingSingles) :
  secondsOK incoming ->
  (forall s, channels_ r !! ch = Some s -> secondsOK s) ->
  windowSeconds_ (appendEntry ch incoming r) = windowSeconds_ r
  /\ (forall k, k <> ch ->
        channels_ (appendEntry ch incoming r) !! k = channels_ r !! k)
  /\ (forall s', channels_ (appendEntry ch incoming r) !! ch = Some s' ->
        secondsOK s')
  /\ (forall t,
        default [] (bucketAt (channelSingles (appendEntry ch incoming r) ch) t)
        = default [] (bucketAt (channelSingles r ch) t)
          ++ default [] (bucketAt incoming t))
  /\ latestSecond_ (appendEntry ch incoming r)
     = match eventsPerSecond incoming with
       | [] => latestSecond_ r
       | _ :: _ =>
           Z.max (latestSecond_ r)
                 (baseSecond incoming
                  + Z.of_nat (length (eventsPerSecond incoming)) - 1)
       end.
Proof.
  intros Hinc Hstored. unfold appendEntry.
  destruct (eventsPerSecond incoming) as [|b bs] eqn:Hev.
  { split; [reflexivity|]. split; [reflexivity|]. split; [exact Hstored|].
    split; [|reflexivity]. intros t.
    rewrite (bucketAt_empty incoming t Hev). cbn [default from_option].
    rewrite app_nil_r. reflexivity. }
  rewrite <- Hev.
  set (target0 := default emptySingles (channels_ r !! ch)).
  set (target1 := match eventsPerSecond target0 with
                  | [] => {| channel := channel incoming;
                             baseSecond := baseSecond target0;
                             eventsPerSecond := eventsPerSecond target0 |}
                  | _ :: _ => target0
                  end).
  assert (Hok0 : secondsOK target0).
  { unfold target0. destruct (channels_ r !! ch) as [s|] eqn:Hs.
    - apply Hstored. reflexivity.
    - apply emptySingles_OK. }
  assert (Hsame : baseSecond target1 = baseSecond target0
                  /\ eventsPerSecond target1 = eventsPerSecond target0).
  { unfold target1. destruct (eventsPerSecond target0) eqn:E0;
      split; first [reflexivity | exact E0 | symmetry; exact E0]. }
  destruct Hsame as [Hb1 He1].
  assert (Hok1 : secondsOK target1).
  { unfold secondsOK. rewrite Hb1, He1. exact Hok0. }
  destruct Hinc as [HbI HlI].
  destruct (appendBuckets_spec (baseSecond incoming) (eventsPerSecond incoming)
              0 target1 (latestSecond_ r) Hok1 HbI
              ltac:(change (Z.of_nat 0) with 0; lia))
    as (target & latest & Hrun & _ & Hok & _ & Hlatest & Hread).
  rewrite Hrun. cbn [windowSeconds_ channels_ latestSecond_].
  split; [reflexivity|].
  split; [intros k Hk; apply lookup_insert_ne; congruence|].
  split; [intros s'; rewrite lookup_insert_eq; intros [= <-]; exact Hok|].
  split.
  - intros t. unfold channelSingles at 1. cbn [channels_].
    rewrite lookup_insert_eq. cbn [default from_option id].
    rewrite Hread. f_equal.
    + fold target0. unfold bucketAt. rewrite Hb1, He1. reflexivity.
    + unfold bucketAt. cbn [baseSecond eventsPerSecond].
      change (Z.of_nat 0) with 0. rewrite Z.add_0_r. reflexivity.
  - rewrite Hlatest, Hev. change (Z.of_nat 0) with 0. f_equal. lia.
Qed.

(** An entry for another channel leaves a channel as it is, and no entry
    changes the window length. *)
Lemma appendEntry_other (k : Z) (inc : Singles) (r : RollingSingles) (ch : Z) :
  k <> ch -> channels_ (appendEntry k inc r) !! ch = channels_ r !! ch.
Proof.
  intros Hne. unfold appendEntry.
  destruct (eventsPerSecond inc); [reflexivity|].
  destruct (appendBuckets _ _ _ _ _) as [target latest]. cbn [channels_].
  apply lookup_insert_ne. exact Hne.
Qed.

Lemma appendEntry_window (k : Z) (inc : Singles) (r : RollingSingles) :
  windowSeconds_ (appendEntry k inc r) = windowSeconds_ r.
Proof.
  unfold appendEntry. destruct (eventsPerSecond inc); [reflexivity|].
  destruct (appendBuckets _ _ _ _ _) as [target latest]. reflexivity.
Qed.

Lemma appendEntries_window (entries : list (Z * Singles)) :
  forall r : RollingSingles,
  windowSeconds_ (foldl (fun r entry => appendEntry entry.1 entry.2 r) r entries)
  = windowSeconds_ r.
Proof.
  induction entries as [|[k inc] rest IH]; intros r; [reflexivity|].
  cbn [foldl fst snd]. rewrite IH. apply appendEntry_window.
Qed.

(** [latestSecond_] does not depend on the stored channels. *)
Lemma appendBuckets_latest (base : Z) (buckets : list (list Z)) :
  forall (idx : nat) (target : Singles) (latest : Z),
  - 2 ^ 61 <= base ->
  base + Z.of_nat idx + Z.of_nat (length buckets) - 1 <= 2 ^ 61 ->
  (appendBuckets base buckets idx target latest).2
  = match buckets with
    | [] => latest
    | _ :: _ =>
        Z.max latest (base + Z.of_nat idx + Z.of_nat (length buckets) - 1)
    end.
Proof.
  induction buckets as [|src rest IH]; intros idx target latest Hbase Hend;
    [reflexivity|].
  cbn [length] in Hend. cbn [appendBuckets].
  assert (Esec : ll_add base (wrap_ll (Z.of_nat idx)) = base + Z.of_nat idx).
  { unfold ll_add. rewrite (wrap_ll_small (Z.of_nat idx)) by lia.
    apply wrap_ll_small. lia. }
  rewrite Esec. destruct (ensureSecond target _) as [s1 i].
  rewrite IH by lia. destruct rest as [|src' rest']; cbn [length]; lia.
Qed.

Lemma appendEntry_latest (k : Z) (inc : Singles) (r : RollingSingles) :
  secondsOK inc ->
  latestSecond_ (appendEntry k inc r)
  = match eventsPerSecond inc with
    | [] => latestSecond_ r
    | _ :: _ =>
        Z.max (latestSecond_ r)
              (baseSecond inc + Z.of_nat (length (eventsPerSecond inc)) - 1)
    end.
Proof.
  intros [Hb Hl]. unfold appendEntry.
  destruct (eventsPerSecond inc) as [|b bs] eqn:Hev; [reflexivity|].
  rewrite <- Hev.
  match goal with
  | |- context [appendBuckets ?b ?bk ?i ?tg ?lt] =>
      pose proof (appendBuckets_latest b bk i tg lt Hb
                    ltac:(change (Z.of_nat 0) with 0; rewrite Hev; lia))
        as Hlatest;
      destruct (appendBuckets b bk i tg lt) as [target latest]
  end.
  cbn [latestSecond_ snd] in *. rewrite Hlatest, Hev.
  change (Z.of_nat 0) with 0. f_equal. lia.
Qed.

Lemma appendEntries_latest (entries : list (Z * Singles)) :
  forall r : RollingSingles,
  Forall (fun e => secondsOK e.2) entries ->
  let r' := foldl (fun r entry => appendEntry entry.1 entry.2 r) r entries in
  latestSecond_ r <= latestSecond_ r'
  /\ (forall k inc, (k, inc) ∈ entries -> eventsPerSecond inc <> [] ->
        baseSecond inc + Z.of_nat (length (eventsPerSecond inc)) - 1
        <= latestSecond_ r')
  /\ (latestSecond_ r' = latestSecond_ r
      \/ exists k inc,
           (k, inc) ∈ entries /\ eventsPerSecond inc <> []
           /\ latestSecond_ r'
              = baseSecond inc + Z.of_nat (length (eventsPerSecond inc)) - 1).
Proof.
  induction entries as [|[k inc] rest IH]; intros r Hok; cbv zeta.
  - cbn [foldl]. split; [lia|]. split; [|left; reflexivity].
    intros k inc Hin. inversion Hin.
  - cbn [foldl fst snd]. apply Forall_cons in Hok as [Hinc Hok].
    cbn [snd] in Hinc.
    pose proof (appendEntry_latest k inc r Hinc) as Hlatest1.
    set (r1 := appendEntry k inc r) in *.
    destruct (IH r1 Hok) as (Hle & Hge & Heq). cbv zeta in *.
    set (r' := foldl (fun r entry => appendEntry entry.1 entry.2 r) r1 rest) in *.
    assert (Hle1 : latestSecond_ r <= latestSecond_ r1).
    { rewrite Hlatest1. destruct (eventsPerSecond inc); lia. }
    split; [lia|]. split.
    + intros k' inc' Hin Hne. apply elem_of_cons in Hin as [[= -> ->]|Hin].
      * rewrite Hlatest1 in Hle. destruct (eventsPerSecond inc); [congruence|].
        lia.
      * apply (Hge k' inc' Hin Hne).
    + destruct Heq as [Heq|(k' & inc' & Hin & Hne & Heq)].
      * rewrite Heq, Hlatest1.
        destruct (eventsPerSecond inc) as [|b bs] eqn:Hev; [left; reflexivity|].
        destruct (Z.max_spec (latestSecond_ r)
                    (baseSecond inc + Z.of_nat (length (b :: bs)) - 1))
          as [[_ ->]|[_ ->]].
        -- right. exists k, inc. split; [left|]. rewrite Hev.
           split; [discriminate|reflexivity].
        -- left. reflexivity.
      * right. exists k', inc'. split; [right; exact Hin|].
        split; [exact Hne|exact Heq].
Qed.

(** The loop over the entries of the chunk, seen from one channel, for
    entries with distinct channels. *)
Lemma appendEntries_reads (entries : list (Z * Singles)) (ch : Z) :
  forall r : RollingSingles,
  NoDup entries.*1 ->
  Forall (fun e => secondsOK e.2) entries ->
  (forall s, channels_ r !! ch = Some s -> secondsOK s) ->
  let r' := foldl (fun r entry => appendEntry entry.1 entry.2 r) r entries in
  (forall s, channels_ r' !! ch = Some s -> secondsOK s)
  /\ (forall t,
        default [] (bucketAt (channelSingles r' ch) t)
        = default [] (bucketAt (channelSingles r ch) t)
          ++ default []
               (bucketAt
                  (default emptySingles
                     ((list_to_map entries : gmap Z Singles) !! ch)) t)).
Proof.
  induction entries as [|[k inc] rest IH]; intros r Hnodup Hok Hstored; cbv zeta.
  - cbn [foldl]. split; [exact Hstored|].
    intros t. rewrite list_to_map_nil, lookup_empty.
    cbn [default from_option].
    rewrite (bucketAt_empty emptySingles t eq_refl). cbn [default from_option].
    rewrite app_nil_r. reflexivity.
  - cbn [foldl fst snd]. apply Forall_cons in Hok as [Hinc Hok].
    cbn [snd] in Hinc. rewrite fmap_cons in Hnodup. cbn [fst] in Hnodup.
    apply NoDup_cons in Hnodup as [Hk Hnodup].
    set (r1 := appendEntry k inc r) in *.
    destruct (decide (k = ch)) as [->|Hne].
    + destruct (appendEntry_spec ch inc r Hinc Hstored)
        as (_ & _ & Hok1 & Hread1 & _).
      fold r1 in Hok1, Hread1.
      destruct (IH r1 Hnodup Hok Hok1) as (Hst & Hread). cbv zeta in *.
      split; [exact Hst|]. intros t.
      rewrite Hread, Hread1, list_to_map_cons, lookup_insert_eq.
      rewrite (not_elem_of_list_to_map_1 rest ch Hk).
      cbn [default from_option id].
      rewrite (bucketAt_empty emptySingles t eq_refl).
      cbn [default from_option]. rewrite app_nil_r. reflexivity.
    + pose proof (appendEntry_other k inc r ch Hne) as Hsame. fold r1 in Hsame.
      assert (Hstored1 : forall s, channels_ r1 !! ch = Some s -> secondsOK s).
      { intros s Hs. rewrite Hsame in Hs. apply (Hstored s Hs). }
      destruct (IH r1 Hnodup Hok Hstored1) as (Hst & Hread). cbv zeta in *.
      split; [exact Hst|]. intros t.
      rewrite Hread, list_to_map_cons, lookup_insert_ne by exact Hne.
      unfold channelSingles at 1. rewrite Hsame. reflexivity.
Qed.

Lemma entriesInKeyOrder_map (chunk : gmap Z Singles) :
  NoDup (entriesInKeyOrder chunk).*1
  /\ (list_to_map (entriesInKeyOrder chunk) : gmap Z Singles) = chunk
  /\ forall k inc, (k, inc) ∈ entriesInKeyOrder chunk <-> chunk !! k = Some inc.
Proof.
  assert (Hperm : entriesInKeyOrder chunk ≡ₚ map_to_list chunk)
    by apply merge_sort_Permutation.
  split; [|split].
  - rewrite Hperm. apply NoDup_fst_map_to_list.
  - rewrite <- (list_to_map_to_list chunk) at 2.
    apply list_to_map_proper; [|exact Hperm].
    rewrite Hperm. apply NoDup_fst_map_to_list.
  - intros k inc. rewrite Hperm. apply elem_of_map_to_list.
Qed.

Lemma channelSingles_OK (r : RollingSingles) (ch : Z) :
  (forall s, channels_ r !! ch = Some s -> secondsOK s) ->
  secondsOK (channelSingles r ch).
Proof.
  intros Hstored. unfold channelSingles.
  destruct (channels_ r !! ch) as [s|]; [apply Hstored; reflexivity|].
  apply emptySingles_OK.
Qed.

Lemma prune_latestSecond (r : RollingSingles) :
  latestSecond_ (prune r) = latestSecond_ r
  /\ windowSeconds_ (prune r) = windowSeconds_ r
  /\ latestChunks_ (prune r) = latestChunks_ r.
Proof.
  unfold prune. destruct (_ =? _); repeat split; reflexivity.
Qed.

Lemma appendChunk_eventsForSecond
    (chunk : gmap Z Singles) (r : RollingSingles) (ch t : Z) :
  (forall s, channels_ r !! ch = Some s -> secondsOK s) ->
  (forall k inc, chunk !! k = Some inc -> secondsOK inc) ->
  picoseconds (windowSeconds_ r) ->
  latestSecond_ r = LLONG_MIN \/ secondOK (latestSecond_ r) ->
  secondOK t ->
  latestSecond_ (appendChunk chunk r) - windowSeconds_ r + 1 <= t ->
  eventsForSecond (channelSingles (appendChunk chunk r) ch) t
  = eventsForSecond (channelSingles r ch) t
    ++ eventsForSecond (default emptySingles (chunk !! ch)) t.
Proof.
  intros Hstored Hchunk Hw Hlatest Ht Hin.
  destruct (entriesInKeyOrder_map chunk) as (Hnodup & Hmap & Helem).
  assert (Hok : Forall (fun e => secondsOK e.2) (entriesInKeyOrder chunk)).
  { apply Forall_forall. intros [k inc] Hkin. apply (Hchunk k inc).
    apply Helem. exact Hkin. }
  unfold appendChunk in *.
  destruct (appendEntries_reads _ ch r Hnodup Hok Hstored) as (Hst1 & Hread).
  destruct (appendEntries_latest _ r Hok) as (_ & _ & Heq).
  pose proof (appendEntries_window (entriesInKeyOrder chunk) r) as Hwin.
  cbv zeta in *. rewrite Hmap in Hread.
  set (r1 := foldl (fun r entry => appendEntry entry.1 entry.2 r) r
                   (entriesInKeyOrder chunk)) in *.
  destruct (prune_latestSecond r1) as (Hl & _ & _). rewrite Hl in Hin.
  assert (Hinc : secondsOK (default emptySingles (chunk !! ch))).
  { destruct (chunk !! ch) as [inc|] eqn:Hc; [apply (Hchunk ch inc Hc)|].
    apply emptySingles_OK. }
  rewrite (eventsForSecond_bucketAt _ t (channelSingles_OK r ch Hstored) Ht),
    (eventsForSecond_bucketAt _ t Hinc Ht), <- Hread.
  rewrite <- (eventsForSecond_bucketAt _ t (channelSingles_OK r1 ch Hst1) Ht).
  destruct (Z.eq_dec (latestSecond_ r1) LLONG_MIN) as [Hmin|Hmin].
  { unfold prune. rewrite Hmin, Z.eqb_refl. reflexivity. }
  assert (Hl1 : secondOK (latestSecond_ r1)).
  { destruct Heq as [Heq|(k & inc & Hkin & Hne & Heq)].
    - rewrite Heq in *. destruct Hlatest; [contradiction|assumption].
    - rewrite Heq. apply Helem in Hkin.
      destruct (Hchunk k inc Hkin) as [Hb Hlen]. unfold secondOK.
      destruct (eventsPerSecond inc); [congruence|]. cbn [length] in *. lia. }
  rewrite <- Hwin in Hw, Hin.
  rewrite (prune_eventsForSecond r1 ch t Hmin Hl1 Hw Hst1 Ht).
  destruct (Z.ltb_spec t (latestSecond_ r1 - windowSeconds_ r1 + 1)); [lia|].
  rewrite andb_false_r. reflexivity.
Qed.

(** X12.  What [appendChunk] stores, for seconds in range: for every
    channel and every slice not older than
    [latestSecond_ - windowSeconds_ + 1] (taken after the call), the slice
    reads as it did before followed by the bucket the chunk brings for it;
    a channel absent from the chunk reads as before. *)
Theorem appendChunk_reads
    (chunk : gmap Z Singles) (r : RollingSingles) (ch t : Z) :
  (forall s, channels_ r !! ch = Some s -> secondsOK s) ->
  (forall k inc, chunk !! k = Some inc -> secondsOK inc) ->
  picoseconds (windowSeconds_ r) ->
  latestSecond_ r = LLONG_MIN \/ secondOK (latestSecond_ r) ->
  secondOK t ->
  latestSecond_ (appendChunk chunk r) - windowSeconds_ r + 1 <= t ->
  eventsForSecond (channelSingles (appendChunk chunk r) ch) t
  = eventsForSecond (channelSingles r ch) t
    ++ eventsForSecond (default emptySingles (chunk !! ch)) t.
Proof. exact (appendChunk_eventsForSecond chunk r ch t). Qed.

Lemma appendChunk_reads_witness :
  let r := {| channels_ :=
                {[ 1 := {| channel := 1; baseSecond := 0;
                           eventsPerSecond := [[1]; [2; 3]] |} ]};
              latestChunks_ := ∅; windowSeconds_ := 2; latestSecond_ := 1 |} in
  let chunk : gmap Z Singles :=
    {[ 1 := {| channel := 1; baseSecond := 1;
               eventsPerSecond := [[4]; [5]] |} ]} in
  eventsForSecond (channelSingles (appendChunk chunk r) 1) 1 = [2; 3; 4].
Proof.
  intros r chunk.
  apply (appendChunk_reads chunk r 1 1).
  - intros s Hs. vm_compute in Hs. injection Hs as <-.
    unfold secondsOK. simpl. lia.
  - intros k inc Hk. unfold chunk in Hk.
    apply lookup_singleton_Some in Hk as [_ <-].
    unfold secondsOK. simpl. lia.
  - unfold picoseconds. simpl. lia.
  - right. unfold secondOK. simpl. lia.
  - unfold secondOK. lia.
  - vm_compute. discriminate.
Defined.

Lemma appendEntry_latestChunks (k : Z) (inc : Singles) (r : RollingSingles) :
  latestChunks_ (appendEntry k inc r)
  = match eventsPerSecond inc with
    | [] => latestChunks_ r
    | _ :: _ => <[k := eventsPerSecond inc]> (latestChunks_ r)
    end.
Proof.
  unfold appendEntry. destruct (eventsPerSecond inc) as [|b bs]; [reflexivity|].
  destruct (appendBuckets _ _ _ _ _) as [target latest]. reflexivity.
Qed.

Lemma appendEntries_latestChunks (entries : list (Z * Singles)) (ch : Z) :
  forall r : RollingSingles,
  NoDup entries.*1 ->
  latestChunks_ (foldl (fun r entry => appendEntry entry.1 entry.2 r) r entries)
    !! ch
  = match (list_to_map entries : gmap Z Singles) !! ch with
    | Some inc =>
        match eventsPerSecond inc with
        | [] => latestChunks_ r !! ch
        | _ :: _ => Some (eventsPerSecond inc)
        end
    | None => latestChunks_ r !! ch
    end.
Proof.
  induction entries as [|[k inc] rest IH]; intros r Hnodup.
  - cbn [foldl]. rewrite list_to_map_nil, lookup_empty. reflexivity.
  - cbn [foldl fst snd]. rewrite fmap_cons in Hnodup. cbn [fst] in Hnodup.
    apply NoDup_cons in Hnodup as [Hk Hnodup].
    rewrite (IH _ Hnodup), list_to_map_cons, appendEntry_latestChunks.
    destruct (decide (k = ch)) as [->|Hne].
    + rewrite lookup_insert_eq, (not_elem_of_list_to_map_1 rest ch Hk).
      destruct (eventsPerSecond inc); [reflexivity|].
      rewrite lookup_insert_eq. reflexivity.
    + rewrite lookup_insert_ne by exact Hne.
      destruct ((list_to_map rest : gmap Z Singles) !! ch) as [inc'|].
      * destruct (eventsPerSecond inc'); [|reflexivity].
        destruct (eventsPerSecond inc); [reflexivity|].
        apply lookup_insert_ne. exact Hne.
      * destruct (eventsPerSecond inc); [reflexivity|].
        apply lookup_insert_ne. exact Hne.
Qed.

(** X13.  The snapshot [latestChunk] after [appendChunk]: for a channel the
    chunk brings with at least one bucket it is the incoming bucket list,
    verbatim; for a channel the chunk lacks, or brings without buckets, it
    is the snapshot of before.  Pruning never touches it. *)
Theorem appendChunk_latestChunk
    (chunk : gmap Z Singles) (r : RollingSingles) (ch : Z) :
  latestChunk (appendChunk chunk r) ch
  = match chunk !! ch with
    | Some inc =>
        match eventsPerSecond inc with
        | [] => latestChunk r ch
        | _ :: _ => eventsPerSecond inc
        end
    | None => latestChunk r ch
    end.
Proof.
  destruct (entriesInKeyOrder_map chunk) as (Hnodup & Hmap & _).
  unfold latestChunk, appendChunk.
  destruct (prune_latestSecond
              (foldl (fun r entry => appendEntry entry.1 entry.2 r) r
                     (entriesInKeyOrder chunk))) as (_ & _ & ->).
  rewrite (appendEntries_latestChunks _ ch r Hnodup), Hmap.
  destruct (chunk !! ch) as [inc|]; [|reflexivity].
  destruct (eventsPerSecond inc); reflexivity.
Qed.

(** X14.  [latestSecond_] after [appendChunk] is the greatest of its old
    value and the last seconds of the incoming channels that have buckets:
    it never decreases, it bounds each of them, and it is one of them. *)
Theorem appendChunk_latestSecond (chunk : gmap Z Singles) (r : RollingSingles) :
  (forall k inc, chunk !! k = Some inc -> secondsOK inc) ->
  latestSecond_ r <= latestSecond_ (appendChunk chunk r)
  /\ (forall k inc, chunk !! k = Some inc -> eventsPerSecond inc <> [] ->
        baseSecond inc + Z.of_nat (length (eventsPerSecond inc)) - 1
        <= latestSecond_ (appendChunk chunk r))
  /\ (latestSecond_ (appendChunk chunk r) = latestSecond_ r
      \/ exists k inc,
           chunk !! k = Some inc /\ eventsPerSecond inc <> []
           /\ latestSecond_ (appendChunk chunk r)
              = baseSecond inc + Z.of_nat (length (eventsPerSecond inc)) - 1).
Proof.
  intros Hchunk.
  destruct (entriesInKeyOrder_map chunk) as (_ & _ & Helem).
  assert (Hok : Forall (fun e => secondsOK e.2) (entriesInKeyOrder chunk)).
  { apply Forall_forall. intros [k inc] Hkin. apply (Hchunk k inc).
    apply Helem. exact Hkin. }
  unfold appendChunk.
  destruct (prune_latestSecond
              (foldl (fun r entry => appendEntry entry.1 entry.2 r) r
                     (entriesInKeyOrder chunk))) as (-> & _ & _).
  destruct (appendEntries_latest _ r Hok) as (Hle & Hge & Heq). cbv zeta in *.
  split; [exact Hle|]. split.
  - intros k inc Hk. apply (Hge k inc). apply Helem. exact Hk.
  - destruct Heq as [Heq|(k & inc & Hin & Hne & Heq)]; [left; exact Heq|].
    right. exists k, inc. split; [apply Helem; exact Hin|].
    split; [exact Hne|exact Heq].
Qed.

Lemma appendChunk_latestSecond_witness :
  let r := newRollingSingles 3 in
  let chunk : gmap Z Singles :=
    {[ 1 := {| channel := 1; baseSecond := 4;
               eventsPerSecond := [[4]; [5]] |} ]} in
  latestSecond_ r <= latestSecond_ (appendChunk chunk r)
  /\ (forall k inc, chunk !! k = Some inc -> eventsPerSecond inc <> [] ->
        baseSecond inc + Z.of_nat (length (eventsPerSecond inc)) - 1
        <= latestSecond_ (appendChunk chunk r))
  /\ (latestSecond_ (appendChunk chunk r) = latestSecond_ r
      \/ exists k inc,
           chunk !! k = Some inc /\ eventsPerSecond inc <> []
           /\ latestSecond_ (appendChunk chunk r)
              = baseSecond inc + Z.of_nat (length (eventsPerSecond inc)) - 1).
Proof.
  intros r chunk. apply (appendChunk_latestSecond chunk r).
  intros k inc Hk. unfold chunk in Hk.
  apply lookup_singleton_Some in Hk as [_ <-].
  unfold secondsOK. simpl. lia.
Defined.

(** ** The fixed-delay sweep against the cross-product count *)

Lemma hit_bounds w d a b : 0 <= hit w d a b <= 1.
Proof. unfold hit. destruct (in_window w d a b); lia. Qed.

Lemma crossCount_cons_l a A B w d :
  crossCount (a :: A) B w d = sumZ (fun b => hit w d a b) B + crossCount A B w d.
Proof. reflexivity. Qed.

Lemma sumZ_add {X} (f g : X -> Z) l :
  sumZ (fun x => f x + g x) l = sumZ f l + sumZ g l.
Proof.
  induction l as [|x l IH]; [reflexivity|].
  cbn [sumZ foldr]. fold (sumZ f l) (sumZ g l) (sumZ (fun x => f x + g x) l).
  rewrite IH. lia.
Qed.

Lemma crossCount_cons_r b A B w d :
  crossCount A (b :: B) w d
  = sumZ (fun a => hit w d a b) A + crossCount A B w d.
Proof.
  unfold crossCount.
  change (sumZ (fun a => hit w d a b + sumZ (fun b0 => hit w d a b0) B) A
          = sumZ (fun a => hit w d a b) A
            + sumZ (fun a => sumZ (fun b0 => hit w d a b0) B) A).
  apply sumZ_add.
Qed.

Lemma sumZ_nonneg {X} (f : X -> Z) l :
  (forall x, 0 <= f x <= 1) -> 0 <= sumZ f l.
Proof. intros Hf. pose proof (sumZ_bounds f l Hf). lia. Qed.

Lemma sumZ_pos_exists {X} (f : X -> Z) l :
  0 < sumZ f l -> exists i x, l !! i = Some x /\ f x <> 0.
Proof.
  induction l as [|y l IH]; cbn [sumZ foldr]; [lia|]. intros Hpos.
  destruct (Z.eq_dec (f y) 0) as [Hy|Hy].
  - fold (sumZ f l) in Hpos. destruct (IH ltac:(lia)) as (i & x & Hi & Hx).
    exists (S i), x. split; assumption.
  - exists 0%nat, y. split; [reflexivity|exact Hy].
Qed.

Lemma sumZ_lookup_le {X} (f : X -> Z) l i x :
  (forall x, 0 <= f x <= 1) -> l !! i = Some x -> f x <= sumZ f l.
Proof.
  intros Hf. revert i. induction l as [|y l IH]; intros i Hi; [discriminate|].
  cbn [sumZ foldr]. fold (sumZ f l). pose proof (sumZ_nonneg f l Hf).
  destruct i as [|i]; simpl in Hi.
  - injection Hi as ->. lia.
  - specialize (IH i Hi). pose proof (Hf y). lia.
Qed.

Lemma sorted_lookup_le l i j x y :
  Sorted Z.le l -> l !! i = Some x -> l !! j = Some y -> (i <= j)%nat -> x <= y.
Proof.
  intros Hs Hi Hj Hij.
  assert (Hss : StronglySorted Z.le l).
  { apply Sorted_StronglySorted; [|exact Hs]. intros a b c. apply Z.le_trans. }
  pose proof (sorted_drop_ge l Hss i x Hi) as Hge.
  rewrite Forall_lookup in Hge. apply (Hge (j - i)%nat).
  rewrite lookup_drop. replace (i + (j - i))%nat with j by lia. exact Hj.
Qed.

Section SweepBounds.
Variables (A B : list Z) (w d : Z).
Hypothesis A_range : Forall picoseconds A.
Hypothesis B_range : Forall picoseconds B.
Hypothesis d_range : picoseconds d.

(** The loop adds to the counter at most the number of pairs in the window
    that lie ahead of it, and at most the events left in either view. *)
Lemma pairSweep_bounds fuel : forall i j c,
  0 <= c ->
  c + Z.of_nat (Nat.min (length A - i) (length B - j)) < 2 ^ 31 ->
  c <= pairSweep fuel A B (- w) w d c i j
  /\ pairSweep fuel A B (- w) w d c i j
     <= c + crossCount (drop i A) (drop j B) w d
  /\ pairSweep fuel A B (- w) w d c i j
     <= c + Z.of_nat (Nat.min (length A - i) (length B - j)).
Proof.
  induction fuel as [|fuel IH]; intros i j c Hc Hsize.
  { pose proof (crossCount_bounds (drop i A) (drop j B) w d). simpl. lia. }
  pose proof (crossCount_bounds (drop i A) (drop j B) w d) as Hcc.
  cbn [pairSweep].
  destruct (A !! i) as [a|] eqn:Ha; [|lia].
  destruct (B !! j) as [b|] eqn:Hb; [|lia].
  pose proof (lookup_lt_Some _ _ _ Ha) as Hi.
  pose proof (lookup_lt_Some _ _ _ Hb) as Hj.
  rewrite (pair_diff_exact A B d A_range B_range d_range i j a b Ha Hb).
  rewrite (drop_S A a i Ha), (drop_S B b j Hb) in *.
  pose proof (crossCount_bounds (drop (S i) A) (drop (S j) B) w d) as Hcc'.
  destruct (Z.ltb_spec (a - d - b) (- w)) as [Hlo|Hlo].
  { destruct (IH (S i) j c Hc ltac:(lia)) as (H1 & H2 & H3).
    rewrite (drop_S B b j Hb) in H2. rewrite crossCount_cons_l.
    pose proof (sumZ_nonneg (fun b0 => hit w d a b0) (b :: drop (S j) B)
                  (hit_bounds w d a)).
    lia. }
  destruct (Z.gtb_spec (a - d - b) w) as [Hhi|Hhi].
  { destruct (IH i (S j) c Hc ltac:(lia)) as (H1 & H2 & H3).
    rewrite (drop_S A a i Ha) in H2. rewrite crossCount_cons_r.
    pose proof (sumZ_nonneg (fun a0 => hit w d a0 b) (a :: drop (S i) A)
                  (fun a0 => hit_bounds w d a0 b)).
    lia. }
  rewrite wrap_int_small by lia.
  destruct (IH (S i) (S j) (c + 1) ltac:(lia) ltac:(lia)) as (H1 & H2 & H3).
  rewrite crossCount_cons_l, crossCount_cons_r.
  cbn [sumZ foldr]. fold (sumZ (fun b0 => hit w d a b0) (drop (S j) B)).
  fold (sumZ (fun a0 => hit w d a0 b) (drop (S i) A)).
  pose proof (sumZ_nonneg (fun b0 => hit w d a b0) (drop (S j) B)
                (hit_bounds w d a)).
  pose proof (sumZ_nonneg (fun a0 => hit w d a0 b) (drop (S i) A)
                (fun a0 => hit_bounds w d a0 b)).
  assert (Hhit : hit w d a b = 1).
  { unfold hit, in_window. destruct (Z.leb_spec (Z.abs (a - d - b)) w); lia. }
  lia.
Qed.

Hypothesis A_sorted : Sorted Z.le A.
Hypothesis B_sorted : Sorted Z.le B.

(** On sorted views the loop cannot step past a pair that lies in the
    window without counting a match. *)
Lemma pairSweep_finds i' j' a' b' :
  A !! i' = Some a' -> B !! j' = Some b' -> in_window w d a' b' = true ->
  forall fuel i j c,
  (i <= i')%nat -> (j <= j')%nat ->
  (length A - i + (length B - j) <= fuel)%nat ->
  0 <= c ->
  c + Z.of_nat (Nat.min (length A - i) (length B - j)) < 2 ^ 31 ->
  c + 1 <= pairSweep fuel A B (- w) w d c i j.
Proof.
  intros Ha' Hb' Hin.
  pose proof (lookup_lt_Some _ _ _ Ha') as Hi'.
  pose proof (lookup_lt_Some _ _ _ Hb') as Hj'.
  unfold in_window in Hin. apply Z.leb_le in Hin.
  induction fuel as [|fuel IH]; intros i j c Hi Hj Hfuel Hc Hsize; [lia|].
  cbn [pairSweep].
  destruct (lookup_lt_is_Some_2 A i ltac:(lia)) as [a Ha].
  destruct (lookup_lt_is_Some_2 B j ltac:(lia)) as [b Hb].
  rewrite Ha, Hb.
  rewrite (pair_diff_exact A B d A_range B_range d_range i j a b Ha Hb).
  pose proof (sorted_lookup_le A i i' a a' A_sorted Ha Ha' Hi) as Hale.
  pose proof (sorted_lookup_le B j j' b b' B_sorted Hb Hb' Hj) as Hble.
  destruct (Z.ltb_spec (a - d - b) (- w)) as [Hlo|Hlo].
  { assert (i <> i').
    { intros ->. assert (a = a') by congruence. subst a'. lia. }
    apply IH; lia. }
  destruct (Z.gtb_spec (a - d - b) w) as [Hhi|Hhi].
  { assert (j <> j').
    { intros ->. assert (b = b') by congruence. subst b'. lia. }
    apply IH; lia. }
  rewrite wrap_int_small by lia.
  destruct (pairSweep_bounds fuel (S i) (S j) (c + 1) ltac:(lia) ltac:(lia))
    as (H1 & _). exact H1.
Qed.
End SweepBounds.

Lemma countCoincidencesWithDelay_bounds (A B : list Z) (w d : Z) :
  Forall picoseconds A -> Forall picoseconds B -> picoseconds d ->
  0 < w < 2 ^ 63 ->
  Z.of_nat (Nat.min (length A) (length B)) < 2 ^ 31 ->
  0 <= countCoincidencesWithDelay A B w d <= crossCount A B w d
  /\ countCoincidencesWithDelay A B w d
     <= Z.of_nat (Nat.min (length A) (length B))
  /\ (Sorted Z.le A -> Sorted Z.le B ->
      (countCoincidencesWithDelay A B w d = 0 <-> crossCount A B w d = 0)).
Proof.
  intros HA HB Hd Hw Hsize. unfold countCoincidencesWithDelay.
  rewrite (lower_bound_exact w Hw).
  destruct (pairSweep_bounds A B w d HA HB Hd (length A + length B) 0 0 0
              ltac:(lia) ltac:(rewrite !Nat.sub_0_r; lia))
    as (H1 & H2 & H3).
  rewrite !Nat.sub_0_r in H3. rewrite !drop_0 in H2.
  split; [lia|]. split; [lia|].
  intros HAs HBs. split; [|lia].
  intros Hzero. pose proof (crossCount_bounds A B w d) as Hcc.
  destruct (Z.eq_dec (crossCount A B w d) 0) as [|Hne]; [assumption|].
  exfalso. unfold crossCount in Hne, Hcc.
  destruct (sumZ_pos_exists (fun a => sumZ (fun b => hit w d a b) B) A
              ltac:(lia)) as (i & a & Hi & Hrow).
  pose proof (sumZ_nonneg (fun b => hit w d a b) B (hit_bounds w d a)) as Hr.
  destruct (sumZ_pos_exists (fun b => hit w d a b) B ltac:(lia))
    as (j & b & Hj & Hhit).
  assert (Hin : in_window w d a b = true).
  { unfold hit in Hhit. destruct (in_window w d a b); [reflexivity|lia]. }
  pose proof (pairSweep_finds A B w d HA HB Hd HAs HBs i j a b Hi Hj Hin
                (length A + length B) 0 0 0 ltac:(lia) ltac:(lia)
                ltac:(lia) ltac:(lia) ltac:(rewrite !Nat.sub_0_r; lia)).
  lia.
Qed.

(** X15.  The consuming sweep against the cross-product count at the same
    delay: [countCoincidencesWithDelay] never counts more than the number
    of pairs in the window, nor more than the events of the shorter view;
    on sorted views it returns 0 only when no pair at all lies in the
    window. *)
Theorem countCoincidencesWithDelay_vs_cross_count (A B : list Z) (w d : Z) :
  Forall picoseconds A -> Forall picoseconds B -> picoseconds d ->
  0 < w < 2 ^ 63 ->
  Z.of_nat (Nat.min (length A) (length B)) < 2 ^ 31 ->
  0 <= countCoincidencesWithDelay A B w d <= crossCount A B w d
  /\ countCoincidencesWithDelay A B w d
     <= Z.of_nat (Nat.min (length A) (length B))
  /\ (Sorted Z.le A -> Sorted Z.le B ->
      (countCoincidencesWithDelay A B w d = 0 <-> crossCount A B w d = 0)).
Proof. exact (countCoincidencesWithDelay_bounds A B w d). Qed.

Lemma countCoincidencesWithDelay_vs_cross_count_witness :
  0 <= countCoincidencesWithDelay [0; 10] [5] 10 0 <= crossCount [0; 10] [5] 10 0
  /\ countCoincidencesWithDelay [0; 10] [5] 10 0
     <= Z.of_nat (Nat.min (length [0; 10]) (length [5]))
  /\ (Sorted Z.le [0; 10] -> Sorted Z.le [5] ->
      (countCoincidencesWithDelay [0; 10] [5] 10 0 = 0
       <-> crossCount [0; 10] [5] 10 0 = 0)).
Proof.
  apply (countCoincidencesWithDelay_vs_cross_count [0; 10] [5] 10 0).
  - repeat constructor; unfold picoseconds; lia.
  - repeat constructor; unfold picoseconds; lia.
  - unfold picoseconds. lia.
  - lia.
  - simpl. lia.
Defined.

(** X16.  The fixed-delay counter against the histogram: at every point of
    the delay grid, [countCoincidencesWithDelay] returns at most the count
    that [computeCoincidencesForRange] stores for that point, and the two
    are zero together. *)
Theorem countCoincidencesWithDelay_vs_histogram
    (A B : list Z) (w start_ps end_ps step_ps : Z) (results : ScanResult)
    (k : nat) :
  Sorted Z.le A -> Sorted Z.le B ->
  0 < w -> 0 < step_ps -> start_ps <= end_ps ->
  Forall picoseconds A -> Forall picoseconds B ->
  picoseconds w -> picoseconds start_ps -> picoseconds end_ps ->
  picoseconds step_ps ->
  Z.of_nat (length A) * Z.of_nat (length B) < 2 ^ 31 ->
  Z.of_nat k < gridPoints start_ps end_ps step_ps ->
  exists x c,
    (computeCoincidencesForRange A B w start_ps end_ps step_ps results).1 !! k
    = Some (x, c)
    /\ 0 <= countCoincidencesWithDelay A B w (gridDelay start_ps step_ps k) <= c
    /\ (c = 0
        <-> countCoincidencesWithDelay A B w (gridDelay start_ps step_ps k) = 0).
Proof.
  intros HAs HBs Hw Hstep Hgrid HA HB Hwr Hsr Her Hstr Hpairs Hk.
  destruct (computeCoincidencesForRange_entries A B w start_ps end_ps
              step_ps results HAs HBs Hw Hstep Hgrid HA HB Hwr Hsr Her Hstr)
    as (res & Hres & Hlen & Hentry).
  unfold ScanResult, CoincidencePoint in *.
  rewrite Hres. cbn [fst]. rewrite (Hentry k ltac:(lia)).
  set (d := gridDelay start_ps step_ps k).
  pose proof (crossCount_bounds A B w d) as Hcc.
  rewrite wrap_int_small by lia.
  exists (delayNs d), (crossCount A B w d). split; [reflexivity|].
  assert (Hd : picoseconds d).
  { assert (Hst' : 0 < step_ps <= 2 ^ 61) by (unfold picoseconds in *; lia).
    pose proof (gridDelay_range w start_ps end_ps step_ps
                  ltac:(unfold picoseconds in *; lia) Hst' k Hk) as Hr.
    unfold picoseconds in *. fold d in Hr. lia. }
  destruct (countCoincidencesWithDelay_bounds A B w d HA HB Hd
              ltac:(unfold picoseconds in *; lia) ltac:(nia))
    as (H1 & _ & H3).
  split; [exact H1|]. symmetry. apply H3; assumption.
Qed.

Lemma countCoincidencesWithDelay_vs_histogram_witness :
  exists x c,
    (computeCoincidencesForRange [0; 10] [5] 10 (-10) 10 5 []).1 !! 2%nat
    = Some (x, c)
    /\ 0 <= countCoincidencesWithDelay [0; 10] [5] 10 (gridDelay (-10) 5 2) <= c
    /\ (c = 0
        <-> countCoincidencesWithDelay [0; 10] [5] 10 (gridDelay (-10) 5 2) = 0).
Proof.
  apply (countCoincidencesWithDelay_vs_histogram
           [0; 10] [5] 10 (-10) 10 5 [] 2);
    first [ unfold picoseconds; lia
          | repeat constructor; unfold picoseconds; lia
          | vm_compute; reflexivity
          | simpl; lia ].
Defined.

(** ** CoincPairs.cpp: the bridged views *)

Lemma spanView_spanWithNext (s : Singles) (second : Z) (scratch : list Z) :
  spanView s second (spanWithNext s second scratch)
  = eventsForSecond s second
    ++ take 1 (eventsForSecond s (wrap_int (second + 1)))
  /\ (span_size (spanWithNext s second scratch).1 = 0%nat
      <-> eventsForSecond s second
          ++ take 1 (eventsForSecond s (wrap_int (second + 1))) = []).
Proof.
  unfold spanView, spanWithNext, appendNextFirstEvent, span_elements.
  cbv zeta.
  destruct (eventsForSecond s (wrap_int (second + 1))) as [|front rest];
    destruct (eventsForSecond s second) as [|x cur];
    cbn [fst snd span_data span_size take app length].
  - split; [reflexivity|]. split; reflexivity.
  - rewrite take_ge by (cbn [length]; lia). rewrite app_nil_r.
    split; [reflexivity|]. split; [discriminate|discriminate].
  - split; [reflexivity|]. split; [discriminate|discriminate].
  - rewrite take_ge by (cbn [length]; rewrite length_app; cbn [length]; lia).
    split; [reflexivity|]. split; [discriminate|discriminate].
Qed.

Lemma countCoincidencesWithDelay_nil (A B : list Z) (w d : Z) :
  A = [] \/ B = [] -> countCoincidencesWithDelay A B w d = 0.
Proof.
  intros [->| ->]; unfold countCoincidencesWithDelay.
  - destruct (length [] + length B)%nat; reflexivity.
  - destruct (length A + length [])%nat; [reflexivity|].
    simpl. destruct (A !! 0%nat); reflexivity.
Qed.

(** X17.  [countAtDelay] without spans and buffers: it is the fixed-delay
    count of the two bridged buckets, each the bucket of [second] followed
    by the first event, if any, of the next bucket.  The scratch buffers
    only carry storage: what they held before the call has no influence
    on the count. *)
Theorem countAtDelay_bridged
    (s1 s2 : Singles) (second w d : Z) (scratch1 scratch2 : list Z) :
  (countAtDelay s1 s2 second w d scratch1 scratch2).1
  = countCoincidencesWithDelay
      (eventsForSecond s1 second
       ++ take 1 (eventsForSecond s1 (wrap_int (second + 1))))
      (eventsForSecond s2 second
       ++ take 1 (eventsForSecond s2 (wrap_int (second + 1))))
      w d.
Proof.
  unfold countAtDelay. cbv zeta.
  destruct (spanView_spanWithNext s1 second scratch1) as [Hv1 He1].
  destruct (spanView_spanWithNext s2 second scratch2) as [Hv2 He2].
  rewrite Hv1, Hv2.
  destruct (Nat.eqb_spec (span_size (spanWithNext s1 second scratch1).1) 0)
    as [H1|H1]; cbn [orb fst].
  { apply He1 in H1. rewrite H1. symmetry.
    apply countCoincidencesWithDelay_nil. left. reflexivity. }
  destruct (Nat.eqb_spec (span_size (spanWithNext s2 second scratch2).1) 0)
    as [H2|H2]; cbn [orb fst]; [|reflexivity].
  apply He2 in H2. rewrite H2. symmetry.
  apply countCoincidencesWithDelay_nil. right. reflexivity.
Qed.

Lemma quot_slices_ordered (W x y t : Z) :
  0 < W -> Z.quot x W = t -> Z.quot y W = t + 1 -> x <= y.
Proof.
  intros HW Hx Hy. destruct (Z_le_gt_dec x y) as [|Hgt]; [assumption|].
  pose proof (Z.quot_le_mono y x W HW ltac:(lia)). lia.
Qed.

(** X18.  The ingest loop and the bridge together: for events in range,
    whatever their order, the bridged view that [spanWithNext] hands to
    the counters for a channel 1..8 and a second is non-decreasing, as
    the counters require. *)
Theorem ingest_bridged_view_sorted
    (W : Z) (events : list (Z * Z)) (ch second : Z) (scratch : list Z) :
  Forall (fun e => timestampOK e.1) events ->
  1 <= ch <= 8 ->
  - 2 ^ 31 <= second < 2 ^ 31 - 1 ->
  exists s,
    channels (ingest W events) !! Z.to_nat ch = Some s
    /\ Sorted Z.le (spanView s second (spanWithNext s second scratch)).
Proof.
  intros Hrange Hch Hsec.
  destruct (ingest_invariant W events Hrange) as (_ & _ & Hchan).
  destruct (Hchan ch Hch) as (s & Hs & _ & Hok & Hsorted & _ & Hread).
  exists s. split; [exact Hs|].
  destruct (spanView_spanWithNext s second scratch) as [-> _].
  rewrite wrap_int_small by lia.
  assert (Ht : secondOK second) by (unfold secondOK; lia).
  assert (Ht' : secondOK (second + 1)) by (unfold secondOK; lia).
  rewrite (eventsForSecond_bucketAt s _ Hok Ht),
    (eventsForSecond_bucketAt s _ Hok Ht').
  pose proof (sortedBuckets_read s second Hsorted) as Hcur.
  assert (Hin : forall t x, x ∈ default [] (bucketAt s t) ->
                            Z.quot x (bucketWidth W) = t).
  { intros t x Hx. rewrite (Hread t) in Hx. apply list_elem_of_In in Hx.
    unfold expectedBucket in Hx. apply List.filter_In in Hx as [_ Hq].
    apply Z.eqb_eq. exact Hq. }
  destruct (default [] (bucketAt s (second + 1))) as [|front rest] eqn:Hnext.
  { cbn [take]. rewrite app_nil_r. exact Hcur. }
  cbn [take]. apply StronglySorted_Sorted, sorted_push_back.
  - apply Sorted_StronglySorted; [|exact Hcur].
    intros a b c. apply Z.le_trans.
  - intros back Hback.
    assert (Hb : back ∈ default [] (bucketAt s second)).
    { rewrite last_lookup in Hback. apply list_elem_of_lookup. eauto. }
    apply (quot_slices_ordered (bucketWidth W) back front second
             (bucketWidth_pos W) (Hin second back Hb)).
    apply Hin. rewrite Hnext. left.
Qed.

Lemma ingest_bridged_view_sorted_witness :
  exists s,
    channels (ingest 10 [(100, 1); (117, 1); (95, 1); (104, 1)])
      !! Z.to_nat 1 = Some s
    /\ Sorted Z.le (spanView s 0 (spanWithNext s 0 [])).
Proof.
  apply ingest_bridged_view_sorted.
  - repeat constructor; unfold timestampOK; simpl; lia.
  - lia.
  - lia.
Defined.

(** ** The N-fold counter under a common shift of the offsets *)

Lemma stdSort_shift (sort : list Tagged -> list Tagged) (c : Z)
    (l : list Tagged) :
  stdSort sort -> NoDup (timestamp <$> l) ->
  sort (shiftTagged c <$> l) = shiftTagged c <$> sort l.
Proof.
  intros Hsort Hnd.
  destruct (Hsort (shiftTagged c <$> l)) as [Hp Hs].
  destruct (Hsort l) as [Hp' Hs'].
  apply sorted_Permutation_unique.
  - rewrite Hp, Hp'. reflexivity.
  - rewrite Hp, <- list_fmap_compose.
    replace (timestamp ∘ shiftTagged c) with ((fun t => t + c) ∘ timestamp)
      by reflexivity.
    rewrite list_fmap_compose. apply NoDup_fmap_2; [|exact Hnd].
    intros x y Hxy. lia.
  - apply Sorted_StronglySorted; [|exact Hs].
    intros x y z. apply timestampLe_trans.
  - apply Sorted_StronglySorted; [intros x y z; apply timestampLe_trans|].
    apply Sorted_fmap with (R1 := timestampLe); [|exact Hs'].
    intros x y. unfold timestampLe, shiftTagged. cbn [timestamp]. lia.
Qed.

Lemma offset_select_shift (c : Z) (offsetsPs : list Z) (idx : nat) :
  (idx < length offsetsPs)%nat ->
  match Z.add c <$> offsetsPs with
  | [] => 0
  | _ :: _ => (Z.add c <$> offsetsPs) !!! idx
  end
  = c + match offsetsPs with
        | [] => 0
        | _ :: _ => offsetsPs !!! idx
        end.
Proof.
  intros Hi. destruct (lookup_lt_is_Some_2 offsetsPs idx Hi) as [o Ho].
  assert (Ho' : (Z.add c <$> offsetsPs) !! idx = Some (c + o))
    by (rewrite list_lookup_fmap, Ho; reflexivity).
  rewrite (list_lookup_total_correct _ _ _ Ho),
    (list_lookup_total_correct _ _ _ Ho').
  destruct offsetsPs; [discriminate|reflexivity].
Qed.

Lemma mergeChannels_shift (c : Z) (offsetsPs : list Z) (channels : list (list Z)) :
  picoseconds c ->
  Forall picoseconds offsetsPs ->
  Forall (Forall picoseconds) channels ->
  forall idx,
  (idx + length channels <= length offsetsPs)%nat ->
  mergeChannels channels (Z.add c <$> offsetsPs) idx
  = shiftTagged c <$> mergeChannels channels offsetsPs idx.
Proof.
  intros Hc Hoff Hch. induction Hch as [|ch rest Hts _ IH]; intros idx Hlen;
    [reflexivity|].
  cbn [length] in Hlen. cbn [mergeChannels].
  rewrite fmap_app, (IH (S idx)) by lia. f_equal.
  rewrite (offset_select_shift c offsetsPs idx ltac:(lia)).
  destruct (lookup_lt_is_Some_2 offsetsPs idx ltac:(lia)) as [o Ho].
  assert (Hsel : match offsetsPs with
                 | [] => 0
                 | _ :: _ => offsetsPs !!! idx
                 end = o).
  { rewrite (list_lookup_total_correct _ _ _ Ho).
    destruct offsetsPs; [discriminate|reflexivity]. }
  rewrite Hsel.
  pose proof (Forall_lookup_1 _ _ _ _ Hoff Ho) as Hor.
  clear -Hts Hc Hor. induction Hts as [|ts ch Hx _ IHch]; [reflexivity|].
  cbn [map]. rewrite fmap_cons, IHch. f_equal.
  unfold shiftTagged, ll_add, picoseconds in *. cbn [timestamp channelIdx].
  rewrite !wrap_ll_small by lia. f_equal. lia.
Qed.

Lemma channelIdx_shift_lookup (c : Z) (l : list Tagged) (i : nat) :
  channelIdx ((shiftTagged c <$> l) !!! i) = channelIdx (l !!! i).
Proof.
  rewrite !list_lookup_total_alt, list_lookup_fmap.
  destruct (l !! i); reflexivity.
Qed.

Lemma timestamp_shift_lookup (c : Z) (l : list Tagged) (i : nat) :
  (i < length l)%nat ->
  timestamp ((shiftTagged c <$> l) !!! i) = timestamp (l !!! i) + c.
Proof.
  intros Hi. destruct (lookup_lt_is_Some_2 l i Hi) as [x Hx].
  rewrite !list_lookup_total_alt, list_lookup_fmap, Hx. reflexivity.
Qed.

Lemma dropLeft_shift (c : Z) (merged : list Tagged) (st : SweepState) :
  dropLeft (shiftTagged c <$> merged) st = dropLeft merged st.
Proof. unfold dropLeft. rewrite channelIdx_shift_lookup. reflexivity. Qed.

Lemma shrinkWindow_shift (c : Z) (merged : list Tagged) (w : Z) (right : nat) :
  (right < length merged)%nat ->
  forall fuel st,
  shrinkWindow fuel (shiftTagged c <$> merged) w right st
  = shrinkWindow fuel merged w right st.
Proof.
  intros Hr. induction fuel as [|fuel IH]; intros st; [reflexivity|].
  cbn [shrinkWindow]. rewrite dropLeft_shift, IH.
  destruct (Nat.ltb_spec (left st) right) as [Hl|Hl].
  - rewrite !timestamp_shift_lookup by lia.
    replace (ll_sub (timestamp (merged !!! right) + c)
                    (timestamp (merged !!! left st) + c))
      with (ll_sub (timestamp (merged !!! right))
                   (timestamp (merged !!! left st)))
      by (unfold ll_sub; f_equal; lia).
    reflexivity.
  - rewrite !andb_false_r. reflexivity.
Qed.

Lemma sweepStep_shift (c : Z) (n : Z) (merged : list Tagged) (w : Z)
    (st : SweepState) (right : nat) :
  (right < length merged)%nat ->
  sweepStep n (shiftTagged c <$> merged) w st right
  = sweepStep n merged w st right.
Proof.
  intros Hr. unfold sweepStep.
  rewrite channelIdx_shift_lookup, (shrinkWindow_shift c merged w right Hr),
    dropLeft_shift.
  reflexivity.
Qed.

Lemma nfoldSweep_shift (c : Z) (n : nat) (merged : list Tagged) (w : Z) :
  nfoldSweep n (shiftTagged c <$> merged) w = nfoldSweep n merged w.
Proof.
  unfold nfoldSweep, sweepAfter. rewrite length_fmap.
  assert (Hfold : forall (l : list nat) st,
    Forall (fun right => (right < length merged)%nat) l ->
    foldl (sweepStep (Z.of_nat n) (shiftTagged c <$> merged) w) st l
    = foldl (sweepStep (Z.of_nat n) merged w) st l).
  { induction l as [|right l IH]; intros st Hl; [reflexivity|].
    apply Forall_cons in Hl as [Hr Hl]. cbn [foldl].
    rewrite (sweepStep_shift c _ merged w st right Hr). apply IH. exact Hl. }
  apply Hfold. apply Forall_forall. intros right Hin.
  apply elem_of_seq in Hin. lia.
Qed.

(** X19.  Only the differences between the offsets matter to the N-fold
    counter: when no two events of the merged stream have the same
    timestamp, adding one and the same shift to every offset of a
    complete offset list leaves the result, a count or an exception,
    unchanged, for every sort that meets the contract of [std::sort]. *)
Theorem countNFold_offset_shift
    (sort : list Tagged -> list Tagged)
    (channels : list (list Z)) (w c : Z) (offsetsPs : list Z) :
  stdSort sort ->
  picoseconds c ->
  Forall picoseconds offsetsPs ->
  Forall (Forall picoseconds) channels ->
  length offsetsPs = length channels ->
  NoDup (timestamp <$> mergeChannels channels offsetsPs 0) ->
  countNFoldCoincidences sort channels w (Z.add c <$> offsetsPs)
  = countNFoldCoincidences sort channels w offsetsPs.
Proof.
  intros Hsort Hc Hoff Hch Hlen Hnd. unfold countNFoldCoincidences.
  rewrite length_fmap.
  destruct (length channels <? 2)%nat eqn:Hn; [reflexivity|].
  apply Nat.ltb_ge in Hn.
  destruct offsetsPs as [|o os] eqn:Hos; [cbn [length] in Hlen; lia|].
  rewrite <- Hos in *.
  assert (Hne : offsetsPs <> []) by (rewrite Hos; discriminate).
  assert (Hne' : Z.add c <$> offsetsPs <> []).
  { rewrite Hos. discriminate. }
  rewrite !bool_decide_false by assumption. cbn [negb andb].
  rewrite Hlen, Nat.eqb_refl. cbn [negb].
  rewrite (mergeChannels_shift c offsetsPs channels Hc Hoff Hch 0 ltac:(lia)).
  rewrite (stdSort_shift sort c _ Hsort Hnd), nfoldSweep_shift.
  destruct (Z.add c <$> offsetsPs) as [|o' os'] eqn:Hmap; [congruence|].
  rewrite Hos.
  destruct channels as [|c0 [|c1 [|c2 rest]]]; reflexivity.
Qed.

Lemma countNFold_offset_shift_witness :
  countNFoldCoincidences stableSortTagged [[0; 100]; [7; 130]; [12]] 20
    (Z.add 1000 <$> [0; 5; -3])
  = countNFoldCoincidences stableSortTagged [[0; 100]; [7; 130]; [12]] 20
      [0; 5; -3].
Proof.
  apply countNFold_offset_shift.
  - exact stableSortTagged_stdSort.
  - unfold picoseconds. lia.
  - repeat constructor; unfold picoseconds; lia.
  - repeat constructor; unfold picoseconds; lia.
  - reflexivity.
  - apply (bool_decide_unpack _). vm_compute. exact I.
Defined.

(** ** RollingSingles.cpp: setWindow *)

(** X20.  [setWindow] never installs a window shorter than one second: a
    request below 1 acts as a request for 1.  It keeps [latestSecond_],
    and repeating the call changes nothing. *)
Theorem setWindow_clamps (seconds : Z) (r : RollingSingles) :
  windowSeconds_ (setWindow seconds r) = Z.max 1 seconds
  /\ 1 <= windowSeconds_ (setWindow seconds r)
  /\ latestSecond_ (setWindow seconds r) = latestSecond_ r
  /\ setWindow (Z.min 1 seconds) r = setWindow 1 r
  /\ setWindow seconds (setWindow seconds r) = setWindow seconds r.
Proof.
  unfold setWindow.
  set (X := {| channels_ := channels_ r; latestChunks_ := latestChunks_ r;
               windowSeconds_ := Z.max 1 seconds;
               latestSecond_ := latestSecond_ r |}).
  destruct (prune_latestSecond X) as (Hl & Hw & Hc).
  split; [exact Hw|]. split; [rewrite Hw; cbn [windowSeconds_ X]; lia|].
  split; [exact Hl|]. split.
  - replace (Z.max 1 (Z.min 1 seconds)) with (Z.max 1 1) by lia.
    reflexivity.
  - assert (Heta : {| channels_ := channels_ (prune X);
                      latestChunks_ := latestChunks_ (prune X);
                      windowSeconds_ := Z.max 1 seconds;
                      latestSecond_ := latestSecond_ (prune X) |} = prune X).
    { change (Z.max 1 seconds) with (windowSeconds_ X). rewrite <- Hw.
      destruct (prune X); reflexivity. }
    rewrite Heta. apply prune_prune.
Qed.

(** ** ReadCSV.cpp: the fields of a line *)

Lemma find_char_Some (c : Ascii.ascii) (line : list Ascii.ascii) (i : nat) :
  find_char c line = Some i
  <-> exists pre post,
        line = pre ++ c :: post /\ (c ∉ pre) /\ length pre = i.
Proof.
  revert i. induction line as [|x rest IH]; intros i; cbn [find_char].
  - split; [discriminate|]. intros (pre & post & H & _).
    destruct pre; discriminate.
  - destruct (Ascii.eqb_spec x c) as [->|Hne].
    + split.
      * intros [= <-]. exists [], rest. split; [reflexivity|].
        split; [apply not_elem_of_nil|reflexivity].
      * intros (pre & post & H & Hnin & Hlen). destruct pre as [|y pre].
        -- cbn [length] in Hlen. subst i. reflexivity.
        -- injection H as <- _. exfalso. apply Hnin. left.
    + split.
      * intros Hf. destruct (find_char c rest) as [k|] eqn:Hk; [|discriminate].
        injection Hf as <-.
        destruct (proj1 (IH k) eq_refl) as (pre & post & -> & Hnin & Hlen).
        exists (x :: pre), post. split; [reflexivity|].
        split; [|cbn [length]; lia].
        intros Hin. apply elem_of_cons in Hin as [?|?]; [congruence|contradiction].
      * intros (pre & post & H & Hnin & Hlen). destruct pre as [|y pre].
        -- injection H as -> _. contradiction.
        -- injection H as -> ->. cbn [length] in Hlen.
           destruct i as [|i]; [lia|].
           rewrite (proj2 (IH i)); [reflexivity|].
           exists pre, post. split; [reflexivity|]. split; [|lia].
           intros Hin. apply Hnin. right. exact Hin.
Qed.

Lemma find_char_None (c : Ascii.ascii) (line : list Ascii.ascii) :
  find_char c line = None <-> c ∉ line.
Proof.
  induction line as [|x rest IH]; cbn [find_char].
  - split; [intros _; apply not_elem_of_nil|reflexivity].
  - destruct (Ascii.eqb_spec x c) as [->|Hne].
    + split; [discriminate|]. intros Hnin. exfalso. apply Hnin. left.
    + destruct (find_char c rest) as [k|]; cbn [fmap option_fmap option_map].
      * split; [discriminate|]. intros Hnin. exfalso.
        assert (Hk : Some k <> None) by discriminate.
        apply Hk, IH. intros Hin. apply Hnin. right. exact Hin.
      * split; [|reflexivity]. intros _ Hin.
        apply elem_of_cons in Hin as [?|Hin]; [congruence|].
        apply (proj1 IH eq_refl Hin).
Qed.

(** X21.  Which part of a CSV line the reader looks at: a line is cut into
    tokens exactly when it contains a comma; the timestamp token is the
    text before the first comma and the channel token the text between
    the first comma and the second, or the end of the line; further
    columns are ignored. *)
Theorem csvTokens_fields (line t c : list Ascii.ascii) :
  csvTokens line = Some (t, c)
  <-> exists rest,
        line = t ++ comma :: c ++ rest
        /\ (comma ∉ t) /\ (comma ∉ c)
        /\ (rest = [] \/ exists r, rest = comma :: r).
Proof.
  split.
  - unfold csvTokens, string_find, substr.
    destruct line as [|x0 l0] eqn:Hline; [discriminate|]. rewrite <- Hline.
    clear Hline x0 l0. rewrite drop_0.
    destruct (find_char comma line) as [i|] eqn:Hi;
      cbn [fmap option_fmap option_map]; [|discriminate].
    apply find_char_Some in Hi as (pre & post & -> & Hpre & Hlen).
    subst i. cbv zeta. rewrite Nat.add_0_l.
    replace (drop (length pre + 1) (pre ++ comma :: post)) with post.
    2:{ rewrite drop_app_ge by lia.
        replace (length pre + 1 - length pre)%nat with 1%nat by lia.
        reflexivity. }
    rewrite take_app_length.
    destruct (find_char comma post) as [k|] eqn:Hk;
      cbn [fmap option_fmap option_map default from_option id].
    + apply find_char_Some in Hk as (mid & rest & -> & Hmid & Hlenk).
      subst k.
      replace (length pre + 1 + length mid - length pre - 1)%nat
        with (length mid) by lia.
      rewrite take_app_length.
      intros [= <- <-]. exists (comma :: rest).
      split; [reflexivity|]. split; [exact Hpre|]. split; [exact Hmid|].
      right. eauto.
    + apply find_char_None in Hk.
      rewrite take_ge by (rewrite length_app; cbn [length]; lia).
      intros [= <- <-]. exists []. rewrite app_nil_r.
      split; [reflexivity|]. split; [exact Hpre|]. split; [exact Hk|].
      left. reflexivity.
  - intros (rest & -> & Ht & Hc & Hrest).
    unfold csvTokens, string_find, substr.
    assert (Hi : find_char comma (t ++ comma :: c ++ rest)
                 = Some (length t)).
    { apply find_char_Some. exists t, (c ++ rest). repeat split. exact Ht. }
    destruct (t ++ comma :: c ++ rest) as [|x0 l0] eqn:Hline.
    { destruct t; discriminate. }
    rewrite <- Hline in *. clear Hline x0 l0.
    rewrite drop_0, Hi. cbn [fmap option_fmap option_map]. cbv zeta.
    rewrite Nat.add_0_l.
    replace (drop (length t + 1) (t ++ comma :: c ++ rest))
      with (c ++ rest).
    2:{ rewrite drop_app_ge by lia.
        replace (length t + 1 - length t)%nat with 1%nat by lia. reflexivity. }
    rewrite take_app_length.
    destruct Hrest as [->|[r ->]].
    + rewrite app_nil_r.
      rewrite (proj2 (find_char_None comma c) Hc).
      cbn [fmap option_fmap option_map default from_option].
      rewrite take_ge by (rewrite length_app; cbn [length]; lia).
      reflexivity.
    + assert (Hk : find_char comma (c ++ comma :: r) = Some (length c)).
      { apply find_char_Some. exists c, r. repeat split. exact Hc. }
      rewrite Hk. cbn [fmap option_fmap option_map default from_option id].
      replace (length t + 1 + length c - length t - 1)%nat
        with (length c) by lia.
      rewrite take_app_length. reflexivity.
Qed.

(** ** Symmetries of the pair counters *)

Section SweepSymmetry.
Variables (A B : list Z) (w d : Z).
Hypothesis A_range : Forall picoseconds A.
Hypothesis B_range : Forall picoseconds B.
Hypothesis d_range : picoseconds d.
Hypothesis w_nonneg : 0 <= w.

Lemma neg_range : picoseconds (- d).
Proof. unfold picoseconds in *. lia. Qed.

(** Exchanging the views and negating the delay exchanges the roles of
    the two indices. *)
Lemma pairSweep_swap fuel : forall i j c,
  pairSweep fuel A B (- w) w d c i j = pairSweep fuel B A (- w) w (- d) c j i.
Proof.
  induction fuel as [|fuel IH]; intros i j c; [reflexivity|].
  cbn [pairSweep].
  destruct (A !! i) as [a|] eqn:Ha; destruct (B !! j) as [b|] eqn:Hb;
    try reflexivity.
  rewrite (pair_diff_exact A B d A_range B_range d_range i j a b Ha Hb).
  rewrite (pair_diff_exact B A (- d) B_range A_range neg_range j i b a Hb Ha).
  destruct (Z.ltb_spec (a - d - b) (- w)), (Z.gtb_spec (a - d - b) w),
    (Z.ltb_spec (b - - d - a) (- w)), (Z.gtb_spec (b - - d - a) w);
    try lia; apply IH.
Qed.
End SweepSymmetry.

(** X22.  Exchanging the two views and negating the delay does not change
    the fixed-delay count. *)
Theorem countCoincidencesWithDelay_swap (A B : list Z) (w d : Z) :
  Forall picoseconds A -> Forall picoseconds B -> picoseconds d ->
  0 < w < 2 ^ 63 ->
  countCoincidencesWithDelay B A w (- d) = countCoincidencesWithDelay A B w d.
Proof.
  intros HA HB Hd Hw. unfold countCoincidencesWithDelay.
  rewrite (lower_bound_exact w Hw), (Nat.add_comm (length B) (length A)).
  symmetry. apply pairSweep_swap; [assumption|assumption|assumption|lia].
Qed.

Lemma countCoincidencesWithDelay_swap_witness :
  countCoincidencesWithDelay [40; 1000] [0; 1050; 2000] 20 (- 50)
  = countCoincidencesWithDelay [0; 1050; 2000] [40; 1000] 20 50.
Proof.
  apply (countCoincidencesWithDelay_swap [0; 1050; 2000] [40; 1000] 20 50).
  - repeat constructor; unfold picoseconds; lia.
  - repeat constructor; unfold picoseconds; lia.
  - unfold picoseconds. lia.
  - lia.
Defined.

Lemma pairSweep_shift (A B : list Z) (w d c0 : Z) :
  Forall picoseconds A -> Forall picoseconds B ->
  picoseconds d -> picoseconds c0 ->
  forall fuel i j c,
  pairSweep fuel (Z.add c0 <$> A) (Z.add c0 <$> B) (- w) w d c i j
  = pairSweep fuel A B (- w) w d c i j.
Proof.
  intros HA HB Hd Hc0. induction fuel as [|fuel IH]; intros i j c;
    [reflexivity|].
  cbn [pairSweep]. rewrite !list_lookup_fmap.
  destruct (A !! i) as [a|] eqn:Ha; destruct (B !! j) as [b|] eqn:Hb;
    cbn [fmap option_fmap option_map]; try reflexivity.
  rewrite (pair_diff_exact A B d HA HB Hd i j a b Ha Hb).
  pose proof (Forall_lookup_1 _ _ _ _ HA Ha) as Har.
  pose proof (Forall_lookup_1 _ _ _ _ HB Hb) as Hbr.
  assert (E : ll_sub (ll_sub (c0 + a) d) (c0 + b) = a - d - b).
  { unfold ll_sub, picoseconds in *.
    rewrite (wrap_ll_small (c0 + a - d)) by lia.
    rewrite wrap_ll_small by lia. lia. }
  rewrite E, !IH. reflexivity.
Qed.

Lemma crossCount_shift (A B : list Z) (w d c0 : Z) :
  crossCount (Z.add c0 <$> A) (Z.add c0 <$> B) w d = crossCount A B w d.
Proof.
  assert (Hrow : forall a,
    sumZ (fun b => hit w d (c0 + a) b) (Z.add c0 <$> B)
    = sumZ (fun b => hit w d a b) B).
  { intros a. induction B as [|b B' IH]; [reflexivity|].
    rewrite fmap_cons. cbn [sumZ foldr].
    fold (sumZ (fun b => hit w d (c0 + a) b) (Z.add c0 <$> B')).
    fold (sumZ (fun b => hit w d a b) B').
    rewrite IH. f_equal. unfold hit, in_window.
    replace (c0 + a - d - (c0 + b)) with (a - d - b) by lia. reflexivity. }
  unfold crossCount. induction A as [|a A' IH]; [reflexivity|].
  rewrite fmap_cons. cbn [sumZ foldr].
  fold (sumZ (fun a => sumZ (fun b => hit w d a b) (Z.add c0 <$> B))
             (Z.add c0 <$> A')).
  fold (sumZ (fun a => sumZ (fun b => hit w d a b) B) A').
  rewrite IH, <- (Hrow a). reflexivity.
Qed.

(** X23.  The origin of time does not matter to the pair counters: adding
    one and the same constant to every timestamp of both views changes
    neither the fixed-delay count nor any entry of the delay histogram. *)
Theorem pair_counters_time_origin
    (A B : list Z) (w d c0 start_ps end_ps step_ps : Z) (results : ScanResult) :
  Sorted Z.le A -> Sorted Z.le B ->
  Forall picoseconds A -> Forall picoseconds B ->
  Forall picoseconds (Z.add c0 <$> A) -> Forall picoseconds (Z.add c0 <$> B) ->
  picoseconds c0 -> picoseconds d ->
  0 < w -> picoseconds w ->
  0 < step_ps -> start_ps <= end_ps ->
  picoseconds start_ps -> picoseconds end_ps -> picoseconds step_ps ->
  countCoincidencesWithDelay (Z.add c0 <$> A) (Z.add c0 <$> B) w d
  = countCoincidencesWithDelay A B w d
  /\ computeCoincidencesForRange (Z.add c0 <$> A) (Z.add c0 <$> B) w
       start_ps end_ps step_ps results
     = computeCoincidencesForRange A B w start_ps end_ps step_ps results.
Proof.
  intros HAs HBs HA HB HA' HB' Hc0 Hd Hw Hwr Hstep Hgrid Hsr Her Hstr. split.
  - unfold countCoincidencesWithDelay. rewrite !length_fmap.
    rewrite (lower_bound_exact w ltac:(unfold picoseconds in *; lia)).
    apply pairSweep_shift; assumption.
  - assert (HAs' : Sorted Z.le (Z.add c0 <$> A)).
    { apply Sorted_fmap with (R1 := Z.le); [|exact HAs]. intros x y. lia. }
    assert (HBs' : Sorted Z.le (Z.add c0 <$> B)).
    { apply Sorted_fmap with (R1 := Z.le); [|exact HBs]. intros x y. lia. }
    destruct (computeCoincidencesForRange_entries _ _ w start_ps end_ps
                step_ps results HAs' HBs' Hw Hstep Hgrid HA' HB' Hwr Hsr Her
                Hstr) as (res' & -> & Hlen' & Hentry').
    destruct (computeCoincidencesForRange_entries A B w start_ps end_ps
                step_ps results HAs HBs Hw Hstep Hgrid HA HB Hwr Hsr Her
                Hstr) as (res & -> & Hlen & Hentry).
    f_equal. unfold ScanResult, CoincidencePoint in *.
    apply list_eq. intros k.
    destruct (decide (k < length res)%nat) as [Hk|Hk].
    + rewrite (Hentry k Hk), (Hentry' k ltac:(lia)), crossCount_shift.
      reflexivity.
    + rewrite !(proj2 (lookup_ge_None _ _)) by lia. reflexivity.
Qed.

Lemma pair_counters_time_origin_witness :
  countCoincidencesWithDelay (Z.add 1000 <$> [0; 100]) (Z.add 1000 <$> [7; 130])
    20 5
  = countCoincidencesWithDelay [0; 100] [7; 130] 20 5
  /\ computeCoincidencesForRange (Z.add 1000 <$> [0; 100])
       (Z.add 1000 <$> [7; 130]) 20 (-50) 50 10 []
     = computeCoincidencesForRange [0; 100] [7; 130] 20 (-50) 50 10 [].
Proof.
  apply (pair_counters_time_origin [0; 100] [7; 130] 20 5 1000 (-50) 50 10 []);
    first [ unfold picoseconds; lia
          | repeat constructor; unfold picoseconds; simpl; lia
          | lia ].
Defined.

(** ** RollingSingles.cpp: what holds of the window and of sortedness *)

(** X24.  The window after [prune], for seconds in range and
    [latestSecond_] set: with [m = latestSecond_ - windowSeconds_ + 1],
    every stored channel that has buckets either starts at [m] or later,
    or ends before [m]; a channel never straddles the bound. *)
Theorem prune_window_invariant (r : RollingSingles) (ch : Z) (s' : Singles) :
  latestSecond_ r <> LLONG_MIN ->
  secondOK (latestSecond_ r) -> picoseconds (windowSeconds_ r) ->
  (forall s, channels_ r !! ch = Some s -> secondsOK s) ->
  channels_ (prune r) !! ch = Some s' ->
  eventsPerSecond s' <> [] ->
  let m := latestSecond_ r - windowSeconds_ r + 1 in
  m <= baseSecond s'
  \/ baseSecond s' + Z.of_nat (length (eventsPerSecond s')) - 1 < m.
Proof.
  intros Hlatest Hl Hw Hstored Hs' Hne m.
  unfold secondOK, picoseconds in Hl, Hw.
  assert (Em : ll_add (ll_sub (latestSecond_ r) (windowSeconds_ r)) 1 = m).
  { unfold ll_add, ll_sub. rewrite (wrap_ll_small (_ - _)) by lia.
    apply wrap_ll_small. lia. }
  unfold prune in Hs'.
  destruct (Z.eqb_spec (latestSecond_ r) LLONG_MIN); [contradiction|].
  cbn [channels_] in Hs'. rewrite lookup_fmap, Em in Hs'.
  destruct (channels_ r !! ch) as [s|] eqn:Hs; [|discriminate].
  cbn [fmap option_fmap option_map] in Hs'. injection Hs' as <-.
  pose proof (Hstored s eq_refl) as Hok.
  rewrite (pruneSingles_exact m s Hok ltac:(unfold m; lia)) in *.
  destruct (Z.ltb_spec (baseSecond s) m) as [Hlt|Hge]; cbn [andb] in *;
    [|left; exact Hge].
  destruct (Z.leb_spec m (baseSecond s + Z.of_nat (length (eventsPerSecond s)) - 1))
    as [Hreach|Hstale]; cbn [andb baseSecond] in *.
  - left. lia.
  - right. exact Hstale.
Qed.

Lemma prune_window_invariant_witness :
  let r := {| channels_ :=
                {[ 1 := {| channel := 1; baseSecond := 0;
                           eventsPerSecond := [[1]; [2]; [3]; [4]] |} ]};
              latestChunks_ := ∅; windowSeconds_ := 2; latestSecond_ := 3 |} in
  let s' := {| channel := 1; baseSecond := 2; eventsPerSecond := [[3]; [4]] |} in
  2 <= baseSecond s'
  \/ baseSecond s' + Z.of_nat (length (eventsPerSecond s')) - 1 < 2.
Proof.
  intros r s'. apply (prune_window_invariant r 1 s').
  - vm_compute. discriminate.
  - unfold secondOK. simpl. lia.
  - unfold picoseconds. simpl. lia.
  - intros s Hs. vm_compute in Hs. injection Hs as <-.
    unfold secondsOK. simpl. lia.
  - vm_compute. reflexivity.
  - discriminate.
Defined.

(** X25.  When [appendChunk] keeps a bucket sorted: inside the window, if
    the stored bucket and the incoming bucket of a slice are both
    non-decreasing and no stored event is later than an incoming one (in
    particular when either bucket is empty), the slice reads as a
    non-decreasing bucket after the call. *)
Theorem appendChunk_sorted_when_ordered
    (chunk : gmap Z Singles) (r : RollingSingles) (ch t : Z) :
  (forall s, channels_ r !! ch = Some s -> secondsOK s) ->
  (forall k inc, chunk !! k = Some inc -> secondsOK inc) ->
  picoseconds (windowSeconds_ r) ->
  latestSecond_ r = LLONG_MIN \/ secondOK (latestSecond_ r) ->
  secondOK t ->
  latestSecond_ (appendChunk chunk r) - windowSeconds_ r + 1 <= t ->
  sortedBucket (eventsForSecond (channelSingles r ch) t) ->
  sortedBucket (eventsForSecond (default emptySingles (chunk !! ch)) t) ->
  (forall x y,
     x ∈ eventsForSecond (channelSingles r ch) t ->
     y ∈ eventsForSecond (default emptySingles (chunk !! ch)) t ->
     x <= y) ->
  sortedBucket (eventsForSecond (channelSingles (appendChunk chunk r) ch) t).
Proof.
  intros Hstored Hchunk Hw Hlatest Ht Hin Hold Hnew Hcross.
  rewrite (appendChunk_eventsForSecond chunk r ch t Hstored Hchunk Hw Hlatest
             Ht Hin).
  unfold sortedBucket in *. apply StronglySorted_Sorted, StronglySorted_app.
  split; [exact Hcross|].
  split; (apply Sorted_StronglySorted; [|assumption]);
    intros a b c; apply Z.le_trans.
Qed.

Lemma appendChunk_sorted_when_ordered_witness :
  let r := {| channels_ :=
                {[ 1 := {| channel := 1; baseSecond := 0;
                           eventsPerSecond := [[1]; [2; 3]] |} ]};
              latestChunks_ := ∅; windowSeconds_ := 2; latestSecond_ := 1 |} in
  let chunk : gmap Z Singles :=
    {[ 1 := {| channel := 1; baseSecond := 1;
               eventsPerSecond := [[4]; [5]] |} ]} in
  sortedBucket (eventsForSecond (channelSingles (appendChunk chunk r) 1) 1).
Proof.
  intros r chunk.
  assert (Eold : eventsForSecond (channelSingles r 1) 1 = [2; 3])
    by (vm_compute; reflexivity).
  assert (Enew : eventsForSecond (default emptySingles (chunk !! 1)) 1 = [4])
    by (vm_compute; reflexivity).
  apply (appendChunk_sorted_when_ordered chunk r 1 1).
  - intros s Hs. vm_compute in Hs. injection Hs as <-.
    unfold secondsOK. simpl. lia.
  - intros k inc Hk. unfold chunk in Hk.
    apply lookup_singleton_Some in Hk as [_ <-].
    unfold secondsOK. simpl. lia.
  - unfold picoseconds. simpl. lia.
  - right. unfold secondOK. simpl. lia.
  - unfold secondOK. lia.
  - vm_compute. discriminate.
  - rewrite Eold. unfold sortedBucket. repeat constructor; lia.
  - rewrite Enew. unfold sortedBucket. repeat constructor.
  - rewrite Eold, Enew. intros x y Hx Hy.
    apply elem_of_cons in Hy as [->|Hy]; [|inversion Hy].
    apply elem_of_cons in Hx as [->|Hx]; [lia|].
    apply elem_of_cons in Hx as [->|Hx]; [lia|inversion Hx].
Defined.
